(** * Handlords: the simulation core of [src/main.cpp]

    A shallow embedding of the grid and cell data model, the 16-bit LFSR,
    the combat resolver, Albert's rotation schedule and the phase machine,
    followed by the properties the specification states about them.

    Conventions.
    - [uint8_t] and [uint16_t] values are integers of [Z]; every store into
      such a field writes the wrap-around out ([u8], [u16]).
    - [int] values are integers of [Z]; signed overflow is undefined in C++
      and none of the modelled computations comes near it.
    - [std::array<Cell, W*H>] and [std::vector<PlayerState>] are lists,
      read by index with a default and written with list insert.  C++ leaves
      an access outside the container undefined; the source guards every
      neighbour access with [in_bounds] and every player access made by the
      resolver with a size test, and both guards are modelled.
    - A C++ reference into the state ([Cell &a], [PlayerState &player]) is
      the coordinates or the index it designates. *)

From Stdlib Require Import ZArith Lia List Bool.
From stdpp Require Import base tactics decidable option list numbers.

Local Open Scope Z_scope.

(** ** Basic types (namespace [hl]) *)

Module hl.

Definition ARENA_W : Z := 40.
Definition ARENA_H : Z := 24.

Inductive CellKind : Set := Empty | Wall | Symbol.
Inductive Piece : Set := Rock | Paper | Scissors.

Record PlayerId : Set := mkPlayerId { v : Z }.

Record Cell : Set := mkCell {
  kind : CellKind;
  owner : PlayerId;
  piece : Piece
}.

(** [Cell{}]: the value-initialised cell. *)
Definition Cell0 : Cell := mkCell Empty (mkPlayerId 0) Rock.

Record GameConfig : Set := mkGameConfig {
  pairs_per_tick : Z;
  ticks_per_second : Z
}.

Record PlayerState : Set := mkPlayerState {
  id : PlayerId;
  current : Piece;
  last_rot_tick : Z;   (* uint16_t *)
  tick_losses : Z;     (* uint8_t *)
  rot_period : Z;      (* uint8_t *)
  accel_ctr : Z        (* uint8_t *)
}.

Record AlbertConfig : Set := mkAlbertConfig {
  rotation_average : Z;
  rotation_half_interval : Z
}.

Inductive Phase : Set := Ready | Playing | Lost | Won | GameWon.

(** [GameState].  The member [system_rng] of the source is never read:
    [rngu] draws from its own function-static [std::mt19937].  That
    generator is an input of the model (its outputs, in order), and
    [gen_calls] is how many of them have been consumed. *)
Record GameState : Set := mkGameState {
  grid : list Cell;
  cfg : GameConfig;
  tick : Z;            (* uint16_t *)
  rng16 : Z;           (* uint16_t *)
  players : list PlayerState;
  current_level : Z;
  phase : Phase;
  last_battles : Z;
  use_system_rng : bool;
  gen_calls : nat;
  last_attempts : Z;
  last_same_player : Z;
  last_wall_empty : Z;
  albert_config : AlbertConfig
}.

End hl.

Export hl.

#[global] Instance CellKind_eq_dec : EqDecision CellKind.
Proof. solve_decision. Defined.
#[global] Instance Piece_eq_dec : EqDecision Piece.
Proof. solve_decision. Defined.
#[global] Instance PlayerId_eq_dec : EqDecision PlayerId.
Proof. solve_decision. Defined.
#[global] Instance Cell_eq_dec : EqDecision Cell.
Proof. solve_decision. Defined.
#[global] Instance Phase_eq_dec : EqDecision Phase.
Proof. solve_decision. Defined.
#[global] Instance Cell_inhabited : Inhabited Cell := populate Cell0.
#[global] Instance PlayerState_inhabited : Inhabited PlayerState :=
  populate (mkPlayerState (mkPlayerId 0) Rock 0 0 0 0).

(** ** Fixed-width stores *)

Definition u8 (z : Z) : Z := z mod 256.
Definition u16 (z : Z) : Z := z mod 65536.

(** ** The grid: [Grid::idx], [Grid::at], [Grid::clear] *)

Definition idx (x y : Z) : Z := y * ARENA_W + x.

(** Reading [g.at(x, y)].  The source reads a cell only at coordinates
    that are [in_bounds]; elsewhere C++ leaves the access undefined and the
    value the model gives is of no use. *)
Definition cell_at (g : list Cell) (x y : Z) : Cell :=
  g !!! Z.to_nat (idx x y).

(** Writing [g.at(x, y) = c], under the same proviso. *)
Definition set_at (g : list Cell) (x y : Z) (c : Cell) : list Cell :=
  <[Z.to_nat (idx x y) := c]> g.

Definition clear : list Cell := replicate (Z.to_nat (ARENA_W * ARENA_H)) Cell0.

(** ** Field updates of [GameState] and [PlayerState] *)

Definition set_grid (g : list Cell) (gs : GameState) : GameState :=
  mkGameState g (cfg gs) (tick gs) (rng16 gs) (players gs) (current_level gs)
    (phase gs) (last_battles gs) (use_system_rng gs) (gen_calls gs)
    (last_attempts gs) (last_same_player gs) (last_wall_empty gs)
    (albert_config gs).

Definition set_tick (t : Z) (gs : GameState) : GameState :=
  mkGameState (grid gs) (cfg gs) t (rng16 gs) (players gs) (current_level gs)
    (phase gs) (last_battles gs) (use_system_rng gs) (gen_calls gs)
    (last_attempts gs) (last_same_player gs) (last_wall_empty gs)
    (albert_config gs).

Definition set_rng16 (s : Z) (gs : GameState) : GameState :=
  mkGameState (grid gs) (cfg gs) (tick gs) s (players gs) (current_level gs)
    (phase gs) (last_battles gs) (use_system_rng gs) (gen_calls gs)
    (last_attempts gs) (last_same_player gs) (last_wall_empty gs)
    (albert_config gs).

Definition set_gen_calls (n : nat) (gs : GameState) : GameState :=
  mkGameState (grid gs) (cfg gs) (tick gs) (rng16 gs) (players gs)
    (current_level gs) (phase gs) (last_battles gs) (use_system_rng gs) n
    (last_attempts gs) (last_same_player gs) (last_wall_empty gs)
    (albert_config gs).

Definition set_players (ps : list PlayerState) (gs : GameState) : GameState :=
  mkGameState (grid gs) (cfg gs) (tick gs) (rng16 gs) ps (current_level gs)
    (phase gs) (last_battles gs) (use_system_rng gs) (gen_calls gs)
    (last_attempts gs) (last_same_player gs) (last_wall_empty gs)
    (albert_config gs).

Definition set_phase (p : Phase) (gs : GameState) : GameState :=
  mkGameState (grid gs) (cfg gs) (tick gs) (rng16 gs) (players gs)
    (current_level gs) p (last_battles gs) (use_system_rng gs) (gen_calls gs)
    (last_attempts gs) (last_same_player gs) (last_wall_empty gs)
    (albert_config gs).

(** The four statistics written at the end of [resolve_pairs]. *)
Definition set_stats (battles attempts same wall_empty : Z) (gs : GameState)
  : GameState :=
  mkGameState (grid gs) (cfg gs) (tick gs) (rng16 gs) (players gs)
    (current_level gs) (phase gs) battles (use_system_rng gs) (gen_calls gs)
    attempts same wall_empty (albert_config gs).

Definition set_cfg (c : GameConfig) (gs : GameState) : GameState :=
  mkGameState (grid gs) c (tick gs) (rng16 gs) (players gs) (current_level gs)
    (phase gs) (last_battles gs) (use_system_rng gs) (gen_calls gs)
    (last_attempts gs) (last_same_player gs) (last_wall_empty gs)
    (albert_config gs).

Definition set_albert_config (c : AlbertConfig) (gs : GameState) : GameState :=
  mkGameState (grid gs) (cfg gs) (tick gs) (rng16 gs) (players gs)
    (current_level gs) (phase gs) (last_battles gs) (use_system_rng gs)
    (gen_calls gs) (last_attempts gs) (last_same_player gs)
    (last_wall_empty gs) c.

Definition set_use_system_rng (b : bool) (gs : GameState) : GameState :=
  mkGameState (grid gs) (cfg gs) (tick gs) (rng16 gs) (players gs)
    (current_level gs) (phase gs) (last_battles gs) b (gen_calls gs)
    (last_attempts gs) (last_same_player gs) (last_wall_empty gs)
    (albert_config gs).

Definition set_current (p : Piece) (ps : PlayerState) : PlayerState :=
  mkPlayerState (id ps) p (last_rot_tick ps) (tick_losses ps) (rot_period ps)
    (accel_ctr ps).

Definition set_last_rot_tick (t : Z) (ps : PlayerState) : PlayerState :=
  mkPlayerState (id ps) (current ps) t (tick_losses ps) (rot_period ps)
    (accel_ctr ps).

Definition set_tick_losses (n : Z) (ps : PlayerState) : PlayerState :=
  mkPlayerState (id ps) (current ps) (last_rot_tick ps) n (rot_period ps)
    (accel_ctr ps).

Definition set_rot_period (n : Z) (ps : PlayerState) : PlayerState :=
  mkPlayerState (id ps) (current ps) (last_rot_tick ps) (tick_losses ps) n
    (accel_ctr ps).

(** ** Utility: [lfsr16_step], [in_bounds], [pick_neighbor] *)

(** The new value of [s], which is also what the function returns.
    Taps 16, 14, 13, 11. *)
Definition lfsr16_step (s : Z) : Z :=
  let bit :=
    Z.land (Z.lxor (Z.lxor (Z.lxor (Z.shiftr s 0) (Z.shiftr s 2))
                      (Z.shiftr s 3)) (Z.shiftr s 5)) 1 in
  u16 (Z.lor (Z.shiftr s 1) (Z.shiftl bit 15)).

Definition in_bounds (x y : Z) : bool :=
  (0 <=? x) && (x <? ARENA_W) && (0 <=? y) && (y <? ARENA_H).

Definition pick_neighbor (x y r : Z) : Z * Z :=
  match Z.land r 3 with
  | 0 => (x, y - 1)
  | 1 => (x + 1, y)
  | 2 => (x, y + 1)
  | 3 => (x - 1, y)
  | _ => (x, y)
  end.

(** Member-wise writes through a cell reference. *)
Definition set_kind (k : CellKind) (c : Cell) : Cell :=
  mkCell k (owner c) (piece c).
Definition set_owner (o : PlayerId) (c : Cell) : Cell :=
  mkCell (kind c) o (piece c).
Definition set_piece (p : Piece) (c : Cell) : Cell :=
  mkCell (kind c) (owner c) p.

(** [g.at(x, y).field = value]: read the cell, change the field, store. *)
Definition upd_at (g : list Cell) (x y : Z) (f : Cell -> Cell) : list Cell :=
  set_at g x y (f (cell_at g x y)).

(** [static_cast<int>(Piece)] and back. *)
Definition int_of_Piece (p : Piece) : Z :=
  match p with Rock => 0 | Paper => 1 | Scissors => 2 end.
Definition Piece_of_int (n : Z) : Piece :=
  match n with 0 => Rock | 1 => Paper | _ => Scissors end.

(** [static_cast<Piece>((static_cast<int>(p) + 1) % 3)]. *)
Definition next_piece (p : Piece) : Piece :=
  Piece_of_int (Z.rem (int_of_Piece p + 1) 3).

(** The repaint loop shared by the AI, the human rotation and the forced
    rotation: every Symbol cell of owner [pid] takes the piece [cur].
    Rows outside, columns inside, as in the source. *)
Definition repaint (g : list Cell) (pid : Z) (cur : Piece) : list Cell :=
  foldl (fun g y =>
    foldl (fun g x =>
      let cell := cell_at g x y in
      if bool_decide (kind cell = Symbol) && (v (owner cell) =? pid)
      then set_at g x y (set_piece cur cell)
      else g) g (seqZ 0 ARENA_W)) g (seqZ 0 ARENA_H).

(** ** Level init: [load_level1]

    [gs.players[0]] and [gs.players[1]] are read without a size test: [main]
    always has its two players. *)

Definition load_level1 (gs : GameState) : GameState :=
  let g := clear in
  (* border walls *)
  let g := foldl (fun g x =>
             let g := upd_at g x 0 (set_kind Wall) in
             upd_at g x (ARENA_H - 1) (set_kind Wall)) g (seqZ 0 ARENA_W) in
  let g := foldl (fun g y =>
             let g := upd_at g 0 y (set_kind Wall) in
             upd_at g (ARENA_W - 1) y (set_kind Wall)) g (seqZ 0 ARENA_H) in
  (* left half player 0, right half opponent 1 *)
  let g := foldl (fun g y =>
             foldl (fun g x =>
               if x <? Z.quot ARENA_W 2 then
                 let g := upd_at g x y (set_kind Symbol) in
                 let g := upd_at g x y (set_owner (mkPlayerId 0)) in
                 upd_at g x y (set_piece (current (players gs !!! 0%nat)))
               else
                 let g := upd_at g x y (set_kind Symbol) in
                 let g := upd_at g x y (set_owner (mkPlayerId 1)) in
                 upd_at g x y (set_piece (current (players gs !!! 1%nat))))
               g (seqZ 1 (ARENA_W - 2))) g (seqZ 1 (ARENA_H - 2)) in
  set_grid g gs.

(** The local counters of [resolve_pairs]. *)
Record PairStats : Set := mkPairStats {
  battles_count : Z;
  same_player_count : Z;
  wall_empty_count : Z
}.

(** [gs.players[loser.v].tick_losses++] under its size guard. *)
Definition record_loss (loser : PlayerId) (gs : GameState) : GameState :=
  if v loser <? Z.of_nat (length (players gs)) then
    set_players
      (alter (fun p => set_tick_losses (u8 (tick_losses p + 1)) p)
             (Z.to_nat (v loser)) (players gs)) gs
  else gs.

Section Simulation.

(** The outputs of the function-static [std::mt19937] of [rngu], in the
    order in which they are produced. *)
Variable mt19937 : nat -> Z.

(** ** [rngu]: the drawn value and the state after the draw *)
Definition rngu (gs : GameState) : Z * GameState :=
  if use_system_rng gs then
    (Z.land (mt19937 (gen_calls gs)) 65535, set_gen_calls (S (gen_calls gs)) gs)
  else
    let s := lfsr16_step (rng16 gs) in (s, set_rng16 s gs).

(** ** AI update: [update_albert_ai]

    The interval draw is written twice in the source, with the same text;
    [draw_rot_period] is that text.  [i] is the index of [player] in
    [gs.players]. *)
Definition draw_rot_period (gs : GameState) (i : nat) : GameState :=
  let '(r, gs) := rngu gs in
  let r := u16 r in
  let min_interval :=
    rotation_average (albert_config gs)
    - rotation_half_interval (albert_config gs) in
  let max_interval :=
    rotation_average (albert_config gs)
    + rotation_half_interval (albert_config gs) in
  let min_interval := Z.max 1 min_interval in
  let range := max_interval - min_interval + 1 in
  set_players
    (alter (set_rot_period (u8 (min_interval + Z.rem r range))) i (players gs))
    gs.

Definition update_albert_ai (gs : GameState) (i : nat) : GameState :=
  let gs :=
    if rot_period (players gs !!! i) =? 0 then draw_rot_period gs i else gs in
  let player := players gs !!! i in
  if tick gs - last_rot_tick player >=? rot_period player then
    let cur := next_piece (current player) in
    let gs :=
      set_players
        (alter (fun p => set_last_rot_tick (tick gs) (set_current cur p)) i
               (players gs)) gs in
    let gs := set_grid (repaint (grid gs) (v (id player)) cur) gs in
    draw_rot_period gs i
  else gs.

(** ** Combat resolution: [resolve_pair] *)
Definition resolve_pair (gs : GameState) (x y nx ny : Z) : GameState :=
  if negb (in_bounds nx ny) then gs else
  let a := cell_at (grid gs) x y in
  let b := cell_at (grid gs) nx ny in
  (* Rule 1 *)
  if bool_decide (kind a = Wall) || bool_decide (kind b = Wall) then gs else
  (* Rule 2 *)
  if bool_decide (kind a = Empty) && bool_decide (kind b = Empty) then gs else
  (* Rule 3 *)
  if bool_decide (kind a = Empty) && bool_decide (kind b = Symbol) then
    set_grid (set_at (grid gs) x y b) gs
  else if bool_decide (kind b = Empty) && bool_decide (kind a = Symbol) then
    set_grid (set_at (grid gs) nx ny a) gs
  (* Rule 4 *)
  else if bool_decide (kind a = Symbol) && bool_decide (kind b = Symbol) then
    if v (owner a) =? v (owner b) then gs
    (* Rule 5 *)
    else if bool_decide (piece a = piece b) then
      let '(r, gs) := rngu gs in
      let r := u16 r in
      if negb (Z.land r 1 =? 0) then
        let loser := owner b in
        record_loss loser (set_grid (set_at (grid gs) nx ny a) gs)
      else
        let loser := owner a in
        record_loss loser (set_grid (set_at (grid gs) x y b) gs)
    else
      (* Rule 6 *)
      let a_wins :=
        if bool_decide (piece a = Rock) && bool_decide (piece b = Scissors)
        then true
        else if bool_decide (piece a = Scissors) && bool_decide (piece b = Paper)
        then true
        else if bool_decide (piece a = Paper) && bool_decide (piece b = Rock)
        then true
        else false in
      if a_wins then
        let loser := owner b in
        record_loss loser (set_grid (set_at (grid gs) nx ny a) gs)
      else
        let loser := owner a in
        record_loss loser (set_grid (set_at (grid gs) x y b) gs)
  else gs.

(** ** [resolve_pairs]

    One turn of the loop is [pair_attempt]: [pick_pair] makes its three
    draws, [count_pair] classifies the pair on the cells as they are before
    the duel, and [resolve_pair] fights the duel. *)
Definition pick_pair (gs : GameState) : Z * Z * Z * Z * GameState :=
  let '(r1, gs) := rngu gs in
  let r1 := u16 r1 in
  let '(r2, gs) := rngu gs in
  let r2 := u16 r2 in
  let x := Z.rem r1 ARENA_W in
  let y := Z.rem r2 ARENA_H in
  let '(r3, gs) := rngu gs in
  let r3 := u16 r3 in
  let '(nx, ny) := pick_neighbor x y r3 in
  (x, y, nx, ny, gs).

Definition count_pair (g : list Cell) (x y nx ny : Z) (stats : PairStats)
  : PairStats :=
  if in_bounds nx ny then
    let a := cell_at g x y in
    let b := cell_at g nx ny in
    if bool_decide (kind a = Wall) || bool_decide (kind b = Wall)
       || bool_decide (kind a = Empty) || bool_decide (kind b = Empty)
    then mkPairStats (battles_count stats) (same_player_count stats)
           (wall_empty_count stats + 1)
    else if bool_decide (kind a = Symbol) && bool_decide (kind b = Symbol)
    then
      if v (owner a) =? v (owner b)
      then mkPairStats (battles_count stats) (same_player_count stats + 1)
             (wall_empty_count stats)
      else mkPairStats (battles_count stats + 1) (same_player_count stats)
             (wall_empty_count stats)
    else stats
  else stats.

Definition pair_attempt (st : GameState * PairStats) : GameState * PairStats :=
  let '(gs, stats) := st in
  let '(x, y, nx, ny, gs) := pick_pair gs in
  (resolve_pair gs x y nx ny, count_pair (grid gs) x y nx ny stats).

(** [for (int i = 0; i < count; ++i)]: no iteration when [count <= 0]. *)
Definition resolve_pairs (gs : GameState) (count : Z) : GameState :=
  let '(gs, stats) :=
    Nat.iter (Z.to_nat count) pair_attempt (gs, mkPairStats 0 0 0) in
  set_stats (battles_count stats) count (same_player_count stats)
    (wall_empty_count stats) gs.

(** ** Game flow: [step_fixed] *)

(** [int player_counts[4]] after the scan of the grid. *)
Definition count_symbols (g : list Cell) : list Z :=
  foldl (fun counts y =>
    foldl (fun counts x =>
      let c := cell_at g x y in
      if bool_decide (kind c = Symbol) && (v (owner c) <? 4)
      then alter (fun n => n + 1) (Z.to_nat (v (owner c))) counts
      else counts) counts (seqZ 0 ARENA_W)) [0; 0; 0; 0] (seqZ 0 ARENA_H).

Definition step_fixed (gs : GameState) : GameState :=
  match phase gs with
  | Ready => gs
  | Playing =>
      let gs := set_tick (u16 (tick gs + 1)) gs in
      (* reset tick losses at the start of the tick *)
      let gs := set_players (set_tick_losses 0 <$> players gs) gs in
      (* resolve pairs *)
      let gs := resolve_pairs gs (pairs_per_tick (cfg gs)) in
      (* check win/lose conditions *)
      let player_counts := count_symbols (grid gs) in
      let gs :=
        if (player_counts !!! 0%nat =? 0) && (player_counts !!! 1%nat >? 0)
        then set_phase Lost gs
        else if (player_counts !!! 1%nat =? 0) && (player_counts !!! 0%nat >? 0)
        then set_phase Won gs
        else gs in
      (* run AI updates *)
      foldl (fun gs i => if (i =? 1)%nat then update_albert_ai gs i else gs)
        gs (seq 1 (length (players gs) - 1))
  | Lost | Won | GameWon => gs
  end.

(** ** Commands of the input and tuning layers ([main], [draw_tuning_ui]) *)

(** SPACE pressed. *)
Definition key_space (gs : GameState) : GameState :=
  match phase gs with
  | Ready => set_phase Playing gs
  | Playing =>
      (* rotate player 0's piece *)
      let player := players gs !!! 0%nat in
      let cur := next_piece (current player) in
      let gs :=
        set_players
          (alter (fun p => set_last_rot_tick (tick gs) (set_current cur p))
                 0%nat (players gs)) gs in
      set_grid (repaint (grid gs) 0 cur) gs
  | Won | Lost =>
      (* restart the level *)
      let gs := set_phase Ready gs in
      let gs := set_tick 0 gs in
      let gs := set_players (alter (set_current Rock) 0%nat (players gs)) gs in
      let gs :=
        set_players (alter (set_current Scissors) 1%nat (players gs)) gs in
      let gs :=
        set_players
          ((fun p => set_rot_period 0 (set_last_rot_tick 0 (set_tick_losses 0 p)))
             <$> players gs) gs in
      load_level1 gs
  | GameWon => gs
  end.

(** The button "Force Albert Rotation". *)
Definition force_albert_rotation (gs : GameState) : GameState :=
  if (1 <? length (players gs))%nat then
    let albert := players gs !!! 1%nat in
    let cur := next_piece (current albert) in
    let gs :=
      set_players
        (alter (fun p =>
                  set_rot_period 0 (set_last_rot_tick (tick gs) (set_current cur p)))
               1%nat (players gs)) gs in
    set_grid (repaint (grid gs) 1 cur) gs
  else gs.

(** The button "Reset Albert Timer". *)
Definition reset_albert_timer (gs : GameState) : GameState :=
  if (1 <? length (players gs))%nat then
    set_players (alter (set_rot_period 0) 1%nat (players gs)) gs
  else gs.

(** The button "Reset Albert Config". *)
Definition reset_albert_config (gs : GameState) : GameState :=
  if (1 <? length (players gs))%nat then
    let gs := set_albert_config (mkAlbertConfig 58 43) gs in
    set_players (alter (set_rot_period 0) 1%nat (players gs)) gs
  else gs.

(** What can happen to the state between two frames: a simulation tick, the
    SPACE key, and the widgets of the tuning and debug windows (sliders
    and the checkbox write the value they are given). *)
Inductive Command : Set :=
| Tick
| KeySpace
| ForceAlbertRotation
| ResetAlbertTimer
| ResetAlbertConfig
| ResetToDefault
| SetPairsPerTick (n : Z)
| SetTicksPerSecond (n : Z)
| SetRotationAverage (n : Z)
| SetRotationHalfInterval (n : Z)
| SetUseSystemRng (b : bool).

Definition run_command (gs : GameState) (c : Command) : GameState :=
  match c with
  | Tick => step_fixed gs
  | KeySpace => key_space gs
  | ForceAlbertRotation => force_albert_rotation gs
  | ResetAlbertTimer => reset_albert_timer gs
  | ResetAlbertConfig => reset_albert_config gs
  | ResetToDefault => set_cfg (mkGameConfig 240 15) gs
  | SetPairsPerTick n =>
      set_cfg (mkGameConfig n (ticks_per_second (cfg gs))) gs
  | SetTicksPerSecond n =>
      set_cfg (mkGameConfig (pairs_per_tick (cfg gs)) n) gs
  | SetRotationAverage n =>
      set_albert_config
        (mkAlbertConfig n (rotation_half_interval (albert_config gs))) gs
  | SetRotationHalfInterval n =>
      set_albert_config
        (mkAlbertConfig (rotation_average (albert_config gs)) n) gs
  | SetUseSystemRng b => set_use_system_rng b gs
  end.

Definition run_commands (gs : GameState) (cs : list Command) : GameState :=
  foldl run_command gs cs.

(** The state [main] starts from: two players, Rock against Scissors, the
    default members of [GameState], then [load_level1]. *)
Definition initial_state : GameState :=
  load_level1
    (mkGameState clear (mkGameConfig 240 15) 0 44257
       [mkPlayerState (mkPlayerId 0) Rock 0 0 0 0;
        mkPlayerState (mkPlayerId 1) Scissors 0 0 0 0]
       1 Ready 0 false 0%nat 0 0 0 (mkAlbertConfig 58 43)).

(** ** Vocabulary of the specification

    The definitions below follow the words of the specification; the
    theorems compare them with the functions above. *)

(** Rock beats Scissors, Scissors beats Paper, Paper beats Rock. *)
Definition beats (p q : Piece) : bool :=
  match p, q with
  | Rock, Scissors | Scissors, Paper | Paper, Rock => true
  | _, _ => false
  end.

(** The territory of player [k]: how many Symbol cells it owns. *)
Definition territory (g : list Cell) (k : Z) : Z :=
  Z.of_nat (length (filter (fun c => kind c = Symbol /\ v (owner c) = k) g)).

(** The two transitions of the Playing phase. *)
Definition lost_fires (g : list Cell) : bool :=
  (territory g 0 =? 0) && (territory g 1 >? 0).
Definition won_fires (g : list Cell) : bool :=
  (territory g 1 =? 0) && (territory g 0 >? 0).

(** The steps of a Playing tick, in the order of section 4.4. *)
Definition tick_stage (gs : GameState) : GameState :=
  set_tick (u16 (tick gs + 1)) gs.
Definition reset_stage (gs : GameState) : GameState :=
  set_players (set_tick_losses 0 <$> players gs) gs.
Definition combat_stage (gs : GameState) : GameState :=
  resolve_pairs gs (pairs_per_tick (cfg gs)).
Definition verdict_stage (gs : GameState) : GameState :=
  if lost_fires (grid gs) then set_phase Lost gs
  else if won_fires (grid gs) then set_phase Won gs
  else gs.
Definition ai_stage (gs : GameState) : GameState :=
  if (1 <? length (players gs))%nat then update_albert_ai gs 1 else gs.

(** A Playing tick up to and including the win/loss evaluation. *)
Definition before_ai (gs : GameState) : GameState :=
  verdict_stage (combat_stage (reset_stage (tick_stage gs))).

(** A Playing tick up to and including the Combat Resolver. *)
Definition after_combat (gs : GameState) : GameState :=
  combat_stage (reset_stage (tick_stage gs)).

(** The interval the AI Controller draws from. *)
Definition min_interval (c : AlbertConfig) : Z :=
  Z.max 1 (rotation_average c - rotation_half_interval c).
Definition max_interval (c : AlbertConfig) : Z :=
  rotation_average c + rotation_half_interval c.

(** The owner who loses the duel of a pair, when the pair is a duel (Rules 5
    and 6 of [resolve_pair]); [gs] is the state the duel starts from. *)
Definition duel_loser (gs : GameState) (x y nx ny : Z) : option PlayerId :=
  if negb (in_bounds nx ny) then None else
  let a := cell_at (grid gs) x y in
  let b := cell_at (grid gs) nx ny in
  if bool_decide (kind a = Symbol) && bool_decide (kind b = Symbol) then
    if v (owner a) =? v (owner b) then None
    else if bool_decide (piece a = piece b) then
      if negb (Z.land (u16 (rngu gs).1) 1 =? 0)
      then Some (owner b) else Some (owner a)
    else if beats (piece a) (piece b) then Some (owner b) else Some (owner a)
  else None.

(** The losers of the duels of [n] successive pair attempts, in order. *)
Fixpoint losers (n : nat) (gs : GameState) : list PlayerId :=
  match n with
  | O => []
  | S n =>
      let '(x, y, nx, ny, gs1) := pick_pair gs in
      match duel_loser gs1 x y nx ny with
      | Some l => [l]
      | None => []
      end ++ losers n (resolve_pair gs1 x y nx ny)
  end.

(** How many of these duels player [k] lost: the true loss count. *)
Definition true_losses (k : Z) (ls : list PlayerId) : Z :=
  Z.of_nat (length (filter (fun l => v l = k) ls)).

(** The reload of a finished level: SPACE in Won or Lost. *)
Definition is_restart (gs : GameState) (c : Command) : bool :=
  match c, phase gs with
  | KeySpace, Won | KeySpace, Lost => true
  | _, _ => false
  end.

(** ** Well-formed grids

    The grid has its [ARENA_W * ARENA_H] cells and every stored owner is a
    [uint8_t]. *)
Definition owner_ok (c : Cell) : Prop := 0 <= v (owner c) < 256.

Definition wf_grid (g : list Cell) : Prop :=
  length g = 960%nat /\ Forall owner_ok g.

Definition on_border (x y : Z) : bool :=
  (x =? 0) || (x =? ARENA_W - 1) || (y =? 0) || (y =? ARENA_H - 1).

(** A Playing tick as section 4.4 words it: the AI Controller runs only
    when neither transition fired. *)
Definition tick_as_specified (gs : GameState) : GameState :=
  let gs1 := after_combat gs in
  if lost_fires (grid gs1) then set_phase Lost gs1
  else if won_fires (grid gs1) then set_phase Won gs1
  else ai_stage gs1.

(** ** Vocabulary of the proofs *)

(** What the repaint does to one cell, and the scan to its counters. *)
Definition repaint_cell (pid : Z) (cur : Piece) (c : Cell) : Cell :=
  if bool_decide (kind c = Symbol) && (v (owner c) =? pid)
  then set_piece cur c else c.

Definition count_cell (counts : list Z) (c : Cell) : list Z :=
  if bool_decide (kind c = Symbol) && (v (owner c) <? 4)
  then alter (fun n => n + 1) (Z.to_nat (v (owner c))) counts
  else counts.

Definition owner_okb (c : Cell) : bool :=
  (0 <=? v (owner c)) && (v (owner c) <? 256).

(** [evolves g g']: [g'] has the size of [g], every Wall cell of [g] is
    still there, unchanged, in [g'], and the owners stay [uint8_t]. *)
Definition evolves (g g' : list Cell) : Prop :=
  length g' = length g
  /\ (forall i c, g !! i = Some c -> kind c = Wall -> g' !! i = Some c)
  /\ (Forall owner_ok g -> Forall owner_ok g').

(** [same_setup gs gs']: phase, tick, configuration and number of players
    agree. *)
Definition same_setup (gs gs' : GameState) : Prop :=
  phase gs' = phase gs /\ tick gs' = tick gs /\ cfg gs' = cfg gs
  /\ albert_config gs' = albert_config gs
  /\ use_system_rng gs' = use_system_rng gs
  /\ length (players gs') = length (players gs).

(** The RNG state is a non-zero 16-bit value. *)
Definition rng_ok (gs : GameState) : Prop := 0 < rng16 gs < 65536.

(** The per-tick statistics kept in the state. *)
Definition stats_of (gs : GameState) : Z * Z * Z * Z :=
  (last_battles gs, last_attempts gs, last_same_player gs, last_wall_empty gs).

(** The coordinates of the arena, row by row, and the check that every
    border cell is a Wall. *)
Definition all_coords : list (Z * Z) :=
  seqZ 0 ARENA_H ≫= fun y => (fun x => (x, y)) <$> seqZ 0 ARENA_W.

Definition border_walled (g : list Cell) : bool :=
  forallb (fun p => implb (on_border p.1 p.2)
                      (bool_decide (kind (cell_at g p.1 p.2) = Wall)))
    all_coords.

(** A state whose grid is well formed and walled all around. *)
Definition walled (gs : GameState) : Prop :=
  wf_grid (grid gs) /\ border_walled (grid gs) = true.

(** [record_loss] on the list of players. *)
Definition lose (ps : list PlayerState) (l : PlayerId) : list PlayerState :=
  if v l <? Z.of_nat (length ps)
  then alter (fun p => set_tick_losses (u8 (tick_losses p + 1)) p)
         (Z.to_nat (v l)) ps
  else ps.

(** The level as [load_level1] leaves it, cell by cell: a ring of walls,
    the left half for player 0 with piece [p0], the right half for player 1
    with piece [p1]. *)
Definition level1_cell (p0 p1 : Piece) (n : nat) : Cell :=
  let x := Z.of_nat n mod ARENA_W in
  let y := Z.of_nat n / ARENA_W in
  if on_border x y then mkCell Wall (mkPlayerId 0) Rock
  else if x <? 20 then mkCell Symbol (mkPlayerId 0) p0
  else mkCell Symbol (mkPlayerId 1) p1.

Definition level1_grid (p0 p1 : Piece) : list Cell :=
  level1_cell p0 p1 <$> seq 0 960.

(** ** Sample states *)

(** A system generator whose every output is 0; a run on the LFSR never
    asks it. *)
Definition no_system_draws : nat -> Z := fun _ => 0.

(** The game right after SPACE has started it: the initial state, with its
    grid written cell by cell, in the Playing phase. *)
Definition playing_state : GameState :=
  mkGameState (level1_grid Rock Scissors) (mkGameConfig 240 15) 0 44257
    [mkPlayerState (mkPlayerId 0) Rock 0 0 0 0;
     mkPlayerState (mkPlayerId 1) Scissors 0 0 0 0]
    1 Playing 0 false 0%nat 0 0 0 (mkAlbertConfig 58 43).

(** The same with the system generator switched on. *)
Definition system_rng_state : GameState :=
  set_use_system_rng true playing_state.

(** Player 1 has lost every cell to player 0. *)
Definition conquered_state : GameState :=
  set_grid
    ((fun c => if bool_decide (kind c = Symbol)
               then mkCell Symbol (mkPlayerId 0) Rock else c)
       <$> level1_grid Rock Scissors)
    playing_state.

(** Nobody holds a cell. *)
Definition deserted_state : GameState :=
  set_grid
    ((fun c => if bool_decide (kind c = Symbol) then Cell0 else c)
       <$> level1_grid Rock Scissors)
    playing_state.

(** No pair attempts, the rotation sliders at their lower end, 11 ticks
    played, Albert due to rotate at tick 12. *)
Definition idle_state : GameState :=
  mkGameState (level1_grid Rock Scissors) (mkGameConfig 0 15) 11 22128
    [mkPlayerState (mkPlayerId 0) Rock 0 0 0 0;
     mkPlayerState (mkPlayerId 1) Scissors 0 0 12 0]
    1 Playing 0 false 0%nat 0 0 0 (mkAlbertConfig 10 5).

(** Both sliders of the rotation interval at their upper end, and the LFSR
    one step before the value 4805. *)
Definition wide_state : GameState :=
  set_albert_config (mkAlbertConfig 200 100) (set_rng16 9611 playing_state).

(** Columns of Rock cells of player 0 alternating with columns of Paper
    cells of player 1. *)
Definition striped_grid : list Cell :=
  imap (fun n c =>
          if bool_decide (kind c = Symbol) then
            if Z.odd (Z.of_nat n)
            then mkCell Symbol (mkPlayerId 0) Rock
            else mkCell Symbol (mkPlayerId 1) Paper
          else c) (level1_grid Rock Scissors).

(** A system generator that picks each Rock cell of the striped grid
    once, with its eastern neighbour: attempt [k] draws the column
    [1 + 2 * (k mod 19)], the row [1 + k / 19] and the direction East. *)
Definition crowded_stream (n : nat) : Z :=
  let k := Z.of_nat n / 3 in
  match Z.of_nat n mod 3 with
  | 0 => 1 + 2 * (k mod 19)
  | 1 => 1 + k / 19
  | _ => 1
  end.

(** The striped grid played with that generator, 500 pair attempts per
    tick. *)
Definition crowded_state : GameState :=
  mkGameState striped_grid (mkGameConfig 500 15) 0 44257
    [mkPlayerState (mkPlayerId 0) Rock 0 0 0 0;
     mkPlayerState (mkPlayerId 1) Paper 0 0 0 0]
    1 Playing 0 true 0%nat 0 0 0 (mkAlbertConfig 58 43).

(** ** The tuning window: [draw_tuning_ui]

    What the window computes from the state, apart from the widgets that
    are the commands above. *)

(** The function-static ring buffer [combat_history] and [history_index]. *)
Record CombatHistory : Set := mkCombatHistory {
  combat_history : list Z;
  history_index : Z
}.

(** [static int combat_history[15] = {0}; static int history_index = 0;] *)
Definition CombatHistory0 : CombatHistory := mkCombatHistory (replicate 15 0) 0.

(** One frame: store [gs.last_battles], advance the index.  The index
    never leaves the 15 slots (see [combat_history_window]), so the write
    is always inside the array. *)
Definition update_history (h : CombatHistory) (gs : GameState)
  : CombatHistory :=
  mkCombatHistory
    (<[Z.to_nat (history_index h) := last_battles gs]> (combat_history h))
    (Z.rem (history_index h + 1) 15).

(** [total_combats] after its loop. *)
Definition total_combats (h : CombatHistory) : Z :=
  foldl (fun total i => total + combat_history h !!! i) 0 (seq 0 15).

(** The number shown after "Next rotation in". *)
Definition next_rotation_in (gs : GameState) : Z :=
  let albert := players gs !!! 1%nat in
  if rot_period albert >? 0
  then rot_period albert - (tick gs - last_rot_tick albert)
  else 0.

(** ** More vocabulary of the proofs *)

(** How many cells of a grid have kind [k]. *)
Definition census (k : CellKind) (g : list Cell) : Z :=
  Z.of_nat (length (filter (fun c => kind c = k) g)).

(** The three counters of [resolve_pairs] added up. *)
Definition counted (stats : PairStats) : Z :=
  battles_count stats + same_player_count stats + wall_empty_count stats.

(** A cell that shows the current piece of its owner, one of the two
    players of the level. *)
Definition synced (ps : list PlayerState) (c : Cell) : Prop :=
  kind c = Symbol ->
  (owner c = mkPlayerId 0 /\ piece c = current (ps !!! 0%nat))
  \/ (owner c = mkPlayerId 1 /\ piece c = current (ps !!! 1%nat)).

(** The members of [PlayerState] that no function writes. *)
Definition badge (p : PlayerState) : PlayerId * Z := (id p, accel_ctr p).

(** The kinds of the level: walls all around, Symbol cells inside. *)
Definition level1_kinds : list CellKind := kind <$> level1_grid Rock Scissors.

(** What holds of every state of a game: the two players keep their ids
    (and the unused [accel_ctr] its 0), the cells keep the kinds of the
    level, and every Symbol cell is [synced]. *)
Definition level_inv_on (ps : list PlayerState) (g : list Cell) : Prop :=
  badge <$> ps = [(mkPlayerId 0, 0); (mkPlayerId 1, 0)]
  /\ kind <$> g = level1_kinds
  /\ Forall (synced ps) g.

Definition level_inv (gs : GameState) : Prop :=
  level_inv_on (players gs) (grid gs).

(** The step before [lfsr16_step]: shift left, and put back at bit 0 the
    bit that was shifted out. *)
Definition lfsr16_unstep (s : Z) : Z :=
  let bit :=
    Z.land (Z.lxor (Z.lxor (Z.lxor (Z.shiftr s 15) (Z.shiftr s 1))
                      (Z.shiftr s 2)) (Z.shiftr s 4)) 1 in
  Z.lor (u16 (Z.shiftl s 1)) bit.

(** One step of the LFSR that also counts the returns to the seed. *)
Definition watch (p : Z * Z) : Z * Z :=
  let s := lfsr16_step p.1 in (s, if s =? 44257 then p.2 + 1 else p.2).

(** The last [n] values of a list of recorded values, oldest first, with
    zeros in front when fewer than [n] were recorded. *)
Definition last_values (n : nat) (vs : list Z) : list Z :=
  drop (length vs) (replicate n 0 ++ vs).

(** The sum of a list of integers. *)
Definition sum_list (l : list Z) : Z := foldr Z.add 0 l.

(** The generator not in use is at rest: with the system generator
    switched on ([u] true) the LFSR state is [r], with the LFSR in use the
    system generator has been asked [n] times. *)
Definition rng_idle (u : bool) (r : Z) (n : nat) (gs : GameState) : Prop :=
  use_system_rng gs = u
  /\ (u = true -> rng16 gs = r) /\ (u = false -> gen_calls gs = n).

(** Every Symbol cell of the grid belongs to player [k]. *)
Definition sole_owner (k : Z) (g : list Cell) : Prop :=
  Forall (fun c => kind c = Symbol -> v (owner c) = k) g.

(** The phase agrees with the board: a level that is Won has no cell of
    player 1 left, a level that is Lost none of player 0, and before the
    end both players hold cells. *)
Definition verdict_ok (gs : GameState) : Prop :=
  match phase gs with
  | Won => territory (grid gs) 1 = 0
  | Lost => territory (grid gs) 0 = 0
  | Ready | Playing => 0 < territory (grid gs) 0 /\ 0 < territory (grid gs) 1
  | GameWon => False
  end.

(** ** More sample states *)

(** The fresh level with the cell (5,5) emptied. *)
Definition holed_state : GameState :=
  set_grid (set_at (level1_grid Rock Scissors) 5 5 Cell0) playing_state.

(** Both players show Rock. *)
Definition mirror_state : GameState :=
  mkGameState (level1_grid Rock Rock) (mkGameConfig 240 15) 0 44257
    [mkPlayerState (mkPlayerId 0) Rock 0 0 0 0;
     mkPlayerState (mkPlayerId 1) Rock 0 0 0 0]
    1 Playing 0 false 0%nat 0 0 0 (mkAlbertConfig 58 43).

(** The conquered board once the tick has declared it Won. *)
Definition won_state : GameState := set_phase Won conquered_state.

(** Six ticks before the tick counter wraps; Albert rotated at tick 65500
    and drew an interval of 50 ticks. *)
Definition late_state : GameState :=
  mkGameState (level1_grid Rock Scissors) (mkGameConfig 240 15) 65530 44257
    [mkPlayerState (mkPlayerId 0) Rock 0 0 0 0;
     mkPlayerState (mkPlayerId 1) Scissors 65500 0 50 0]
    1 Playing 0 false 0%nat 0 0 0 (mkAlbertConfig 58 43).

(** * Properties *)

(** ** Arithmetic of the fixed-width stores *)

Lemma u8_range z : 0 <= u8 z < 256.
Proof. unfold u8. apply Z.mod_pos_bound. lia. Qed.

Lemma u8_small z : 0 <= z < 256 -> u8 z = z.
Proof. intros. unfold u8. apply Z.mod_small. lia. Qed.

Lemma u16_range z : 0 <= u16 z < 65536.
Proof. unfold u16. apply Z.mod_pos_bound. lia. Qed.

Lemma u16_small z : 0 <= z < 65536 -> u16 z = z.
Proof. intros. unfold u16. apply Z.mod_small. lia. Qed.

Lemma u8_succ_u8 a n : u8 (u8 (a + 1) + n) = u8 (a + (n + 1)).
Proof.
  unfold u8. rewrite Zplus_mod_idemp_l. f_equal. lia.
Qed.

Lemma land_1_cases z : Z.land z 1 = 0 \/ Z.land z 1 = 1.
Proof.
  replace (Z.land z 1) with (z mod 2).
  - pose proof (Z.mod_pos_bound z 2). lia.
  - symmetry. apply (Z.land_ones z 1). lia.
Qed.

(** ** The LFSR *)

Lemma lfsr16_step_range s : 0 <= lfsr16_step s < 65536.
Proof. apply u16_range. Qed.

Lemma lfsr16_step_nonzero s : 0 < s < 65536 -> lfsr16_step s <> 0.
Proof.
  intros Hs H. unfold lfsr16_step, u16 in H.
  destruct (land_1_cases
              (Z.lxor (Z.lxor (Z.lxor (Z.shiftr s 0) (Z.shiftr s 2))
                         (Z.shiftr s 3)) (Z.shiftr s 5))) as [Hb | Hb].
  - (* feedback bit 0: the shifted state is 0, so s = 1, whose bit is 1 *)
    rewrite Hb, Z.shiftl_0_l, Z.lor_0_r, Z.shiftr_div_pow2 in H by lia.
    change (2 ^ 1) with 2 in H.
    rewrite Z.mod_small in H
      by (split; [apply Z.div_pos | apply Z.div_lt_upper_bound]; lia).
    assert (s = 1)
      by (pose proof (Z.div_mod s 2); pose proof (Z.mod_pos_bound s 2); lia).
    subst s. vm_compute in Hb. discriminate.
  - (* feedback bit 1: bit 15 of the new state is set *)
    rewrite Hb in H.
    apply (f_equal (fun z => Z.testbit z 15)) in H.
    change 65536 with (2 ^ 16) in H.
    rewrite Z.mod_pow2_bits_low, Z.lor_spec, Z.bits_0 in H by lia.
    replace (Z.testbit (Z.shiftl 1 15) 15) with true in H by reflexivity.
    rewrite orb_true_r in H. discriminate.
Qed.

(** ** Coordinates and cells *)

Lemma in_bounds_spec x y :
  in_bounds x y = true <-> 0 <= x < ARENA_W /\ 0 <= y < ARENA_H.
Proof. unfold in_bounds. rewrite !andb_true_iff. lia. Qed.

Lemma idx_lt x y :
  in_bounds x y = true -> (Z.to_nat (idx x y) < 960)%nat.
Proof. rewrite in_bounds_spec. unfold idx, ARENA_W, ARENA_H. lia. Qed.

Lemma cell_at_set_at_eq g x y c :
  (Z.to_nat (idx x y) < length g)%nat -> cell_at (set_at g x y c) x y = c.
Proof.
  intros H. unfold cell_at, set_at. by rewrite list_lookup_total_insert_eq.
Qed.

Lemma cell_at_set_at_ne g x y x' y' c :
  Z.to_nat (idx x y) <> Z.to_nat (idx x' y') ->
  cell_at (set_at g x y c) x' y' = cell_at g x' y'.
Proof.
  intros H. unfold cell_at, set_at. by rewrite list_lookup_total_insert_ne.
Qed.

Lemma set_at_self g x y : set_at g x y (cell_at g x y) = g.
Proof.
  unfold set_at, cell_at. apply list_insert_id'. intros H.
  by apply list_lookup_lookup_total_lt.
Qed.

(** ** What a draw leaves alone *)

Lemma rngu_frame gs :
  grid (rngu gs).2 = grid gs /\ players (rngu gs).2 = players gs
  /\ phase (rngu gs).2 = phase gs /\ tick (rngu gs).2 = tick gs
  /\ cfg (rngu gs).2 = cfg gs
  /\ albert_config (rngu gs).2 = albert_config gs
  /\ use_system_rng (rngu gs).2 = use_system_rng gs.
Proof.
  unfold rngu. destruct (use_system_rng gs) eqn:E; simpl; rewrite ?E; tauto.
Qed.

Lemma rngu_stats gs :
  last_battles (rngu gs).2 = last_battles gs
  /\ last_attempts (rngu gs).2 = last_attempts gs
  /\ last_same_player (rngu gs).2 = last_same_player gs
  /\ last_wall_empty (rngu gs).2 = last_wall_empty gs.
Proof. unfold rngu. destruct (use_system_rng gs); simpl; tauto. Qed.


Lemma pick_pair_frame gs x y nx ny gs1 :
  pick_pair gs = (x, y, nx, ny, gs1) ->
  in_bounds x y = true
  /\ grid gs1 = grid gs /\ players gs1 = players gs /\ phase gs1 = phase gs
  /\ tick gs1 = tick gs /\ cfg gs1 = cfg gs
  /\ albert_config gs1 = albert_config gs
  /\ use_system_rng gs1 = use_system_rng gs
  /\ last_battles gs1 = last_battles gs
  /\ last_attempts gs1 = last_attempts gs
  /\ last_same_player gs1 = last_same_player gs
  /\ last_wall_empty gs1 = last_wall_empty gs.
Proof.
  unfold pick_pair.
  pose proof (rngu_frame gs) as F1. pose proof (rngu_stats gs) as S1.
  destruct (rngu gs) as [r1 g1]; simpl in F1, S1.
  pose proof (rngu_frame g1) as F2. pose proof (rngu_stats g1) as S2.
  destruct (rngu g1) as [r2 g2]; simpl in F2, S2.
  pose proof (rngu_frame g2) as F3. pose proof (rngu_stats g2) as S3.
  destruct (rngu g2) as [r3 g3]; simpl in F3, S3.
  destruct (pick_neighbor _ _ _) as [nx' ny'].
  intros [= <- <- <- <- <-].
  split.
  - apply in_bounds_spec. unfold ARENA_W, ARENA_H.
    pose proof (u16_range r1). pose proof (u16_range r2).
    pose proof (Z.rem_bound_pos (u16 r1) 40).
    pose proof (Z.rem_bound_pos (u16 r2) 24). lia.
  - intuition congruence.
Qed.

(** ** The Combat Resolver: one pair *)

(** C8.  A pair attempt whose neighbour lies outside the grid is dropped:
    [resolve_pair] returns the state it was given, and the whole attempt
    leaves the grid, the players, the three counters of the loop and the
    statistics stored in the state as they were (only the three draws of
    the attempt have been consumed). *)
Theorem out_of_grid_attempt_discarded gs stats x y nx ny gs1 :
  pick_pair gs = (x, y, nx, ny, gs1) ->
  in_bounds nx ny = false ->
  resolve_pair gs1 x y nx ny = gs1
  /\ pair_attempt (gs, stats) = (gs1, stats)
  /\ grid gs1 = grid gs /\ players gs1 = players gs
  /\ last_battles gs1 = last_battles gs
  /\ last_same_player gs1 = last_same_player gs
  /\ last_wall_empty gs1 = last_wall_empty gs
  /\ last_attempts gs1 = last_attempts gs.
Proof.
  intros Hp Hout.
  assert (Hr : resolve_pair gs1 x y nx ny = gs1).
  { unfold resolve_pair. by rewrite Hout. }
  split; [exact Hr |]. split.
  - unfold pair_attempt. rewrite Hp, Hr. unfold count_pair. by rewrite Hout.
  - apply pick_pair_frame in Hp. intuition congruence.
Qed.

Lemma record_loss_grid l gs : grid (record_loss l gs) = grid gs.
Proof. unfold record_loss. by case_match. Qed.

Lemma record_loss_lookup l gs k :
  0 <= v l < Z.of_nat (length (players gs)) ->
  players (record_loss l gs) !! k =
    if decide (k = Z.to_nat (v l))
    then (fun p => set_tick_losses (u8 (tick_losses p + 1)) p)
           <$> players gs !! k
    else players gs !! k.
Proof.
  intros H. unfold record_loss.
  destruct (Z.ltb_spec (v l) (Z.of_nat (length (players gs)))); [| lia].
  simpl. case_decide; subst.
  - by rewrite list_lookup_alter_eq.
  - by rewrite list_lookup_alter_ne.
Qed.

Lemma record_loss_loser l gs :
  0 <= v l < Z.of_nat (length (players gs)) ->
  tick_losses (players (record_loss l gs) !!! Z.to_nat (v l))
  = u8 (tick_losses (players gs !!! Z.to_nat (v l)) + 1).
Proof.
  intros H.
  destruct (lookup_lt_is_Some_2 (players gs) (Z.to_nat (v l))) as [p Hp];
    [lia |].
  rewrite (list_lookup_total_correct _ _ _ Hp).
  rewrite (list_lookup_total_correct _ _
             (set_tick_losses (u8 (tick_losses p + 1)) p)); [done |].
  by rewrite record_loss_lookup, decide_True, Hp.
Qed.

Lemma beats_asym p q : p <> q -> beats p q = negb (beats q p).
Proof. destruct p, q; simpl; congruence. Qed.

(** Rule 6 of [resolve_pair] decides by [beats]. *)
Lemma a_wins_beats (p q : Piece) :
  (if bool_decide (p = Rock) && bool_decide (q = Scissors) then true
   else if bool_decide (p = Scissors) && bool_decide (q = Paper) then true
   else if bool_decide (p = Paper) && bool_decide (q = Rock) then true
   else false) = beats p q.
Proof. by destruct p, q. Qed.

(** The duel of two Symbol cells of different owners and different pieces,
    as [resolve_pair] computes it. *)
Lemma resolve_pair_rule6 gs x y nx ny :
  let a := cell_at (grid gs) x y in
  let b := cell_at (grid gs) nx ny in
  in_bounds nx ny = true ->
  kind a = Symbol -> kind b = Symbol ->
  v (owner a) <> v (owner b) -> piece a <> piece b ->
  resolve_pair gs x y nx ny =
    if beats (piece a) (piece b)
    then record_loss (owner b) (set_grid (set_at (grid gs) nx ny a) gs)
    else record_loss (owner a) (set_grid (set_at (grid gs) x y b) gs).
Proof.
  intros a b Hn Ha Hb Hown Hpc. unfold resolve_pair.
  rewrite Hn. fold a b. rewrite a_wins_beats, Ha, Hb. simpl.
  destruct (Z.eqb_spec (v (owner a)) (v (owner b))); [done |].
  by rewrite bool_decide_eq_false_2.
Qed.

(** C7.  Two Symbol cells of different players holding different pieces:
    the winner is the cell whose piece beats the other's (Rock over
    Scissors, Scissors over Paper, Paper over Rock) and never the cell whose
    piece is beaten; afterwards both positions hold the winner's cell, no
    other cell has changed, the losing player's [tick_losses] has gone up by
    one (in its 8 bits) and no other player's record has changed. *)
Theorem rock_paper_scissors_duel gs x y nx ny :
  let a := cell_at (grid gs) x y in
  let b := cell_at (grid gs) nx ny in
  let gs' := resolve_pair gs x y nx ny in
  length (grid gs) = 960%nat ->
  in_bounds x y = true -> in_bounds nx ny = true ->
  kind a = Symbol -> kind b = Symbol ->
  v (owner a) <> v (owner b) -> piece a <> piece b ->
  0 <= v (owner a) < Z.of_nat (length (players gs)) ->
  0 <= v (owner b) < Z.of_nat (length (players gs)) ->
  exists winner loser,
    ((winner, loser) = (a, b) \/ (winner, loser) = (b, a))
    /\ beats (piece winner) (piece loser) = true
    /\ beats (piece loser) (piece winner) = false
    /\ cell_at (grid gs') x y = winner
    /\ cell_at (grid gs') nx ny = winner
    /\ (forall i, i <> Z.to_nat (idx x y) -> i <> Z.to_nat (idx nx ny) ->
         grid gs' !! i = grid gs !! i)
    /\ tick_losses (players gs' !!! Z.to_nat (v (owner loser)))
        = u8 (tick_losses (players gs !!! Z.to_nat (v (owner loser))) + 1)
    /\ (forall k, k <> Z.to_nat (v (owner loser)) ->
         players gs' !! k = players gs !! k).
Proof.
  intros a b gs' Hlen Hxy Hn Ha Hb Hown Hpc Hoa Hob.
  assert (Hia := idx_lt _ _ Hxy). assert (Hib := idx_lt _ _ Hn).
  assert (Hne : Z.to_nat (idx x y) <> Z.to_nat (idx nx ny)).
  { intros E. apply Hown. subst a b. unfold cell_at. by rewrite E. }
  subst gs'. rewrite resolve_pair_rule6 by done. fold a b.
  pose proof (beats_asym (piece a) (piece b) Hpc) as Hasym.
  destruct (beats (piece a) (piece b)) eqn:Hab.
  - exists a, b. rewrite record_loss_grid. simpl.
    split_and!; [by left | done | by destruct (beats (piece b) (piece a))
                | | | | |].
    + by rewrite cell_at_set_at_ne.
    + rewrite cell_at_set_at_eq; [done | lia].
    + intros i _ Hi. unfold set_at. by rewrite list_lookup_insert_ne.
    + by rewrite record_loss_loser.
    + intros k Hk. by rewrite record_loss_lookup, decide_False.
  - exists b, a. rewrite record_loss_grid. simpl.
    split_and!; [by right | by destruct (beats (piece b) (piece a)) | done
                | | | | |].
    + rewrite cell_at_set_at_eq; [done | lia].
    + by rewrite cell_at_set_at_ne.
    + intros i Hi _. unfold set_at. by rewrite list_lookup_insert_ne.
    + by rewrite record_loss_loser.
    + intros k Hk. by rewrite record_loss_lookup, decide_False.
Qed.

(** What [resolve_pair] can do to the grid: nothing, or one of the two
    copies.  A copy is taken from a Symbol cell, never lands on a Wall and
    is made between two different cell values. *)
Lemma resolve_pair_grid_cases gs x y nx ny :
  let a := cell_at (grid gs) x y in
  let b := cell_at (grid gs) nx ny in
  let g' := grid (resolve_pair gs x y nx ny) in
  g' = grid gs
  \/ (in_bounds nx ny = true /\ kind a = Symbol /\ kind b <> Wall /\ a <> b
      /\ g' = set_at (grid gs) nx ny a)
  \/ (in_bounds nx ny = true /\ kind b = Symbol /\ kind a <> Wall /\ a <> b
      /\ g' = set_at (grid gs) x y b).
Proof.
  intros a b g'. subst g'. unfold resolve_pair. fold a b.
  destruct (in_bounds nx ny) eqn:Hn; simpl; [| by left].
  pose proof (rngu_frame gs) as (Fg & _).
  destruct (rngu gs) as [r gs1]; simpl in Fg.
  repeat (case_bool_decide; simpl); try (by left);
    try destruct (Z.eqb_spec (v (owner a)) (v (owner b)));
    repeat case_match; rewrite ?record_loss_grid; simpl; rewrite ?Fg;
    try (by left);
    try (right; left; split_and!; (done || congruence));
    try (right; right; split_and!; (done || congruence)).
Qed.

Lemma set_at_lookup_total g x y x' y' c :
  (Z.to_nat (idx x' y') < length g)%nat ->
  cell_at (set_at g x y c) x' y' =
    if decide (Z.to_nat (idx x y) = Z.to_nat (idx x' y'))
    then c else cell_at g x' y'.
Proof.
  intros H. unfold cell_at, set_at. case_decide as E.
  - rewrite E. by apply list_lookup_total_insert_eq.
  - by apply list_lookup_total_insert_ne.
Qed.

(** C5.  One pair handed to [resolve_pair] ends in exactly one of three
    ways: the grid is as it was; the neighbour's position has changed and
    now holds the first cell, everything else as it was; or the first
    position has changed and now holds the neighbour's cell, everything else
    as it was.  A copy writes the whole cell (kind, owner and piece), so
    each of the two positions ends up holding one of the two cells the pair
    started with, and no other cell is touched. *)
Theorem duel_conservation gs x y nx ny :
  let g := grid gs in
  let a := cell_at g x y in
  let b := cell_at g nx ny in
  let g' := grid (resolve_pair gs x y nx ny) in
  let unchanged := g' = g in
  let b_copies_a := g' <> g /\ g' = set_at g nx ny a in
  let a_copies_b := g' <> g /\ g' = set_at g x y b in
  length g = 960%nat -> in_bounds x y = true ->
  ((unchanged /\ ~ b_copies_a /\ ~ a_copies_b)
   \/ (~ unchanged /\ b_copies_a /\ ~ a_copies_b)
   \/ (~ unchanged /\ ~ b_copies_a /\ a_copies_b))
  /\ (cell_at g' x y = a \/ cell_at g' x y = b)
  /\ (cell_at g' nx ny = a \/ cell_at g' nx ny = b)
  /\ (forall i, i <> Z.to_nat (idx x y) -> i <> Z.to_nat (idx nx ny) ->
       g' !! i = g !! i)
  /\ length g' = length g.
Proof.
  intros g a b g' unchanged b_copies_a a_copies_b Hlen Hxy.
  assert (Hia := idx_lt _ _ Hxy).
  destruct (resolve_pair_grid_cases gs x y nx ny)
    as [H | [(Hn & Hka & Hkb & Hab & H) | (Hn & Hkb & Hka & Hab & H)]];
    fold g in H; fold a b g' in H; try fold g in Hab; try fold a b in Hab.
  - (* nothing happened *)
    split_and!.
    + left. unfold unchanged, b_copies_a, a_copies_b. tauto.
    + left. by rewrite H.
    + right. by rewrite H.
    + intros. by rewrite H.
    + by rewrite H.
  - (* the neighbour's position takes the first cell *)
    assert (Hib := idx_lt _ _ Hn).
    assert (Hnb : cell_at g' nx ny = a)
      by (rewrite H; apply cell_at_set_at_eq; lia).
    assert (Hxa : cell_at g' x y = a).
    { rewrite H, set_at_lookup_total by lia. by case_decide. }
    assert (Hch : g' <> g) by (intros E; rewrite E in Hnb; by apply Hab).
    split_and!.
    + right; left. unfold unchanged, b_copies_a, a_copies_b.
      split; [done |]. split; [by split |]. intros [_ E]. apply Hab.
      rewrite <- Hxa, E. apply cell_at_set_at_eq. lia.
    + by left.
    + by left.
    + intros i _ Hi. rewrite H. unfold set_at.
      by rewrite list_lookup_insert_ne.
    + rewrite H. unfold set_at. by rewrite length_insert.
  - (* the first position takes the neighbour's cell *)
    assert (Hib := idx_lt _ _ Hn).
    assert (Hxb : cell_at g' x y = b)
      by (rewrite H; apply cell_at_set_at_eq; lia).
    assert (Hnb : cell_at g' nx ny = b).
    { rewrite H, set_at_lookup_total by lia. by case_decide. }
    assert (Hch : g' <> g) by (intros E; rewrite E in Hxb; by apply Hab).
    split_and!.
    + right; right. unfold unchanged, b_copies_a, a_copies_b.
      split; [done |]. split; [| by split]. intros [_ E]. apply Hab.
      rewrite <- Hnb, E. symmetry. apply cell_at_set_at_eq. lia.
    + by right.
    + by right.
    + intros i Hi _. rewrite H. unfold set_at.
      by rewrite list_lookup_insert_ne.
    + rewrite H. unfold set_at. by rewrite length_insert.
Qed.

(** ** The loops over the grid

    Every scan of the grid in the source runs over the rows and, inside, over
    the columns, and touches the cell of linear index [idx x y]: such a loop
    is one pass over the indices 0 .. 959 in order. *)

Lemma foldl_nested {A B C} (F : A -> B -> C -> A) (xs : list B) (ys : list C)
    (a : A) :
  foldl (fun a y => foldl (fun a x => F a x y) a xs) a ys
  = foldl (fun a p => F a p.1 p.2) a
      (ys ≫= fun y => (fun x => (x, y)) <$> xs).
Proof.
  revert a. induction ys as [| y ys IH]; intros a; simpl; [done |].
  by rewrite foldl_app, IH, foldl_fmap.
Qed.

Lemma grid_loop {A} (G : A -> nat -> A) (a : A) :
  foldl (fun a y =>
           foldl (fun a x => G a (Z.to_nat (idx x y))) a (seqZ 0 ARENA_W))
        a (seqZ 0 ARENA_H)
  = foldl G a (seq 0 960).
Proof.
  rewrite (foldl_nested (fun a x y => G a (Z.to_nat (idx x y)))).
  rewrite <- (foldl_fmap G a _ (fun p => Z.to_nat (idx p.1 p.2))).
  f_equal.
Qed.

(** A loop that rewrites the cell of each index by [f] maps [f] over the
    grid. *)
Lemma pointwise_loop (f : Cell -> Cell) (g : list Cell) (n : nat) :
  (n <= length g)%nat ->
  foldl (fun g n => <[n := f (g !!! n)]> g) g (seq 0 n)
  = (f <$> take n g) ++ drop n g.
Proof.
  induction n as [| n IH]; intros Hn; [by rewrite take_0, drop_0 |].
  rewrite seq_S, foldl_app, IH by lia. simpl.
  destruct (lookup_lt_is_Some_2 g n) as [c Hc]; [lia |].
  assert (Hl : length (f <$> take n g) = n)
    by (rewrite length_fmap, length_take; lia).
  rewrite lookup_total_app_r, Hl, Nat.sub_diag by lia.
  rewrite insert_app_r_alt, Hl, Nat.sub_diag by lia.
  rewrite (drop_S _ _ _ Hc), (take_S_r _ _ _ Hc). simpl.
  by rewrite fmap_app, <- app_assoc.
Qed.

Lemma pointwise_loop_all (f : Cell -> Cell) (g : list Cell) :
  foldl (fun g n => <[n := f (g !!! n)]> g) g (seq 0 (length g)) = f <$> g.
Proof.
  rewrite pointwise_loop by lia.
  by rewrite firstn_all, drop_all, app_nil_r.
Qed.

(** A loop that reads the cell of each index folds over the grid. *)
Lemma reading_loop {A} (S : A -> Cell -> A) (g : list Cell) (a : A) :
  foldl (fun a n => S a (g !!! n)) a (seq 0 (length g)) = foldl S a g.
Proof.
  rewrite <- (foldl_fmap S a (seq 0 (length g)) (fun n => g !!! n)).
  f_equal. apply list_eq. intros i.
  rewrite list_lookup_fmap.
  destruct (decide (i < length g)%nat) as [Hi | Hi].
  - rewrite lookup_seq_lt by done. simpl.
    by rewrite list_lookup_lookup_total_lt.
  - rewrite lookup_seq_ge, lookup_ge_None_2 by lia. done.
Qed.

Lemma foldl_ext {A B} (f1 f2 : A -> B -> A) (l : list B) (a : A) :
  (forall a b, f1 a b = f2 a b) -> foldl f1 a l = foldl f2 a l.
Proof.
  intros H. revert a. induction l as [| b l IH]; intros a; simpl; [done |].
  by rewrite H, IH.
Qed.

(** *** The repaint *)

Lemma repaint_fmap g pid cur :
  length g = 960%nat -> repaint g pid cur = repaint_cell pid cur <$> g.
Proof.
  intros Hlen. unfold repaint, cell_at, set_at. cbv zeta.
  etrans; [exact (grid_loop (fun (g : list Cell) (n : nat) =>
    if bool_decide (kind (g !!! n) = Symbol) && (v (owner (g !!! n)) =? pid)
    then <[n := set_piece cur (g !!! n)]> g else g) g) |].
  rewrite <- Hlen, <- pointwise_loop_all.
  apply foldl_ext. intros g1 n. unfold repaint_cell.
  destruct (_ && _); [done |].
  symmetry. apply list_insert_id'. intros H.
  by apply list_lookup_lookup_total_lt.
Qed.

(** *** The win/loss scan *)

Lemma count_symbols_foldl g :
  length g = 960%nat -> count_symbols g = foldl count_cell [0; 0; 0; 0] g.
Proof.
  intros Hlen. unfold count_symbols, cell_at. cbv zeta.
  etrans; [exact (grid_loop (fun (counts : list Z) (n : nat) =>
                              count_cell counts (g !!! n)) [0; 0; 0; 0]) |].
  rewrite <- Hlen. apply reading_loop.
Qed.

Lemma territory_cons c g k :
  territory (c :: g) k =
    (if bool_decide (kind c = Symbol /\ v (owner c) = k) then 1 else 0)
    + territory g k.
Proof.
  unfold territory. rewrite filter_cons.
  case_bool_decide; case_decide; try tauto; simpl; lia.
Qed.

Lemma territory_nonneg g k : 0 <= territory g k.
Proof. unfold territory. lia. Qed.

Lemma count_cell_length counts c : length (count_cell counts c) = length counts.
Proof. unfold count_cell. case_match; [apply length_alter | done]. Qed.

Lemma foldl_count_cell g : forall counts (k : nat),
  Forall (fun c => 0 <= v (owner c) < 256) g ->
  (k < 4)%nat -> length counts = 4%nat ->
  foldl count_cell counts g !!! k = counts !!! k + territory g (Z.of_nat k).
Proof.
  induction g as [| c g IH]; intros counts k Hwf Hk Hlen; simpl.
  - unfold territory. simpl. lia.
  - inversion Hwf as [| ? ? Hc Hwf']; subst.
    rewrite IH, territory_cons by (rewrite ?count_cell_length; done).
    unfold count_cell.
    destruct (lookup_lt_is_Some_2 counts k) as [n Hn]; [lia |].
    case_bool_decide as Hs; simpl.
    + destruct (Z.ltb_spec (v (owner c)) 4).
      * rewrite list_lookup_total_alter.
        case_decide as Ek; case_bool_decide as Eo.
        -- destruct Ek as [<- _]. lia.
        -- exfalso. apply Eo. split; [done | lia].
        -- exfalso. apply Ek. destruct Eo as [_ Eo]. lia.
        -- lia.
      * case_bool_decide as Eo; lia.
    + case_bool_decide as Eo; [tauto | lia].
Qed.

Lemma count_symbols_territory g (k : nat) :
  wf_grid g -> (k < 4)%nat ->
  count_symbols g !!! k = territory g (Z.of_nat k).
Proof.
  intros [Hlen Hwf] Hk.
  rewrite count_symbols_foldl, foldl_count_cell by done.
  by destruct k as [| [| [| [| k]]]]; [.. | lia].
Qed.

(** ** How the grid evolves

    [evolves g g']: [g'] has the size of [g], every Wall cell of [g] is
    still there, unchanged, in [g'], and the owners stay [uint8_t]. *)

Lemma evolves_refl g : evolves g g.
Proof. by split_and!. Qed.

Lemma evolves_trans g1 g2 g3 : evolves g1 g2 -> evolves g2 g3 -> evolves g1 g3.
Proof.
  intros (L1 & W1 & O1) (L2 & W2 & O2). split_and!.
  - congruence.
  - intros i c Hc Hk. apply W2; [by apply W1 | done].
  - auto.
Qed.

Lemma evolves_eq g g' : g' = g -> evolves g g'.
Proof. intros ->. apply evolves_refl. Qed.

Lemma owner_ok_lookup_total g i : Forall owner_ok g -> owner_ok (g !!! i).
Proof.
  intros H. destruct (decide (i < length g)%nat) as [Hi | Hi].
  - by apply Forall_lookup_total_1.
  - rewrite list_lookup_total_alt, lookup_ge_None_2 by lia.
    simpl. unfold owner_ok. simpl. lia.
Qed.

(** Overwriting a cell that is not a Wall. *)
Lemma evolves_set_at g x y c :
  kind (cell_at g x y) <> Wall -> (Forall owner_ok g -> owner_ok c) ->
  evolves g (set_at g x y c).
Proof.
  intros Hk Hc. unfold set_at. split_and!.
  - apply length_insert.
  - intros i c' Hi Hw.
    destruct (decide (i = Z.to_nat (idx x y))) as [-> | Hne].
    + exfalso. apply Hk. unfold cell_at.
      by rewrite (list_lookup_total_correct _ _ _ Hi).
    + by rewrite list_lookup_insert_ne.
  - intros H. apply Forall_insert; auto.
Qed.

Lemma evolves_repaint g pid cur :
  length g = 960%nat -> evolves g (repaint g pid cur).
Proof.
  intros Hlen. rewrite repaint_fmap by done. split_and!.
  - apply length_fmap.
  - intros i c Hc Hk. rewrite list_lookup_fmap, Hc. simpl.
    unfold repaint_cell. by rewrite Hk.
  - intros H. apply Forall_fmap. revert H. apply List.Forall_impl.
    intros c Hc. unfold repaint_cell, owner_ok in *. simpl.
    by case_match.
Qed.

Lemma evolves_resolve_pair gs x y nx ny :
  evolves (grid gs) (grid (resolve_pair gs x y nx ny)).
Proof.
  destruct (resolve_pair_grid_cases gs x y nx ny)
    as [H | [(Hn & Hka & Hkb & Hab & H) | (Hn & Hkb & Hka & Hab & H)]].
  - by apply evolves_eq.
  - rewrite H. apply evolves_set_at; [done |].
    intros Ho. by apply owner_ok_lookup_total.
  - rewrite H. apply evolves_set_at; [done |].
    intros Ho. by apply owner_ok_lookup_total.
Qed.

(** ** What the operations leave alone *)

Lemma same_setup_refl gs : same_setup gs gs.
Proof. by split_and!. Qed.

Lemma same_setup_trans gs1 gs2 gs3 :
  same_setup gs1 gs2 -> same_setup gs2 gs3 -> same_setup gs1 gs3.
Proof. unfold same_setup. intuition congruence. Qed.

Lemma same_setup_rngu gs : same_setup gs (rngu gs).2.
Proof.
  pose proof (rngu_frame gs). unfold same_setup. intuition congruence.
Qed.

Lemma same_setup_record_loss l gs : same_setup gs (record_loss l gs).
Proof.
  unfold record_loss. case_match; [| apply same_setup_refl].
  split_and!; try done. simpl. apply length_alter.
Qed.

Lemma same_setup_set_grid g gs : same_setup gs (set_grid g gs).
Proof. by split_and!. Qed.

Lemma same_setup_resolve_pair gs x y nx ny :
  same_setup gs (resolve_pair gs x y nx ny).
Proof.
  unfold resolve_pair.
  pose proof (same_setup_rngu gs) as Hr.
  destruct (rngu gs) as [r gs1]; simpl in Hr.
  repeat case_match; subst;
    try apply same_setup_refl; try apply same_setup_set_grid;
    (eapply same_setup_trans; [| apply same_setup_record_loss]);
    (eapply same_setup_trans; [| apply same_setup_set_grid]);
    (exact Hr || apply same_setup_refl).
Qed.

Lemma pair_attempt_inv gs stats :
  evolves (grid gs) (grid (pair_attempt (gs, stats)).1)
  /\ same_setup gs (pair_attempt (gs, stats)).1.
Proof.
  unfold pair_attempt.
  destruct (pick_pair gs) as [[[[x y] nx] ny] gs1] eqn:Hp.
  apply pick_pair_frame in Hp
    as (_ & Hg & Hpl & Hph & Ht & Hc & Ha & Hu & _).
  simpl. split.
  - rewrite <- Hg. apply evolves_resolve_pair.
  - eapply same_setup_trans; [| apply same_setup_resolve_pair].
    unfold same_setup. by rewrite Hpl, Hph, Ht, Hc, Ha, Hu.
Qed.

Lemma iter_pair_attempt_inv n gs stats :
  evolves (grid gs) (grid (Nat.iter n pair_attempt (gs, stats)).1)
  /\ same_setup gs (Nat.iter n pair_attempt (gs, stats)).1.
Proof.
  induction n as [| n [IHe IHs]]; simpl.
  - split; [apply evolves_refl | apply same_setup_refl].
  - destruct (Nat.iter n pair_attempt (gs, stats)) as [gs1 st1].
    destruct (pair_attempt_inv gs1 st1) as [He Hs]. simpl in *. split.
    + by eapply evolves_trans.
    + by eapply same_setup_trans.
Qed.

Lemma resolve_pairs_grid gs n :
  grid (resolve_pairs gs n)
  = grid (Nat.iter (Z.to_nat n) pair_attempt (gs, mkPairStats 0 0 0)).1.
Proof. unfold resolve_pairs. by destruct (Nat.iter _ _ _). Qed.

Lemma resolve_pairs_players gs n :
  players (resolve_pairs gs n)
  = players (Nat.iter (Z.to_nat n) pair_attempt (gs, mkPairStats 0 0 0)).1.
Proof. unfold resolve_pairs. by destruct (Nat.iter _ _ _). Qed.

Lemma resolve_pairs_inv gs n :
  evolves (grid gs) (grid (resolve_pairs gs n))
  /\ same_setup gs (resolve_pairs gs n).
Proof.
  destruct (iter_pair_attempt_inv (Z.to_nat n) gs (mkPairStats 0 0 0))
    as [He Hs].
  split; [by rewrite resolve_pairs_grid |].
  unfold resolve_pairs. by destruct (Nat.iter _ _ _).
Qed.

(** ** The AI Controller *)

Lemma draw_rot_period_eq gs i :
  draw_rot_period gs i =
    set_players
      (alter (set_rot_period
                (u8 (min_interval (albert_config gs)
                     + Z.rem (u16 (rngu gs).1)
                         (max_interval (albert_config gs)
                          - min_interval (albert_config gs) + 1))))
             i (players gs))
      (rngu gs).2.
Proof.
  unfold draw_rot_period, min_interval, max_interval.
  destruct (rngu_frame gs) as (_ & Hp & _ & _ & _ & Ha & _).
  destruct (rngu gs) as [r gs1]. simpl in *. by rewrite Hp, Ha.
Qed.

Lemma tick_losses_alter (f : PlayerState -> PlayerState) (i : nat)
    (ps : list PlayerState) :
  (forall p, tick_losses (f p) = tick_losses p) ->
  tick_losses <$> alter f i ps = tick_losses <$> ps.
Proof.
  intros H. rewrite (list_fmap_alter tick_losses f (fun n => n)).
  - by apply list_alter_id.
  - apply Forall_true. intros p. apply H.
Qed.

Lemma draw_rot_period_inv gs i :
  grid (draw_rot_period gs i) = grid gs
  /\ same_setup gs (draw_rot_period gs i)
  /\ tick_losses <$> players (draw_rot_period gs i)
     = tick_losses <$> players gs.
Proof.
  rewrite draw_rot_period_eq.
  destruct (rngu_frame gs) as (Hg & Hp & Hph & Ht & Hc & Ha & Hu).
  simpl. split_and!.
  - done.
  - unfold same_setup. simpl. by rewrite length_alter, Hph, Ht, Hc, Ha, Hu.
  - by apply tick_losses_alter.
Qed.

Lemma update_albert_ai_inv gs i :
  length (grid gs) = 960%nat ->
  evolves (grid gs) (grid (update_albert_ai gs i))
  /\ same_setup gs (update_albert_ai gs i)
  /\ tick_losses <$> players (update_albert_ai gs i)
     = tick_losses <$> players gs.
Proof.
  intros Hlen. unfold update_albert_ai.
  set (gs1 := if rot_period (players gs !!! i) =? 0
              then draw_rot_period gs i else gs).
  assert (H1 : grid gs1 = grid gs /\ same_setup gs gs1
               /\ tick_losses <$> players gs1 = tick_losses <$> players gs).
  { subst gs1. case_match; [apply draw_rot_period_inv |].
    split_and!; [done | apply same_setup_refl | done]. }
  destruct H1 as (Hg1 & Hs1 & Hl1).
  case_match; [| by rewrite Hg1; split_and!; [apply evolves_refl | |]].
  match goal with |- context [draw_rot_period ?s i] => set (gs2 := s) end.
  destruct (draw_rot_period_inv gs2 i) as (Hg2 & Hs2 & Hl2).
  rewrite Hg2, Hl2. subst gs2. simpl. split_and!.
  - rewrite Hg1. by apply evolves_repaint.
  - eapply same_setup_trans; [exact Hs1 |].
    eapply same_setup_trans; [| exact Hs2].
    unfold same_setup. simpl. by rewrite length_alter.
  - rewrite <- Hl1. by apply tick_losses_alter.
Qed.

Lemma update_albert_ai_grid gs i :
  length (grid gs) = 960%nat ->
  grid (update_albert_ai gs i) = grid gs
  \/ grid (update_albert_ai gs i)
     = repaint_cell (v (id (players gs !!! i)))
         (next_piece (current (players gs !!! i))) <$> grid gs.
Proof.
  intros Hlen. unfold update_albert_ai.
  set (gs1 := if rot_period (players gs !!! i) =? 0
              then draw_rot_period gs i else gs).
  assert (H1 : grid gs1 = grid gs
               /\ id (players gs1 !!! i) = id (players gs !!! i)
               /\ current (players gs1 !!! i) = current (players gs !!! i)).
  { subst gs1. case_match; [| done]. rewrite draw_rot_period_eq. simpl.
    destruct (rngu_frame gs) as (Hg & _). split; [done |].
    rewrite list_lookup_total_alter.
    by case_decide. }
  destruct H1 as (Hg1 & Hi1 & Hc1).
  case_match; [| by left]. right.
  match goal with |- context [draw_rot_period ?s i] => set (gs2 := s) end.
  destruct (draw_rot_period_inv gs2 i) as (Hg2 & _).
  rewrite Hg2. subst gs2. simpl.
  rewrite repaint_fmap, Hg1, Hi1, Hc1 by congruence. done.
Qed.

(** ** The phase machine *)

Lemma ai_loop_rest gs n m :
  (2 <= m)%nat ->
  foldl (fun gs i => if (i =? 1)%nat then update_albert_ai gs i else gs)
    gs (seq m n) = gs.
Proof.
  revert m. induction n as [| n IH]; intros m Hm; simpl; [done |].
  destruct (Nat.eqb_spec m 1); [lia |]. apply IH. lia.
Qed.

(** The loop over the AI players runs Albert, player 1, when there is one,
    and nothing else. *)
Lemma ai_loop gs :
  foldl (fun gs i => if (i =? 1)%nat then update_albert_ai gs i else gs)
    gs (seq 1 (length (players gs) - 1))
  = ai_stage gs.
Proof.
  unfold ai_stage.
  destruct (Nat.ltb_spec 1 (length (players gs))) as [H | H].
  - destruct (length (players gs) - 1)%nat as [| n] eqn:E; [lia |].
    simpl. apply ai_loop_rest. lia.
  - by replace (length (players gs) - 1)%nat with 0%nat by lia.
Qed.

Lemma wf_grid_evolves g g' : evolves g g' -> wf_grid g -> wf_grid g'.
Proof.
  intros (L & _ & O) [Hlen Hwf]. split; [congruence | by apply O].
Qed.

Lemma after_combat_inv gs :
  evolves (grid gs) (grid (after_combat gs))
  /\ phase (after_combat gs) = phase gs
  /\ tick (after_combat gs) = u16 (tick gs + 1)
  /\ cfg (after_combat gs) = cfg gs
  /\ albert_config (after_combat gs) = albert_config gs
  /\ length (players (after_combat gs)) = length (players gs).
Proof.
  unfold after_combat, combat_stage.
  destruct (resolve_pairs_inv (reset_stage (tick_stage gs))
              (pairs_per_tick (cfg (reset_stage (tick_stage gs)))))
    as [He (Hph & Ht & Hc & Ha & _ & Hl)].
  split_and!; try done.
  rewrite Hl. simpl. apply length_fmap.
Qed.

(** The Playing branch of [step_fixed], stage by stage. *)
Lemma step_fixed_stages gs :
  phase gs = Playing -> wf_grid (grid gs) ->
  step_fixed gs
  = ai_stage (verdict_stage (combat_stage (reset_stage (tick_stage gs)))).
Proof.
  intros Hph Hwf. unfold step_fixed. rewrite Hph.
  fold (tick_stage gs). fold (reset_stage (tick_stage gs)).
  fold (combat_stage (reset_stage (tick_stage gs))).
  fold (after_combat gs).
  assert (Hwf' : wf_grid (grid (after_combat gs))).
  { eapply wf_grid_evolves; [apply after_combat_inv | done]. }
  rewrite (count_symbols_territory _ 0), (count_symbols_territory _ 1)
    by (done || lia).
  change (Z.of_nat 0) with 0. change (Z.of_nat 1) with 1.
  fold (lost_fires (grid (after_combat gs))).
  fold (won_fires (grid (after_combat gs))).
  fold (verdict_stage (after_combat gs)).
  apply ai_loop.
Qed.

Lemma ai_stage_inv gs :
  length (grid gs) = 960%nat ->
  evolves (grid gs) (grid (ai_stage gs))
  /\ same_setup gs (ai_stage gs)
  /\ tick_losses <$> players (ai_stage gs) = tick_losses <$> players gs.
Proof.
  intros Hlen. unfold ai_stage. case_match.
  - by apply update_albert_ai_inv.
  - split_and!; [apply evolves_refl | apply same_setup_refl | done].
Qed.

Lemma verdict_stage_phase gs :
  phase gs = Playing ->
  phase (verdict_stage gs) =
    if lost_fires (grid gs) then Lost
    else if won_fires (grid gs) then Won else Playing.
Proof. intros H. unfold verdict_stage. by repeat case_match. Qed.

Lemma verdict_stage_frame gs :
  grid (verdict_stage gs) = grid gs /\ players (verdict_stage gs) = players gs
  /\ tick (verdict_stage gs) = tick gs /\ cfg (verdict_stage gs) = cfg gs
  /\ albert_config (verdict_stage gs) = albert_config gs
  /\ rng16 (verdict_stage gs) = rng16 gs
  /\ last_battles (verdict_stage gs) = last_battles gs
  /\ last_attempts (verdict_stage gs) = last_attempts gs
  /\ last_same_player (verdict_stage gs) = last_same_player gs
  /\ last_wall_empty (verdict_stage gs) = last_wall_empty gs.
Proof. unfold verdict_stage. by repeat case_match. Qed.

Lemma lost_won_exclusive g : lost_fires g && won_fires g = false.
Proof.
  unfold lost_fires, won_fires.
  destruct (Z.eqb_spec (territory g 0) 0), (Z.eqb_spec (territory g 1) 0),
    (Z.gtb_spec (territory g 0) 0), (Z.gtb_spec (territory g 1) 0);
    simpl; try done; lia.
Qed.

Lemma step_fixed_playing gs :
  phase gs = Playing -> wf_grid (grid gs) ->
  step_fixed gs = ai_stage (before_ai gs)
  /\ phase (step_fixed gs) = phase (before_ai gs)
  /\ tick (step_fixed gs) = u16 (tick gs + 1)
  /\ evolves (grid gs) (grid (step_fixed gs))
  /\ cfg (step_fixed gs) = cfg gs
  /\ albert_config (step_fixed gs) = albert_config gs
  /\ length (players (step_fixed gs)) = length (players gs)
  /\ tick_losses <$> players (step_fixed gs)
     = tick_losses <$> players (after_combat gs).
Proof.
  intros Hph Hwf. rewrite step_fixed_stages by done.
  change (ai_stage (verdict_stage (combat_stage (reset_stage (tick_stage gs)))))
    with (ai_stage (before_ai gs)).
  destruct (after_combat_inv gs) as (He & _ & Ht & Hc & Ha & Hl).
  destruct (verdict_stage_frame (after_combat gs))
    as (Hg & Hpv & Htv & Hcv & Hav & _).
  change (verdict_stage (after_combat gs)) with (before_ai gs)
    in Hg, Hpv, Htv, Hcv, Hav.
  destruct (ai_stage_inv (before_ai gs))
    as (Hea & (Hp & Hta & Hca & Haa & _ & Hla) & Hlo).
  { rewrite Hg. destruct He as (-> & _). apply Hwf. }
  split_and!; try congruence.
  eapply evolves_trans; [exact He |]. by rewrite <- Hg.
Qed.

(** C1 (amended).  A tick of the Playing phase performs, in this order: the
    increment of the tick counter, the reset of every player's
    [tick_losses], the Combat Resolver, the scan of the territories with the
    Lost/Won transition, and then the AI Controller for player 1, which runs
    in every such tick, whether or not a transition has just fired; it
    leaves the phase the evaluation has set. *)
Theorem playing_tick_order gs :
  phase gs = Playing -> wf_grid (grid gs) ->
  step_fixed gs
  = ai_stage (verdict_stage (combat_stage (reset_stage (tick_stage gs))))
  /\ phase (step_fixed gs) = phase (before_ai gs)
  /\ tick (step_fixed gs) = u16 (tick gs + 1).
Proof.
  intros Hph Hwf.
  destruct (step_fixed_playing gs Hph Hwf) as (H1 & H2 & H3 & _).
  by split_and!.
Qed.

(** C6.  When the scan of a tick finds no Symbol cell of player 0 and none
    of player 1, neither transition fires and the phase stays Playing.  The
    two transitions never fire on the same evaluation: the tick ends in Lost
    exactly when player 0 has no cell and player 1 has one, in Won exactly
    when player 1 has none and player 0 has one, and in Playing otherwise.
    The counters of the scan are the territories. *)
Theorem double_zero_stays_playing gs :
  let g := grid (after_combat gs) in
  phase gs = Playing -> wf_grid (grid gs) ->
  (territory g 0 = 0 -> territory g 1 = 0 -> phase (step_fixed gs) = Playing)
  /\ lost_fires g && won_fires g = false
  /\ (phase (step_fixed gs) = Lost <-> lost_fires g = true)
  /\ (phase (step_fixed gs) = Won <-> won_fires g = true)
  /\ (phase (step_fixed gs) = Playing
      <-> lost_fires g = false /\ won_fires g = false)
  /\ count_symbols g !!! 0%nat = territory g 0
  /\ count_symbols g !!! 1%nat = territory g 1.
Proof.
  intros g Hph Hwf.
  destruct (step_fixed_playing gs Hph Hwf) as (_ & Hp & _).
  destruct (after_combat_inv gs) as (He & Hpa & _).
  change (before_ai gs) with (verdict_stage (after_combat gs)) in Hp.
  rewrite verdict_stage_phase in Hp by congruence. fold g in Hp.
  pose proof (lost_won_exclusive g) as Hex.
  assert (Hwf' : wf_grid g) by (eapply wf_grid_evolves; done).
  split_and!.
  - intros H0 H1. rewrite Hp. unfold lost_fires, won_fires.
    rewrite H0, H1. done.
  - done.
  - rewrite Hp. destruct (lost_fires g), (won_fires g); simpl in Hex;
      intuition (discriminate || congruence).
  - rewrite Hp. destruct (lost_fires g), (won_fires g); simpl in Hex;
      intuition (discriminate || congruence).
  - rewrite Hp. destruct (lost_fires g), (won_fires g); simpl in Hex;
      intuition (discriminate || congruence).
  - by apply (count_symbols_territory g 0); [| lia].
  - by apply (count_symbols_territory g 1); [| lia].
Qed.

(** ** A tick without pair attempts *)

Lemma draw_rot_period_stats gs i :
  stats_of (draw_rot_period gs i) = stats_of gs.
Proof.
  rewrite draw_rot_period_eq. unfold stats_of. simpl.
  destruct (rngu_stats gs) as (-> & -> & -> & ->). done.
Qed.

Lemma update_albert_ai_stats gs i :
  stats_of (update_albert_ai gs i) = stats_of gs.
Proof.
  unfold update_albert_ai.
  set (gs1 := if rot_period (players gs !!! i) =? 0
              then draw_rot_period gs i else gs).
  assert (H1 : stats_of gs1 = stats_of gs).
  { subst gs1. case_match; [apply draw_rot_period_stats | done]. }
  case_match; [| done]. by rewrite draw_rot_period_stats.
Qed.

Lemma ai_stage_stats gs : stats_of (ai_stage gs) = stats_of gs.
Proof. unfold ai_stage. case_match; [apply update_albert_ai_stats | done]. Qed.

Lemma resolve_pairs_zero gs : resolve_pairs gs 0 = set_stats 0 0 0 0 gs.
Proof. reflexivity. Qed.

Lemma repaint_cell_kind pid cur c : kind (repaint_cell pid cur c) = kind c.
Proof. unfold repaint_cell. by case_match. Qed.

Lemma repaint_cell_owner pid cur c : owner (repaint_cell pid cur c) = owner c.
Proof. unfold repaint_cell. by case_match. Qed.

(** C3 (amended).  With [pairs_per_tick = 0] a Playing tick is the tick
    counter's increment, the reset of every [tick_losses], four statistics
    set to 0, the win/loss evaluation and the AI Controller: the Combat
    Resolver and the evaluation leave the grid as it was, and the grid after
    the tick is the grid before it or, when the AI Controller rotated,
    that grid with the Symbol cells of player 1 repainted with its next
    piece; no cell changes kind or owner, every [tick_losses] is 0, the
    counter has advanced by one and the configuration is unchanged. *)
Theorem idle_combat_tick gs :
  let gs' := step_fixed gs in
  let p1 := players gs !!! 1%nat in
  phase gs = Playing -> wf_grid (grid gs) -> pairs_per_tick (cfg gs) = 0 ->
  gs' = ai_stage (verdict_stage
                    (set_stats 0 0 0 0 (reset_stage (tick_stage gs))))
  /\ grid (before_ai gs) = grid gs
  /\ (grid gs' = grid gs
      \/ grid gs'
         = repaint_cell (v (id p1)) (next_piece (current p1)) <$> grid gs)
  /\ kind <$> grid gs' = kind <$> grid gs
  /\ owner <$> grid gs' = owner <$> grid gs
  /\ tick gs' = u16 (tick gs + 1)
  /\ Forall (fun p => tick_losses p = 0) (players gs')
  /\ stats_of gs' = (0, 0, 0, 0)
  /\ cfg gs' = cfg gs /\ albert_config gs' = albert_config gs.
Proof.
  intros gs' p1 Hph Hwf Hz.
  destruct (step_fixed_playing gs Hph Hwf)
    as (Hs & _ & Ht & _ & Hc & Ha & _ & Hl).
  assert (Hb : before_ai gs
               = verdict_stage
                   (set_stats 0 0 0 0 (reset_stage (tick_stage gs)))).
  { unfold before_ai, combat_stage. simpl. by rewrite Hz. }
  assert (Hac : after_combat gs
               = set_stats 0 0 0 0 (reset_stage (tick_stage gs))).
  { unfold after_combat, combat_stage. simpl. by rewrite Hz. }
  assert (Hg : grid (before_ai gs) = grid gs).
  { rewrite Hb. by destruct (verdict_stage_frame
      (set_stats 0 0 0 0 (reset_stage (tick_stage gs)))) as (-> & _). }
  assert (Hp : players (before_ai gs) = set_tick_losses 0 <$> players gs).
  { rewrite Hb. by destruct (verdict_stage_frame
      (set_stats 0 0 0 0 (reset_stage (tick_stage gs)))) as (_ & -> & _). }
  assert (Hgrid : grid gs' = grid gs
      \/ grid gs'
         = repaint_cell (v (id p1)) (next_piece (current p1)) <$> grid gs).
  { subst gs'. rewrite Hs. unfold ai_stage.
    destruct (Nat.ltb_spec 1 (length (players (before_ai gs)))) as [H1 | H1];
      [| by left].
    destruct (update_albert_ai_grid (before_ai gs) 1) as [E | E].
    - rewrite Hg. apply Hwf.
    - left. congruence.
    - right. rewrite E, Hg, Hp.
      rewrite Hp, length_fmap in H1.
      rewrite (list_lookup_total_fmap (set_tick_losses 0) (players gs) 1)
        by done.
      done. }
  split_and!; try done.
  - subst gs'. by rewrite Hs, Hb.
  - destruct Hgrid as [-> | ->]; [done |].
    rewrite <- list_fmap_compose. apply list_fmap_ext.
    intros i c _. apply repaint_cell_kind.
  - destruct Hgrid as [-> | ->]; [done |].
    rewrite <- list_fmap_compose. apply list_fmap_ext.
    intros i c _. apply repaint_cell_owner.
  - assert (H0 : Forall (fun n => n = 0) (tick_losses <$> players gs')).
    { subst gs'. rewrite Hl, Hac. simpl.
      rewrite <- list_fmap_compose. apply Forall_fmap, Forall_true. done. }
    rewrite Forall_fmap in H0. exact H0.
  - subst gs'. rewrite Hs, ai_stage_stats, Hb. unfold stats_of.
    by destruct (verdict_stage_frame
      (set_stats 0 0 0 0 (reset_stage (tick_stage gs))))
      as (_ & _ & _ & _ & _ & _ & -> & -> & -> & ->).
Qed.

(** ** The walls *)

Lemma all_coords_complete x y :
  in_bounds x y = true -> (x, y) ∈ all_coords.
Proof.
  rewrite in_bounds_spec. intros [Hx Hy]. unfold all_coords.
  apply list_elem_of_bind. exists y. split.
  - apply list_elem_of_fmap. exists x. split; [done |].
    apply elem_of_seqZ. lia.
  - apply elem_of_seqZ. lia.
Qed.

Lemma border_walled_spec g x y :
  border_walled g = true -> in_bounds x y = true -> on_border x y = true ->
  kind (cell_at g x y) = Wall.
Proof.
  unfold border_walled. rewrite forallb_forall. intros H Hb Hbd.
  specialize (H (x, y)). simpl in H. rewrite Hbd in H. simpl in H.
  assert (Hin : In (x, y) all_coords)
    by (apply list_elem_of_In; by apply all_coords_complete).
  apply H in Hin. by apply bool_decide_eq_true in Hin.
Qed.

Lemma owner_okb_Forall g : forallb owner_okb g = true -> Forall owner_ok g.
Proof.
  rewrite forallb_forall, List.Forall_forall. intros H c Hc.
  specialize (H c Hc). unfold owner_okb in H. unfold owner_ok. lia.
Qed.

(** The three loops of [load_level1] build [level1_grid]. *)
Lemma load_level1_level1_grid gs :
  grid (load_level1 gs)
  = level1_grid (current (players gs !!! 0%nat))
      (current (players gs !!! 1%nat)).
Proof.
  unfold load_level1, set_grid. cbn [grid].
  generalize (current (players gs !!! 0%nat)) as p0.
  generalize (current (players gs !!! 1%nat)) as p1.
  intros p1 p0. vm_compute. reflexivity.
Qed.

Lemma level1_grid_walled p0 p1 :
  wf_grid (level1_grid p0 p1) /\ border_walled (level1_grid p0 p1) = true.
Proof.
  unfold wf_grid. split_and!.
  - vm_compute. reflexivity.
  - apply owner_okb_Forall. vm_compute. reflexivity.
  - vm_compute. reflexivity.
Qed.

Lemma load_level1_grid gs :
  wf_grid (grid (load_level1 gs))
  /\ border_walled (grid (load_level1 gs)) = true.
Proof. rewrite load_level1_level1_grid. apply level1_grid_walled. Qed.

Lemma all_coords_sound x y :
  (x, y) ∈ all_coords -> in_bounds x y = true.
Proof.
  unfold all_coords. rewrite list_elem_of_bind.
  intros (y' & Hx & Hy). apply list_elem_of_fmap in Hx as (x' & [= -> ->] & Hx).
  apply elem_of_seqZ in Hx, Hy. apply in_bounds_spec.
  unfold ARENA_W, ARENA_H in *. lia.
Qed.

Lemma border_walled_evolves g g' :
  length g = 960%nat -> evolves g g' ->
  border_walled g = true -> border_walled g' = true.
Proof.
  intros Hlen (_ & Hw & _) H. unfold border_walled in *.
  rewrite forallb_forall in *. intros [x y] Hin. specialize (H _ Hin).
  apply list_elem_of_In, all_coords_sound, idx_lt in Hin.
  cbn [fst snd] in *. destruct (on_border x y); [| done].
  cbn [implb] in *.
  apply bool_decide_eq_true in H. apply bool_decide_eq_true.
  destruct (lookup_lt_is_Some_2 g (Z.to_nat (idx x y))) as [c Hc]; [lia |].
  unfold cell_at in *.
  rewrite (list_lookup_total_correct _ _ _ Hc) in H.
  by rewrite (list_lookup_total_correct _ _ _ (Hw _ _ Hc H)).
Qed.

Lemma load_level1_walled gs : walled (load_level1 gs).
Proof. unfold walled. apply load_level1_grid. Qed.

Lemma step_fixed_evolves gs :
  wf_grid (grid gs) -> evolves (grid gs) (grid (step_fixed gs)).
Proof.
  intros Hwf. destruct (phase gs) eqn:Hph;
    try (unfold step_fixed; rewrite Hph; apply evolves_refl).
  by destruct (step_fixed_playing gs Hph Hwf) as (_ & _ & _ & He & _).
Qed.

Lemma run_command_evolves gs c :
  wf_grid (grid gs) -> is_restart gs c = false ->
  evolves (grid gs) (grid (run_command gs c)).
Proof.
  intros Hwf Hr. destruct c; simpl; try apply evolves_refl.
  - by apply step_fixed_evolves.
  - unfold key_space. unfold is_restart in Hr.
    destruct (phase gs); try discriminate Hr; try apply evolves_refl.
    cbn [grid set_grid]. apply evolves_repaint, Hwf.
  - unfold force_albert_rotation. case_match; [| apply evolves_refl].
    simpl. apply evolves_repaint, Hwf.
  - unfold reset_albert_timer. case_match; apply evolves_refl.
  - unfold reset_albert_config. case_match; apply evolves_refl.
Qed.

Lemma run_command_walled gs c : walled gs -> walled (run_command gs c).
Proof.
  intros [Hwf Hb]. destruct (is_restart gs c) eqn:Hr.
  - destruct c; try discriminate Hr. cbn [run_command]. unfold key_space.
    unfold is_restart in Hr.
    destruct (phase gs); try discriminate Hr; apply load_level1_walled.
  - pose proof (run_command_evolves gs c Hwf Hr) as He. split.
    + by eapply wf_grid_evolves.
    + eapply border_walled_evolves; [apply Hwf | done | done].
Qed.

Lemma run_commands_walled cs : forall gs,
  walled gs -> walled (run_commands gs cs).
Proof.
  induction cs as [| c cs IH]; intros gs H; simpl; [done |].
  apply IH. by apply run_command_walled.
Qed.

(** C4.  A level load leaves a Wall on every cell of the outer border.
    No duel, no tick, no rotation of the human or of the AI, and no command
    other than the reload of a finished level changes a Wall cell: it keeps
    its kind, owner and piece.  So, whatever commands and ticks follow a
    level load, every border cell is a Wall. *)
Theorem border_walls_forever :
  (forall gs x y,
     in_bounds x y = true -> on_border x y = true ->
     kind (cell_at (grid (load_level1 gs)) x y) = Wall)
  /\ (forall gs x y nx ny i cell,
       grid gs !! i = Some cell -> kind cell = Wall ->
       grid (resolve_pair gs x y nx ny) !! i = Some cell)
  /\ (forall gs c i cell,
       wf_grid (grid gs) -> is_restart gs c = false ->
       grid gs !! i = Some cell -> kind cell = Wall ->
       grid (run_command gs c) !! i = Some cell)
  /\ (forall gs cs x y,
       in_bounds x y = true -> on_border x y = true ->
       kind (cell_at (grid (run_commands (load_level1 gs) cs)) x y) = Wall).
Proof.
  split_and!.
  - intros gs x y Hb Hbd.
    exact (border_walled_spec _ x y (proj2 (load_level1_grid gs)) Hb Hbd).
  - intros gs x y nx ny i cell.
    apply (evolves_resolve_pair gs x y nx ny).
  - intros gs c i cell Hwf Hr. by apply run_command_evolves.
  - intros gs cs x y.
    pose proof (run_commands_walled cs _ (load_level1_walled gs)) as [_ H].
    intros Hb Hbd. exact (border_walled_spec _ x y H Hb Hbd).
Qed.

(** ** The loss counters *)

Lemma record_loss_lose l gs : players (record_loss l gs) = lose (players gs) l.
Proof. unfold record_loss, lose. by case_match. Qed.

Lemma length_lose ps l : length (lose ps l) = length ps.
Proof. unfold lose. case_match; [apply length_alter | done]. Qed.

(** [duel_loser] names the player [resolve_pair] charges. *)
Lemma resolve_pair_players gs x y nx ny :
  players (resolve_pair gs x y nx ny) =
    match duel_loser gs x y nx ny with
    | Some l => lose (players gs) l
    | None => players gs
    end.
Proof.
  unfold resolve_pair, duel_loser.
  destruct (in_bounds nx ny); simpl; [| done].
  destruct (rngu_frame gs) as (_ & Hp & _).
  destruct (rngu gs) as [r gs1]; simpl in *.
  rewrite a_wins_beats.
  repeat (case_bool_decide; simpl); try done; try congruence;
    destruct (Z.eqb_spec (v (owner (cell_at (grid gs) x y)))
                (v (owner (cell_at (grid gs) nx ny)))); try done;
    repeat case_match; by rewrite record_loss_lose; simpl; rewrite ?Hp.
Qed.

Lemma duel_loser_ok gs x y nx ny l :
  Forall owner_ok (grid gs) -> duel_loser gs x y nx ny = Some l ->
  0 <= v l < 256.
Proof.
  intros Hwf. unfold duel_loser.
  pose proof (owner_ok_lookup_total (grid gs) (Z.to_nat (idx x y)) Hwf).
  pose proof (owner_ok_lookup_total (grid gs) (Z.to_nat (idx nx ny)) Hwf).
  unfold cell_at.
  repeat case_match; intros [= <-]; done.
Qed.

Lemma iter_pair_attempt_players n : forall gs stats,
  players (Nat.iter n pair_attempt (gs, stats)).1
  = foldl lose (players gs) (losers n gs).
Proof.
  induction n as [| n IH]; intros gs stats; [done |].
  rewrite Nat.iter_succ_r. simpl losers. unfold pair_attempt at 2.
  destruct (pick_pair gs) as [[[[x y] nx] ny] gs1] eqn:Hp.
  apply pick_pair_frame in Hp as (_ & _ & Hpl & _).
  rewrite IH, foldl_app, resolve_pair_players, <- Hpl.
  by destruct (duel_loser gs1 x y nx ny).
Qed.

Lemma losers_ok n : forall gs,
  Forall owner_ok (grid gs) ->
  Forall (fun l => 0 <= v l < 256) (losers n gs).
Proof.
  induction n as [| n IH]; intros gs Hwf; simpl; [constructor |].
  destruct (pick_pair gs) as [[[[x y] nx] ny] gs1] eqn:Hp.
  apply pick_pair_frame in Hp as (_ & Hg & _).
  rewrite <- Hg in Hwf.
  apply Forall_app. split.
  - destruct (duel_loser gs1 x y nx ny) as [l |] eqn:E; [| constructor].
    constructor; [| constructor]. by eapply duel_loser_ok.
  - apply IH. by apply (evolves_resolve_pair gs1 x y nx ny).
Qed.

Lemma true_losses_cons k l ls :
  true_losses k (l :: ls)
  = (if bool_decide (v l = k) then 1 else 0) + true_losses k ls.
Proof.
  unfold true_losses. rewrite filter_cons.
  case_bool_decide; case_decide; try tauto; simpl; lia.
Qed.

Lemma true_losses_nonneg k ls : 0 <= true_losses k ls.
Proof. unfold true_losses. lia. Qed.

(** The counter of player [k] after a run of losses: its 8 bits hold the
    number of its losses modulo 256. *)
Lemma foldl_lose_tick_losses ls : forall ps (k : nat),
  Forall (fun l => 0 <= v l < 256) ls ->
  (k < length ps)%nat -> 0 <= tick_losses (ps !!! k) < 256 ->
  tick_losses (foldl lose ps ls !!! k)
  = u8 (tick_losses (ps !!! k) + true_losses (Z.of_nat k) ls).
Proof.
  induction ls as [| l ls IH]; intros ps k Hok Hk Ht; simpl.
  - unfold true_losses. simpl. rewrite Z.add_0_r. by rewrite u8_small.
  - inversion Hok as [| ? ? Hl Hok']; subst.
    rewrite true_losses_cons.
    assert (Hstep : tick_losses (lose ps l !!! k)
                    = if bool_decide (v l = Z.of_nat k)
                      then u8 (tick_losses (ps !!! k) + 1)
                      else tick_losses (ps !!! k)).
    { unfold lose. destruct (Z.ltb_spec (v l) (Z.of_nat (length ps))).
      - rewrite list_lookup_total_alter.
        case_decide as E; case_bool_decide as E'.
        + destruct E as [<- _]. done.
        + destruct E as [<- _]. lia.
        + exfalso. apply E. split; lia.
        + done.
      - case_bool_decide; [lia | done]. }
    rewrite IH; [| done | by rewrite length_lose |].
    + rewrite Hstep. case_bool_decide.
      * rewrite u8_succ_u8. f_equal. lia.
      * f_equal.
    + rewrite Hstep. case_bool_decide; [apply u8_range | done].
Qed.

Lemma length_foldl_lose ls : forall ps, length (foldl lose ps ls) = length ps.
Proof.
  induction ls as [| l ls IH]; intros ps; simpl; [done |].
  by rewrite IH, length_lose.
Qed.

(** C10.  [tick_losses] is an 8-bit counter: each recorded loss replaces
    it by its successor modulo 256, and at the end of a Playing tick the
    counter of a player is the number of duels the player lost in that tick
    modulo 256.  With more than 255 losses it therefore differs from the
    true count, and it is not a saturated 255 either unless the count is
    255 modulo 256. *)
Theorem tick_losses_wrap gs (k : nat) :
  let ls :=
    losers (Z.to_nat (pairs_per_tick (cfg gs))) (reset_stage (tick_stage gs)) in
  let n := true_losses (Z.of_nat k) ls in
  let counter := tick_losses (players (step_fixed gs) !!! k) in
  phase gs = Playing -> wf_grid (grid gs) -> (k < length (players gs))%nat ->
  (forall l s, 0 <= v l < Z.of_nat (length (players s)) ->
     tick_losses (players (record_loss l s) !!! Z.to_nat (v l))
     = (tick_losses (players s !!! Z.to_nat (v l)) + 1) mod 256)
  /\ counter = n mod 256
  /\ 0 <= counter < 256
  /\ (255 < n -> counter <> n /\ counter = n - 256 * (n / 256)).
Proof.
  intros ls n counter Hph Hwf Hk.
  assert (Hc : counter = n mod 256).
  { subst counter.
    destruct (step_fixed_playing gs Hph Hwf) as (_ & _ & _ & _ & _ & _ & Hl & Ht).
    rewrite <- (list_lookup_total_fmap tick_losses (players (step_fixed gs)) k)
      by lia.
    rewrite Ht.
    unfold after_combat, combat_stage.
    rewrite resolve_pairs_players, iter_pair_attempt_players.
    change (cfg (reset_stage (tick_stage gs))) with (cfg gs). fold ls.
    assert (Hlen : (k < length (players (reset_stage (tick_stage gs))))%nat).
    { simpl. by rewrite length_fmap. }
    assert (Hz : tick_losses (players (reset_stage (tick_stage gs)) !!! k) = 0).
    { simpl. by rewrite (list_lookup_total_fmap (set_tick_losses 0)). }
    rewrite (list_lookup_total_fmap tick_losses
               (foldl lose (players (reset_stage (tick_stage gs))) ls) k)
      by (by rewrite length_foldl_lose).
    rewrite foldl_lose_tick_losses; [| | done | lia].
    - by rewrite Hz.
    - apply losers_ok. simpl. apply Hwf. }
  split; [intros l s Hl; by apply record_loss_loser |].
  split; [done |].
  pose proof (Z.mod_pos_bound n 256). pose proof (Z.div_mod n 256).
  split; [lia |]. intros Hn. split; lia.
Qed.

(** ** The rotation interval *)

(** What [draw_rot_period] stores. *)
Lemma draw_rot_period_stored gs i :
  (i < length (players gs))%nat ->
  rot_period (players (draw_rot_period gs i) !!! i)
  = u8 (min_interval (albert_config gs)
        + Z.rem (u16 (rngu gs).1)
            (max_interval (albert_config gs)
             - min_interval (albert_config gs) + 1)).
Proof.
  intros Hi. rewrite draw_rot_period_eq. simpl.
  rewrite list_lookup_total_alter.
  case_decide as E; [done |]. exfalso. apply E. split; [done | lia].
Qed.

(** The interval bound holds as long as the upper end fits [uint8_t]. *)
Lemma draw_rot_period_in_range gs i :
  (i < length (players gs))%nat ->
  min_interval (albert_config gs) <= max_interval (albert_config gs) <= 255 ->
  min_interval (albert_config gs)
  <= rot_period (players (draw_rot_period gs i) !!! i)
  <= max_interval (albert_config gs).
Proof.
  intros Hi Hr. rewrite draw_rot_period_stored by done.
  pose proof (u16_range (rngu gs).1) as Hu.
  set (lo := min_interval (albert_config gs)) in *.
  set (hi := max_interval (albert_config gs)) in *.
  assert (1 <= lo) by (subst lo; unfold min_interval; lia).
  pose proof (Z.rem_bound_pos (u16 (rngu gs).1) (hi - lo + 1)).
  rewrite u8_small; lia.
Qed.

(** ** The LFSR state along the game *)

Lemma rng_ok_rngu gs : rng_ok gs -> rng_ok (rngu gs).2.
Proof.
  unfold rng_ok, rngu. intros H. destruct (use_system_rng gs); simpl; [done |].
  pose proof (lfsr16_step_range (rng16 gs)).
  pose proof (lfsr16_step_nonzero (rng16 gs) H). lia.
Qed.

Lemma rng16_record_loss l gs : rng16 (record_loss l gs) = rng16 gs.
Proof. unfold record_loss. by case_match. Qed.

Lemma rng_ok_resolve_pair gs x y nx ny :
  rng_ok gs -> rng_ok (resolve_pair gs x y nx ny).
Proof.
  intros H. pose proof (rng_ok_rngu gs H) as Hr.
  unfold resolve_pair. destruct (rngu gs) as [r gs1]. simpl in Hr.
  unfold rng_ok in *.
  repeat case_match; rewrite ?rng16_record_loss; simpl; done.
Qed.

Lemma rng_ok_pick_pair gs x y nx ny gs1 :
  pick_pair gs = (x, y, nx, ny, gs1) -> rng_ok gs -> rng_ok gs1.
Proof.
  unfold pick_pair. intros Hp H.
  pose proof (rng_ok_rngu gs H) as H1.
  destruct (rngu gs) as [r1 g1]; simpl in H1.
  pose proof (rng_ok_rngu g1 H1) as H2.
  destruct (rngu g1) as [r2 g2]; simpl in H2.
  pose proof (rng_ok_rngu g2 H2) as H3.
  destruct (rngu g2) as [r3 g3]; simpl in H3.
  destruct (pick_neighbor _ _ _). by injection Hp as <- <- <- <- <-.
Qed.

Lemma rng_ok_pair_attempt gs stats :
  rng_ok gs -> rng_ok (pair_attempt (gs, stats)).1.
Proof.
  intros H. unfold pair_attempt.
  destruct (pick_pair gs) as [[[[x y] nx] ny] gs1] eqn:Hp. simpl.
  apply rng_ok_resolve_pair. by eapply rng_ok_pick_pair.
Qed.

Lemma rng_ok_resolve_pairs gs n : rng_ok gs -> rng_ok (resolve_pairs gs n).
Proof.
  intros H. unfold resolve_pairs.
  assert (Hi : forall k,
             rng_ok (Nat.iter k pair_attempt (gs, mkPairStats 0 0 0)).1).
  { induction k as [| k IH]; simpl; [done |].
    destruct (Nat.iter k pair_attempt (gs, mkPairStats 0 0 0)) as [g1 s1].
    by apply rng_ok_pair_attempt. }
  specialize (Hi (Z.to_nat n)).
  by destruct (Nat.iter (Z.to_nat n) pair_attempt _).
Qed.

Lemma rng_ok_draw_rot_period gs i : rng_ok gs -> rng_ok (draw_rot_period gs i).
Proof.
  intros H. rewrite draw_rot_period_eq. by apply rng_ok_rngu in H.
Qed.

Lemma rng_ok_update_albert_ai gs i :
  rng_ok gs -> rng_ok (update_albert_ai gs i).
Proof.
  intros H. unfold update_albert_ai.
  set (gs1 := if rot_period (players gs !!! i) =? 0
              then draw_rot_period gs i else gs).
  assert (H1 : rng_ok gs1).
  { subst gs1. case_match; [by apply rng_ok_draw_rot_period | done]. }
  case_match; [| done]. by apply rng_ok_draw_rot_period.
Qed.

Lemma foldl_inv {A B} (P : A -> Prop) (f : A -> B -> A) (l : list B) (a : A) :
  (forall a b, P a -> P (f a b)) -> P a -> P (foldl f a l).
Proof.
  intros Hf. revert a. induction l as [| b l IH]; intros a Ha; simpl; auto.
Qed.

Lemma rng_ok_step_fixed gs : rng_ok gs -> rng_ok (step_fixed gs).
Proof.
  intros H. unfold step_fixed. destruct (phase gs); try done.
  apply foldl_inv.
  - intros a i Ha. case_match; [by apply rng_ok_update_albert_ai | done].
  - match goal with |- context [resolve_pairs ?s ?n] =>
      pose proof (rng_ok_resolve_pairs s n H) as Hr end.
    by repeat case_match.
Qed.

Lemma rng_ok_run_command gs c : rng_ok gs -> rng_ok (run_command gs c).
Proof.
  intros H. destruct c; cbn [run_command]; try done.
  - by apply rng_ok_step_fixed.
  - unfold key_space. by destruct (phase gs).
  - unfold force_albert_rotation. by case_match.
  - unfold reset_albert_timer. by case_match.
  - unfold reset_albert_config. by case_match.
Qed.

Lemma rng_ok_run_commands cs : forall gs,
  rng_ok gs -> rng_ok (run_commands gs cs).
Proof.
  induction cs as [| c cs IH]; intros gs H; simpl; [done |].
  by apply IH, rng_ok_run_command.
Qed.

(** C9.  From a non-zero 16-bit state the LFSR step never reaches the
    all-zero state: the successor of every non-zero state is a non-zero
    16-bit state; so is every state of the stream that starts at the seed
    0xACE1, and so is the RNG state of the game after any commands and
    ticks. *)
Theorem lfsr16_never_zero :
  (forall s, 0 < s < 65536 -> 0 < lfsr16_step s < 65536)
  /\ (forall n, 0 < Nat.iter n lfsr16_step 44257 < 65536)
  /\ (forall cs, 0 < rng16 (run_commands initial_state cs) < 65536).
Proof.
  assert (Hstep : forall s, 0 < s < 65536 -> 0 < lfsr16_step s < 65536).
  { intros s Hs. pose proof (lfsr16_step_range s).
    pose proof (lfsr16_step_nonzero s Hs). lia. }
  split; [exact Hstep |]. split.
  - induction n as [| n IH]; simpl; [lia | by apply Hstep].
  - intros cs. apply (rng_ok_run_commands cs initial_state).
    unfold rng_ok. simpl. lia.
Qed.

Lemma wf_grid_check g :
  (length g =? 960)%nat && forallb owner_okb g = true -> wf_grid g.
Proof.
  rewrite andb_true_iff, Nat.eqb_eq. intros [Hl Ho].
  split; [done |]. by apply owner_okb_Forall.
Qed.

(** ** Neighbour selection *)

Lemma land_3_cases r :
  Z.land r 3 = 0 \/ Z.land r 3 = 1 \/ Z.land r 3 = 2 \/ Z.land r 3 = 3.
Proof.
  replace (Z.land r 3) with (r mod 4).
  - pose proof (Z.mod_pos_bound r 4). lia.
  - symmetry. apply (Z.land_ones r 2). lia.
Qed.

Lemma pick_neighbor_cases x y r :
  pick_neighbor x y r = (x, y - 1) \/ pick_neighbor x y r = (x + 1, y)
  \/ pick_neighbor x y r = (x, y + 1) \/ pick_neighbor x y r = (x - 1, y).
Proof.
  unfold pick_neighbor.
  destruct (land_3_cases r) as [-> | [-> | [-> | ->]]]; auto.
Qed.

Lemma on_border_false x y :
  on_border x y = false <-> x <> 0 /\ x <> 39 /\ y <> 0 /\ y <> 23.
Proof. unfold on_border, ARENA_W, ARENA_H. rewrite !orb_false_iff. lia. Qed.

(** X1.  Whatever value is drawn, [pick_neighbor] returns one of the four
    orthogonal neighbours of the cell: the return of the cell itself after
    the switch is never reached.  The neighbour of a cell off the border
    lies in the grid, and a neighbour in the grid is another cell of the
    array than the cell itself. *)
Theorem pick_neighbor_adjacent x y r :
  let n := pick_neighbor x y r in
  Z.abs (n.1 - x) + Z.abs (n.2 - y) = 1
  /\ (in_bounds x y = true -> on_border x y = false ->
      in_bounds n.1 n.2 = true)
  /\ (in_bounds x y = true -> in_bounds n.1 n.2 = true ->
      Z.to_nat (idx n.1 n.2) <> Z.to_nat (idx x y)).
Proof.
  intros n. subst n.
  rewrite on_border_false, !in_bounds_spec. unfold idx, ARENA_W, ARENA_H.
  destruct (pick_neighbor_cases x y r) as [-> | [-> | [-> | ->]]];
    cbn [fst snd]; lia.
Qed.

(** ** One pair attempt *)

Lemma rngu_draw gs :
  (use_system_rng gs = false ->
   gen_calls (rngu gs).2 = gen_calls gs
   /\ rng16 (rngu gs).2 = lfsr16_step (rng16 gs))
  /\ (use_system_rng gs = true ->
      gen_calls (rngu gs).2 = S (gen_calls gs)
      /\ rng16 (rngu gs).2 = rng16 gs).
Proof. unfold rngu. destruct (use_system_rng gs); simpl; split; done. Qed.

(** X2.  [resolve_pairs] picks a cell of the grid and one of its four
    orthogonal neighbours, which is another cell when it lies in the grid;
    picking the pair changes neither the grid nor the players, and costs
    exactly three draws of the generator in use. *)
Theorem pick_pair_adjacent gs x y nx ny gs1 :
  pick_pair gs = (x, y, nx, ny, gs1) ->
  in_bounds x y = true
  /\ Z.abs (nx - x) + Z.abs (ny - y) = 1
  /\ (in_bounds nx ny = true -> Z.to_nat (idx nx ny) <> Z.to_nat (idx x y))
  /\ grid gs1 = grid gs /\ players gs1 = players gs
  /\ (use_system_rng gs = false ->
      gen_calls gs1 = gen_calls gs
      /\ rng16 gs1 = lfsr16_step (lfsr16_step (lfsr16_step (rng16 gs))))
  /\ (use_system_rng gs = true ->
      gen_calls gs1 = S (S (S (gen_calls gs))) /\ rng16 gs1 = rng16 gs).
Proof.
  intros Hp.
  destruct (pick_pair_frame _ _ _ _ _ _ Hp) as (Hin & Hg & Hpl & _).
  revert Hp. unfold pick_pair.
  pose proof (rngu_frame gs) as F1. pose proof (rngu_draw gs) as D1.
  destruct (rngu gs) as [r1 g1]; simpl in F1, D1.
  pose proof (rngu_frame g1) as F2. pose proof (rngu_draw g1) as D2.
  destruct (rngu g1) as [r2 g2]; simpl in F2, D2.
  pose proof (rngu_frame g2) as F3. pose proof (rngu_draw g2) as D3.
  destruct (rngu g2) as [r3 g3]; simpl in F3, D3.
  pose proof (pick_neighbor_cases (Z.rem (u16 r1) ARENA_W)
                (Z.rem (u16 r2) ARENA_H) (u16 r3)) as Hc.
  destruct (pick_neighbor _ _ _) as [nx' ny'].
  intros [= <- <- <- <- <-].
  split; [exact Hin |].
  apply in_bounds_spec in Hin.
  split; [| split; [| split; [exact Hg | split; [exact Hpl |]]]].
  - destruct Hc as [[= -> ->] | [[= -> ->] | [[= -> ->] | [= -> ->]]]]; lia.
  - rewrite in_bounds_spec. unfold idx, ARENA_W, ARENA_H in *.
    destruct Hc as [[= -> ->] | [[= -> ->] | [[= -> ->] | [= -> ->]]]]; lia.
  - destruct F1 as (_ & _ & _ & _ & _ & _ & U1).
    destruct F2 as (_ & _ & _ & _ & _ & _ & U2).
    split; intros Hu.
    + rewrite Hu in U1. rewrite U1 in U2.
      destruct (proj1 D1 Hu) as [E1 E1']. destruct (proj1 D2 U1) as [E2 E2'].
      destruct (proj1 D3 U2) as [E3 E3']. split; congruence.
    + rewrite Hu in U1. rewrite U1 in U2.
      destruct (proj2 D1 Hu) as [E1 E1']. destruct (proj2 D2 U1) as [E2 E2'].
      destruct (proj2 D3 U2) as [E3 E3']. split; congruence.
Qed.

(** ** The statistics of [resolve_pairs] *)

Lemma count_pair_counted g x y nx ny stats :
  counted (count_pair g x y nx ny stats)
  = counted stats + (if in_bounds nx ny then 1 else 0)
  /\ battles_count stats <= battles_count (count_pair g x y nx ny stats)
  /\ same_player_count stats
     <= same_player_count (count_pair g x y nx ny stats)
  /\ wall_empty_count stats
     <= wall_empty_count (count_pair g x y nx ny stats).
Proof.
  unfold count_pair, counted.
  destruct (in_bounds nx ny); [| lia].
  destruct (kind (cell_at g x y)), (kind (cell_at g nx ny));
    repeat (case_bool_decide; try done); simpl; repeat case_match; simpl; lia.
Qed.

Lemma iter_pair_attempt_counted n : forall gs stats,
  let stats' := (Nat.iter n pair_attempt (gs, stats)).2 in
  counted stats <= counted stats' <= counted stats + Z.of_nat n
  /\ battles_count stats <= battles_count stats'
  /\ same_player_count stats <= same_player_count stats'
  /\ wall_empty_count stats <= wall_empty_count stats'.
Proof.
  induction n as [| n IH]; intros gs stats; [simpl; lia |].
  rewrite Nat.iter_succ_r. unfold pair_attempt at 2.
  destruct (pick_pair gs) as [[[[x y] nx] ny] gs1].
  specialize (IH (resolve_pair gs1 x y nx ny)
                 (count_pair (grid gs1) x y nx ny stats)).
  pose proof (count_pair_counted (grid gs1) x y nx ny stats) as Hc.
  cbv zeta in *. destruct (in_bounds nx ny); lia.
Qed.

(** X3.  The statistics [resolve_pairs] leaves in the state: the number of
    attempts is the count it was called with, the three categories are
    never negative, and together they count at most one per attempt (an
    attempt is in exactly one category when its neighbour lies in the grid,
    and in none otherwise). *)
Theorem resolve_pairs_statistics gs count :
  let gs' := resolve_pairs gs count in
  last_attempts gs' = count
  /\ 0 <= last_battles gs'
  /\ 0 <= last_same_player gs'
  /\ 0 <= last_wall_empty gs'
  /\ last_battles gs' + last_same_player gs' + last_wall_empty gs'
     <= Z.max 0 count
  /\ (forall g x y nx ny stats,
        counted (count_pair g x y nx ny stats)
        = counted stats + (if in_bounds nx ny then 1 else 0)).
Proof.
  intros gs'. subst gs'. unfold resolve_pairs.
  pose proof (iter_pair_attempt_counted (Z.to_nat count) gs
                (mkPairStats 0 0 0)) as H.
  destruct (Nat.iter _ _ _) as [gs1 stats]. cbv zeta in H. simpl in H.
  unfold counted in H. simpl in *.
  split_and!; try lia.
  intros. apply count_pair_counted.
Qed.

(** ** The rules of [resolve_pair] *)

(** X4.  The pairs [resolve_pair] leaves alone: a neighbour outside the
    grid, a Wall on either side, two Empty cells, two Symbol cells of one
    owner.  The whole state is returned as it was (no draw, no loss), and
    [resolve_pairs] never counts such a pair as a battle. *)
Theorem resolve_pair_no_effect gs x y nx ny stats :
  let a := cell_at (grid gs) x y in
  let b := cell_at (grid gs) nx ny in
  in_bounds nx ny = false
  \/ kind a = Wall \/ kind b = Wall
  \/ (kind a = Empty /\ kind b = Empty)
  \/ (kind a = Symbol /\ kind b = Symbol /\ v (owner a) = v (owner b)) ->
  resolve_pair gs x y nx ny = gs
  /\ battles_count (count_pair (grid gs) x y nx ny stats)
     = battles_count stats.
Proof.
  intros a b H. unfold resolve_pair, count_pair. fold a b.
  destruct (in_bounds nx ny); simpl; [| done].
  destruct H as [H | [H | [H | [[Ha Hb] | (Ha & Hb & Ho)]]]];
    try discriminate H; rewrite ?H, ?Ha, ?Hb; simpl;
    try (destruct (kind a); simpl; done).
  apply Z.eqb_eq in Ho. by rewrite Ho.
Qed.

(** X5.  Rule 3: a Symbol cell next to an Empty cell is copied into it,
    whichever of the two was picked first.  Nothing else changes: the
    other cells, the players and their loss counters, and the generator,
    from which nothing is drawn. *)
Theorem expansion_into_empty gs x y nx ny :
  let a := cell_at (grid gs) x y in
  let b := cell_at (grid gs) nx ny in
  let gs' := resolve_pair gs x y nx ny in
  length (grid gs) = 960%nat ->
  in_bounds x y = true -> in_bounds nx ny = true ->
  (kind a = Empty /\ kind b = Symbol) \/ (kind a = Symbol /\ kind b = Empty) ->
  let s := if bool_decide (kind a = Symbol) then a else b in
  cell_at (grid gs') x y = s /\ cell_at (grid gs') nx ny = s
  /\ (forall i, i <> Z.to_nat (idx x y) -> i <> Z.to_nat (idx nx ny) ->
        grid gs' !! i = grid gs !! i)
  /\ players gs' = players gs
  /\ rng16 gs' = rng16 gs /\ gen_calls gs' = gen_calls gs
  /\ stats_of gs' = stats_of gs.
Proof.
  intros a b gs' L Hxy Hn H s.
  pose proof (idx_lt _ _ Hxy) as Ix. pose proof (idx_lt _ _ Hn) as In.
  rewrite <- L in Ix, In.
  assert (Hne : Z.to_nat (idx x y) <> Z.to_nat (idx nx ny)).
  { intros E. unfold a, b, cell_at in H. rewrite E in H.
    destruct H as [[H1 H2] | [H1 H2]]; congruence. }
  subst gs' s. unfold resolve_pair. fold a b. rewrite Hn. simpl.
  destruct H as [[Ha Hb] | [Ha Hb]]; rewrite Ha, Hb; simpl.
  - split_and!; try done.
    + by apply cell_at_set_at_eq.
    + by apply cell_at_set_at_ne.
    + intros i Hi _. unfold set_at. by apply list_lookup_insert_ne.
  - split_and!; try done.
    + rewrite cell_at_set_at_ne; [done | congruence].
    + by apply cell_at_set_at_eq.
    + intros i _ Hi. unfold set_at. by apply list_lookup_insert_ne.
Qed.

Lemma land_1_odd r : negb (Z.land (u16 r) 1 =? 0) = Z.odd r.
Proof.
  replace (Z.land (u16 r) 1) with (r mod 2).
  - rewrite Zmod_odd. by destruct (Z.odd r).
  - unfold u16. rewrite (Z.land_ones _ 1) by lia. change (2 ^ 1) with 2.
    replace (r mod 65536) with (r + (- (r / 65536) * 32768) * 2)
      by (pose proof (Z.div_mod r 65536); lia).
    by rewrite Z.mod_add.
Qed.

(** X6.  Rule 5: two Symbol cells of different owners showing the same
    piece are settled by one draw of the generator: when the draw is odd
    the picked cell wins, when it is even its neighbour wins.  Both cells
    end as the winner, the loss is charged to the owner of the losing
    cell, the other cells are not touched. *)
Theorem same_piece_coin_flip gs x y nx ny :
  let a := cell_at (grid gs) x y in
  let b := cell_at (grid gs) nx ny in
  let gs' := resolve_pair gs x y nx ny in
  let r := (rngu gs).1 in
  let winner := if Z.odd r then a else b in
  let loser := if Z.odd r then b else a in
  length (grid gs) = 960%nat ->
  in_bounds x y = true -> in_bounds nx ny = true ->
  kind a = Symbol -> kind b = Symbol ->
  v (owner a) <> v (owner b) -> piece a = piece b ->
  cell_at (grid gs') x y = winner /\ cell_at (grid gs') nx ny = winner
  /\ (forall i, i <> Z.to_nat (idx x y) -> i <> Z.to_nat (idx nx ny) ->
        grid gs' !! i = grid gs !! i)
  /\ players gs' = players (record_loss (owner loser) gs)
  /\ rng16 gs' = rng16 (rngu gs).2
  /\ gen_calls gs' = gen_calls (rngu gs).2.
Proof.
  intros a b gs' r winner loser L Hxy Hn Ha Hb Ho Hp.
  pose proof (idx_lt _ _ Hxy) as Ix. pose proof (idx_lt _ _ Hn) as In.
  rewrite <- L in Ix, In.
  assert (Hne : Z.to_nat (idx x y) <> Z.to_nat (idx nx ny)).
  { intros E. unfold a, b, cell_at in Ho. by rewrite E in Ho. }
  subst gs' winner loser r. unfold resolve_pair. fold a b.
  rewrite Hn, Ha, Hb. simpl.
  destruct (Z.eqb_spec (v (owner a)) (v (owner b))) as [? | _]; [done |].
  rewrite bool_decide_eq_true_2 by done.
  pose proof (rngu_frame gs) as (Fg & Fp & _).
  destruct (rngu gs) as [r gs1]; simpl in Fg, Fp |- *.
  rewrite land_1_odd.
  destruct (Z.odd r); rewrite record_loss_grid, rng16_record_loss,
    !record_loss_lose; simpl; rewrite Fg, Fp;
    (split; [| split; [| split; [| split; [done |]]]]).
  - rewrite cell_at_set_at_ne; [done | congruence].
  - by apply cell_at_set_at_eq.
  - intros i _ Hi. unfold set_at. by apply list_lookup_insert_ne.
  - split; [done |]. unfold record_loss. by case_match.
  - by apply cell_at_set_at_eq.
  - by apply cell_at_set_at_ne.
  - intros i Hi _. unfold set_at. by apply list_lookup_insert_ne.
  - split; [done |]. unfold record_loss. by case_match.
Qed.

(** ** The census of the kinds *)

Lemma filter_length_insert {A} (P : A -> Prop) `{!forall x, Decision (P x)}
    (l : list A) (i : nat) (x y : A) :
  l !! i = Some y ->
  (length (filter P (<[i := x]> l)) + (if decide (P y) then 1 else 0)
   = length (filter P l) + (if decide (P x) then 1 else 0))%nat.
Proof.
  revert i. induction l as [| z l IH]; intros [| i] Hl; simplify_eq/=.
  - rewrite !filter_cons.
    destruct (decide (P y)), (decide (P x)); simpl; lia.
  - rewrite !filter_cons. specialize (IH i Hl).
    destruct (decide (P y)), (decide (P x)), (decide (P z)); simpl in *; lia.
Qed.

Lemma census_set_at k g x y c :
  (Z.to_nat (idx x y) < length g)%nat ->
  census k (set_at g x y c)
  + (if decide (kind (cell_at g x y) = k) then 1 else 0)
  = census k g + (if decide (kind c = k) then 1 else 0).
Proof.
  intros Hi. unfold census, set_at, cell_at.
  pose proof (filter_length_insert (fun c => kind c = k) g _ c _
                (list_lookup_lookup_total_lt g _ Hi)) as H.
  repeat case_decide; lia.
Qed.

Lemma census_nonneg k g : 0 <= census k g.
Proof. unfold census. lia. Qed.

Lemma resolve_pair_census_step gs x y nx ny :
  let g := grid gs in
  let g' := grid (resolve_pair gs x y nx ny) in
  census Wall g' = census Wall g
  /\ census Symbol g <= census Symbol g' <= census Symbol g + 1
  /\ census Empty g' + census Symbol g' = census Empty g + census Symbol g.
Proof.
  intros g g'.
  assert (Hcopy : forall x y c,
            kind c = Symbol -> kind (cell_at g x y) <> Wall ->
            census Wall (set_at g x y c) = census Wall g
            /\ census Symbol g <= census Symbol (set_at g x y c)
               <= census Symbol g + 1
            /\ census Empty (set_at g x y c) + census Symbol (set_at g x y c)
               = census Empty g + census Symbol g).
  { intros x' y' c Hc Hw.
    destruct (decide (Z.to_nat (idx x' y') < length g)%nat) as [Hi | Hi].
    - pose proof (census_set_at Wall g x' y' c Hi).
      pose proof (census_set_at Symbol g x' y' c Hi).
      pose proof (census_set_at Empty g x' y' c Hi).
      rewrite Hc in *.
      destruct (kind (cell_at g x' y')); repeat case_decide; try done; lia.
    - unfold set_at. rewrite list_insert_ge by lia. lia. }
  destruct (resolve_pair_grid_cases gs x y nx ny)
    as [E | [(_ & Ha & Hb & _ & E) | (_ & Hb & Ha & _ & E)]];
    subst g'; rewrite E.
  - fold g. lia.
  - by apply Hcopy.
  - by apply Hcopy.
Qed.

Lemma iter_pair_attempt_census n : forall gs stats,
  let g := grid gs in
  let g' := grid (Nat.iter n pair_attempt (gs, stats)).1 in
  census Wall g' = census Wall g
  /\ census Symbol g <= census Symbol g'
  /\ census Empty g' + census Symbol g' = census Empty g + census Symbol g.
Proof.
  induction n as [| n IH]; intros gs stats; [simpl; lia |].
  rewrite Nat.iter_succ_r. unfold pair_attempt at 2.
  destruct (pick_pair gs) as [[[[x y] nx] ny] gs1] eqn:Hp.
  apply pick_pair_frame in Hp as (_ & Hg & _).
  specialize (IH (resolve_pair gs1 x y nx ny)
                 (count_pair (grid gs1) x y nx ny stats)).
  pose proof (resolve_pair_census_step gs1 x y nx ny) as Hs.
  cbv zeta in *. rewrite Hg in Hs. lia.
Qed.

(** X7.  The census of the grid under combat: a pair never makes or
    removes a Wall, never removes a Symbol cell and adds at most one, and
    every new Symbol cell takes the place of an Empty cell.  So over a
    whole [resolve_pairs] the Walls stay as many, the Symbol cells never
    get fewer and the Empty cells never more. *)
Theorem combat_census gs x y nx ny count :
  let g := grid gs in
  let g1 := grid (resolve_pair gs x y nx ny) in
  let g' := grid (resolve_pairs gs count) in
  (census Wall g1 = census Wall g
   /\ census Symbol g <= census Symbol g1 <= census Symbol g + 1
   /\ census Empty g1 + census Symbol g1 = census Empty g + census Symbol g)
  /\ census Wall g' = census Wall g
  /\ census Symbol g <= census Symbol g'
  /\ census Empty g' <= census Empty g
  /\ census Empty g' + census Symbol g' = census Empty g + census Symbol g.
Proof.
  intros g g1 g'. split; [apply resolve_pair_census_step |].
  subst g'. rewrite resolve_pairs_grid.
  pose proof (iter_pair_attempt_census (Z.to_nat count) gs
                (mkPairStats 0 0 0)) as H.
  cbv zeta in H. fold g in H. lia.
Qed.

(** ** Albert's schedule *)

Lemma field_alter {B} (F : PlayerState -> B) (f : PlayerState -> PlayerState)
    (i k : nat) (ps : list PlayerState) :
  (forall p, F (f p) = F p) -> F (alter f i ps !!! k) = F (ps !!! k).
Proof.
  intros HF. rewrite list_lookup_total_alter.
  case_decide as H; [| done]. destruct H as [-> _]. apply HF.
Qed.

Lemma fmap_alter_frame {B} (F : PlayerState -> B)
    (f : PlayerState -> PlayerState) (i : nat) (ps : list PlayerState) :
  (forall p, F (f p) = F p) -> F <$> alter f i ps = F <$> ps.
Proof.
  intros H. rewrite (list_fmap_alter F f (fun n => n)).
  - by apply list_alter_id.
  - apply Forall_true. intros p. apply H.
Qed.

Lemma fmap_fmap_frame {B} (F : PlayerState -> B)
    (f : PlayerState -> PlayerState) (ps : list PlayerState) :
  (forall p, F (f p) = F p) -> F <$> (f <$> ps) = F <$> ps.
Proof.
  intros H. rewrite <- list_fmap_compose. apply list_fmap_ext.
  intros _ p _. apply H.
Qed.

(** What one interval draw does to the state. *)
Lemma draw_rot_period_players gs i :
  exists n, 0 <= n < 256
    /\ players (draw_rot_period gs i)
       = alter (set_rot_period n) i (players gs)
    /\ grid (draw_rot_period gs i) = grid gs
    /\ tick (draw_rot_period gs i) = tick gs.
Proof.
  rewrite draw_rot_period_eq.
  destruct (rngu_frame gs) as (Hg & Hp & _ & Ht & _).
  eexists. split; [apply u8_range |]. simpl. by rewrite Hg, Ht.
Qed.

Lemma update_albert_ai_schedule gs i :
  let p := players gs !!! i in
  let gs' := update_albert_ai gs i in
  let p' := players gs' !!! i in
  (i < length (players gs))%nat ->
  tick gs' = tick gs
  /\ badge <$> players gs' = badge <$> players gs
  /\ (forall k, k <> i -> players gs' !! k = players gs !! k)
  /\ ((current p' = current p /\ last_rot_tick p' = last_rot_tick p
       /\ tick gs - last_rot_tick p < rot_period p'
       /\ (rot_period p <> 0 -> rot_period p' = rot_period p)
       /\ grid gs' = grid gs)
      \/ (current p' = next_piece (current p) /\ last_rot_tick p' = tick gs
          /\ 0 <= rot_period p' < 256
          /\ (rot_period p <> 0 -> rot_period p <= tick gs - last_rot_tick p)
          /\ grid gs'
             = repaint (grid gs) (v (id p)) (next_piece (current p)))).
Proof.
  intros p gs' p' Hi. subst gs' p'. unfold update_albert_ai. fold p.
  set (gs1 := if rot_period p =? 0 then draw_rot_period gs i else gs).
  assert (H1 : tick gs1 = tick gs /\ grid gs1 = grid gs
               /\ length (players gs1) = length (players gs)
               /\ badge <$> players gs1 = badge <$> players gs
               /\ (forall k, k <> i -> players gs1 !! k = players gs !! k)
               /\ id (players gs1 !!! i) = id p
               /\ current (players gs1 !!! i) = current p
               /\ last_rot_tick (players gs1 !!! i) = last_rot_tick p
               /\ (rot_period p <> 0
                   -> rot_period (players gs1 !!! i) = rot_period p)).
  { subst gs1. destruct (Z.eqb_spec (rot_period p) 0) as [E | E];
      [| by split_and!].
    destruct (draw_rot_period_players gs i) as (n & _ & -> & -> & ->).
    rewrite length_alter. split_and!; try done.
    - by apply fmap_alter_frame.
    - intros k Hk. by apply list_lookup_alter_ne.
    - by apply field_alter.
    - by apply field_alter.
    - by apply field_alter. }
  destruct H1 as (Ht & Hg & Hl & Hid & Hfr & Hi1 & Hc1 & Hr1 & Hp1).
  set (p1 := players gs1 !!! i) in *.
  destruct (Z.geb_spec (tick gs1 - last_rot_tick p1) (rot_period p1))
    as [Hdue | Hdue].
  - match goal with |- context [draw_rot_period ?s i] => set (gs2 := s) end.
    destruct (draw_rot_period_players gs2 i) as (n & Hn & -> & -> & ->).
    subst gs2. simpl. rewrite Ht, Hg, Hi1, Hc1.
    split; [done |]. split; [| split].
    + rewrite !fmap_alter_frame by done. exact Hid.
    + intros k Hk. rewrite !list_lookup_alter_ne by done. by apply Hfr.
    + right.
      set (cur := next_piece (current p)).
      set (n1 := rot_period p1) in *. set (t1 := last_rot_tick p1) in *.
      clearbody n1 t1.
      assert (E : alter (set_rot_period n) i
                    (alter (fun q => set_last_rot_tick (tick gs)
                                       (set_current cur q)) i (players gs1))
                  !!! i
                  = set_rot_period n
                      (set_last_rot_tick (tick gs) (set_current cur p1))).
      { rewrite list_lookup_total_alter, decide_True
          by (rewrite length_alter; split; [done | lia]).
        rewrite list_lookup_total_alter, decide_True by (split; [done | lia]).
        done. }
      rewrite E. cbn [current last_rot_tick rot_period set_rot_period
                      set_last_rot_tick set_current].
      split; [done |]. split; [done |]. split; [exact Hn |].
      split; [intros Hp; specialize (Hp1 Hp); lia | reflexivity].
  - split; [exact Ht |]. split; [exact Hid |]. split; [exact Hfr |].
    left. split_and!; try done. fold p1. lia.
Qed.

(** X8.  After [update_albert_ai] the schedule of the player is never
    overdue: its interval is 0 (to be drawn at the next update) or the
    time since its last rotation is below the interval, so the countdown
    "Next rotation in" of the tuning window is never negative.  The update
    either leaves piece, rotation tick and grid alone, or advances the
    piece by one, stamps the rotation with the current tick and repaints
    the cells of the player; an interval that was set is kept until the
    rotation it announces. *)
Theorem albert_schedule gs :
  let p := players gs !!! 1%nat in
  let gs' := update_albert_ai gs 1 in
  let p' := players gs' !!! 1%nat in
  (1 < length (players gs))%nat ->
  (rot_period p' = 0 \/ tick gs' - last_rot_tick p' < rot_period p')
  /\ 0 <= next_rotation_in gs'
  /\ ((current p' = current p /\ last_rot_tick p' = last_rot_tick p
       /\ (rot_period p <> 0 -> rot_period p' = rot_period p)
       /\ grid gs' = grid gs)
      \/ (current p' = next_piece (current p) /\ last_rot_tick p' = tick gs
          /\ (rot_period p <> 0 -> rot_period p <= tick gs - last_rot_tick p)
          /\ grid gs'
             = repaint (grid gs) (v (id p)) (next_piece (current p))))
  /\ players gs' !! 0%nat = players gs !! 0%nat.
Proof.
  intros p gs' p' Hi.
  destruct (update_albert_ai_schedule gs 1 Hi) as (Ht & _ & Hfr & H).
  fold p gs' p' in Ht, Hfr, H.
  assert (Hs : rot_period p' = 0
               \/ tick gs' - last_rot_tick p' < rot_period p').
  { rewrite Ht.
    destruct H as [(_ & -> & ? & _) | (_ & -> & ? & _)]; lia. }
  split; [exact Hs |]. split; [| split].
  - unfold next_rotation_in. fold p'.
    destruct (Z.gtb_spec (rot_period p') 0); lia.
  - destruct H as [(? & ? & _ & ? & ?) | (? & ? & _ & ? & ?)];
      [left | right]; done.
  - by apply Hfr.
Qed.

(** ** The level as [load_level1] lays it out *)

Lemma cell_at_level1_grid p0 p1 x y :
  in_bounds x y = true ->
  cell_at (level1_grid p0 p1) x y =
    if on_border x y then mkCell Wall (mkPlayerId 0) Rock
    else if x <? 20 then mkCell Symbol (mkPlayerId 0) p0
    else mkCell Symbol (mkPlayerId 1) p1.
Proof.
  intros Hxy. pose proof (idx_lt _ _ Hxy) as Hi.
  apply in_bounds_spec in Hxy. unfold ARENA_W, ARENA_H in Hxy.
  unfold cell_at, level1_grid.
  rewrite (@list_lookup_total_fmap _ _ (level1_cell p0 p1) _ _ (seq 0 960)
             (Z.to_nat (idx x y))) by (by rewrite length_seq).
  rewrite lookup_total_seq_lt by done. unfold level1_cell.
  replace (Z.of_nat (0 + Z.to_nat (idx x y))) with (y * 40 + x)
    by (unfold idx, ARENA_W; lia).
  unfold ARENA_W.
  rewrite Z.add_comm, Z.mod_add, Z.div_add, Z.mod_small, Z.div_small by lia.
  done.
Qed.

Lemma filter_length_fmap {A B} (f : A -> B) (P : B -> Prop)
    `{!forall x, Decision (P x)} (l : list A) :
  length (filter P (f <$> l)) = length (filter (fun x => P (f x)) l).
Proof.
  induction l as [| x l IH]; [done |]. csimpl. rewrite !filter_cons.
  destruct (decide (P (f x))); simpl; by rewrite IH.
Qed.

Lemma census_kinds k g g' :
  kind <$> g = kind <$> g' -> census k g = census k g'.
Proof.
  intros H. unfold census.
  pose proof (filter_length_fmap kind (fun x => x = k) g) as H1.
  pose proof (filter_length_fmap kind (fun x => x = k) g') as H2.
  cbv beta in H1, H2. by rewrite <- H1, <- H2, H.
Qed.

Lemma kind_level1_grid p0 p1 : kind <$> level1_grid p0 p1 = level1_kinds.
Proof.
  unfold level1_kinds, level1_grid. rewrite <- !list_fmap_compose.
  apply list_fmap_ext. intros _ n _. unfold compose, level1_cell.
  by repeat case_match.
Qed.

Lemma level1_kinds_census :
  length level1_kinds = 960%nat
  /\ census Wall (level1_grid Rock Scissors) = 124
  /\ census Symbol (level1_grid Rock Scissors) = 836
  /\ census Empty (level1_grid Rock Scissors) = 0.
Proof. vm_compute. by split_and!. Qed.

Lemma territory_level1_grid p0 p1 :
  territory (level1_grid p0 p1) 0 = 418
  /\ territory (level1_grid p0 p1) 1 = 418.
Proof. vm_compute. by split. Qed.

Lemma load_level1_frame gs :
  players (load_level1 gs) = players gs /\ phase (load_level1 gs) = phase gs
  /\ tick (load_level1 gs) = tick gs /\ rng16 (load_level1 gs) = rng16 gs
  /\ gen_calls (load_level1 gs) = gen_calls gs
  /\ cfg (load_level1 gs) = cfg gs
  /\ albert_config (load_level1 gs) = albert_config gs
  /\ use_system_rng (load_level1 gs) = use_system_rng gs
  /\ stats_of (load_level1 gs) = stats_of gs.
Proof. repeat split; reflexivity. Qed.

(** X9.  The level [load_level1] builds, whatever grid was there before:
    a Wall on every border cell, and inside a Symbol cell of player 0 with
    its current piece in columns 1 to 19, of player 1 with its current
    piece in columns 20 to 38; no cell is left Empty, each player starts
    with 418 cells, and nothing but the grid is written. *)
Theorem load_level1_layout gs x y :
  let g := grid (load_level1 gs) in
  in_bounds x y = true ->
  cell_at g x y =
    (if on_border x y then mkCell Wall (mkPlayerId 0) Rock
     else if x <? 20
          then mkCell Symbol (mkPlayerId 0) (current (players gs !!! 0%nat))
          else mkCell Symbol (mkPlayerId 1) (current (players gs !!! 1%nat)))
  /\ length g = 960%nat
  /\ census Wall g = 124 /\ census Symbol g = 836 /\ census Empty g = 0
  /\ territory g 0 = 418 /\ territory g 1 = 418
  /\ players (load_level1 gs) = players gs
  /\ phase (load_level1 gs) = phase gs /\ tick (load_level1 gs) = tick gs
  /\ rng16 (load_level1 gs) = rng16 gs.
Proof.
  intros g Hxy. subst g.
  assert (He : players (load_level1 gs) = players gs
               /\ phase (load_level1 gs) = phase gs
               /\ tick (load_level1 gs) = tick gs
               /\ rng16 (load_level1 gs) = rng16 gs)
    by (pose proof (load_level1_frame gs); tauto).
  revert He. rewrite load_level1_level1_grid.
  generalize (current (players gs !!! 0%nat)) as p0.
  generalize (current (players gs !!! 1%nat)) as p1.
  intros p1 p0 He.
  pose proof (kind_level1_grid p0 p1) as Hk. unfold level1_kinds in Hk.
  destruct level1_kinds_census as (L & Cw & Cs & Ce).
  destruct (territory_level1_grid p0 p1) as [T0 T1].
  split; [apply cell_at_level1_grid; exact Hxy |].
  split; [rewrite <- (length_fmap kind), Hk; exact L |].
  split; [rewrite (census_kinds Wall _ _ Hk); exact Cw |].
  split; [rewrite (census_kinds Symbol _ _ Hk); exact Cs |].
  split; [rewrite (census_kinds Empty _ _ Hk); exact Ce |].
  split; [exact T0 |]. split; [exact T1 | exact He].
Qed.

(** ** What holds of every state of a game *)

Lemma level1_kinds_no_empty : Forall (fun k => k <> Empty) level1_kinds.
Proof.
  unfold level1_kinds, level1_grid. rewrite <- list_fmap_compose.
  apply Forall_fmap, Forall_forall. intros n _.
  unfold compose, level1_cell. by repeat case_match.
Qed.

Lemma level_inv_length ps g :
  level_inv_on ps g -> length ps = 2%nat /\ length g = 960%nat.
Proof.
  intros (Hid & Hk & _). split.
  - by rewrite <- (length_fmap badge), Hid.
  - rewrite <- (length_fmap kind), Hk. apply level1_kinds_census.
Qed.

Lemma synced_lookup_total ps g i : Forall (synced ps) g -> synced ps (g !!! i).
Proof.
  intros H. destruct (decide (i < length g)%nat) as [Hi | Hi].
  - by apply Forall_lookup_total_1.
  - rewrite list_lookup_total_alt, lookup_ge_None_2 by lia.
    intros Hk. discriminate Hk.
Qed.

Lemma synced_ext ps ps' c :
  current (ps' !!! 0%nat) = current (ps !!! 0%nat) ->
  current (ps' !!! 1%nat) = current (ps !!! 1%nat) ->
  synced ps c -> synced ps' c.
Proof. unfold synced. intros -> ->. done. Qed.

Lemma level_inv_players ps ps' g :
  badge <$> ps' = badge <$> ps ->
  current (ps' !!! 0%nat) = current (ps !!! 0%nat) ->
  current (ps' !!! 1%nat) = current (ps !!! 1%nat) ->
  level_inv_on ps g -> level_inv_on ps' g.
Proof.
  intros Hid H0 H1 (Hi & Hk & Hs). split; [congruence |]. split; [done |].
  revert Hs. apply List.Forall_impl. intros c. by apply synced_ext.
Qed.

Lemma kind_no_empty g i :
  kind <$> g = level1_kinds -> (i < length g)%nat -> kind (g !!! i) <> Empty.
Proof.
  intros Hk Hi.
  pose proof level1_kinds_no_empty as H. rewrite <- Hk in H.
  rewrite Forall_fmap in H.
  apply (Forall_lookup_total_1 _ _ i H Hi).
Qed.

(** Copying a synced Symbol cell over a cell that is not a Wall. *)
Lemma level_inv_set_at ps g x y c :
  level_inv_on ps g -> kind c = Symbol -> synced ps c ->
  kind (cell_at g x y) <> Wall ->
  level_inv_on ps (set_at g x y c).
Proof.
  intros (Hi & Hk & Hs) Hc Hsc Hw. unfold set_at, cell_at in *.
  destruct (decide (Z.to_nat (idx x y) < length g)%nat) as [Hlt | Hge];
    [| by rewrite list_insert_ge by lia].
  split; [done |]. split; [| by apply Forall_insert].
  rewrite list_fmap_insert, <- Hk. apply list_insert_id.
  rewrite list_lookup_fmap, (list_lookup_lookup_total_lt g _ Hlt). simpl.
  f_equal. pose proof (kind_no_empty g _ Hk Hlt).
  destruct (kind (g !!! Z.to_nat (idx x y))); congruence.
Qed.

Lemma current_lose ps l k : current (lose ps l !!! k) = current (ps !!! k).
Proof. unfold lose. case_match; [by apply field_alter | done]. Qed.

Lemma badge_lose ps l : badge <$> lose ps l = badge <$> ps.
Proof. unfold lose. case_match; [by apply fmap_alter_frame | done]. Qed.

Lemma level_inv_resolve_pair gs x y nx ny :
  level_inv gs -> level_inv (resolve_pair gs x y nx ny).
Proof.
  intros H. unfold level_inv.
  apply (level_inv_players (players gs)).
  { rewrite resolve_pair_players. case_match; [apply badge_lose | done]. }
  { rewrite resolve_pair_players. case_match; [apply current_lose | done]. }
  { rewrite resolve_pair_players. case_match; [apply current_lose | done]. }
  pose proof H as (_ & _ & Hs).
  destruct (resolve_pair_grid_cases gs x y nx ny)
    as [E | [(_ & Ha & Hb & _ & E) | (_ & Hb & Ha & _ & E)]]; rewrite E.
  - exact H.
  - apply level_inv_set_at; [exact H | done | | done].
    by apply synced_lookup_total.
  - apply level_inv_set_at; [exact H | done | | done].
    by apply synced_lookup_total.
Qed.

Lemma level_inv_pair_attempt gs stats :
  level_inv gs -> level_inv (pair_attempt (gs, stats)).1.
Proof.
  intros H. unfold pair_attempt.
  destruct (pick_pair gs) as [[[[x y] nx] ny] gs1] eqn:Hp.
  apply pick_pair_frame in Hp as (_ & Hg & Hpl & _). simpl.
  apply level_inv_resolve_pair. unfold level_inv. by rewrite Hg, Hpl.
Qed.

Lemma level_inv_iter n : forall gs stats,
  level_inv gs -> level_inv (Nat.iter n pair_attempt (gs, stats)).1.
Proof.
  induction n as [| n IH]; intros gs stats H; [done |].
  rewrite Nat.iter_succ_r.
  pose proof (level_inv_pair_attempt gs stats H) as H1.
  destruct (pair_attempt (gs, stats)) as [gs1 stats1]. by apply IH.
Qed.

Lemma level_inv_resolve_pairs gs n :
  level_inv gs -> level_inv (resolve_pairs gs n).
Proof.
  intros H. unfold level_inv.
  rewrite resolve_pairs_grid, resolve_pairs_players. by apply level_inv_iter.
Qed.

(** A rotation of player [k]: a new current piece and the repaint. *)
Lemma level_inv_rotate (k : nat) ps g (f : PlayerState -> PlayerState) cur :
  (k < 2)%nat -> level_inv_on ps g ->
  (forall p, badge (f p) = badge p) -> (forall p, current (f p) = cur) ->
  level_inv_on (alter f k ps) (repaint g (Z.of_nat k) cur).
Proof.
  intros Hk H Hid Hcur.
  destruct (level_inv_length _ _ H) as [Lp Lg].
  destruct H as (Hi & Hkd & Hs).
  rewrite repaint_fmap by done. split; [| split].
  - by rewrite fmap_alter_frame.
  - rewrite <- Hkd, <- list_fmap_compose. apply list_fmap_ext.
    intros _ c _. apply repaint_cell_kind.
  - apply Forall_fmap. revert Hs. apply List.Forall_impl.
    intros c Hc Hsym. unfold compose in *.
    rewrite repaint_cell_kind in Hsym. specialize (Hc Hsym).
    rewrite repaint_cell_owner. unfold repaint_cell.
    rewrite bool_decide_eq_true_2 by done. simpl.
    rewrite !list_lookup_total_alter, Lp.
    destruct k as [| [| k]]; [| | lia];
      destruct Hc as [[Ho Hp] | [Ho Hp]]; rewrite Ho; simpl;
      repeat case_decide; try lia; rewrite ?Hcur; auto.
Qed.

Lemma level_inv_load_level1 gs :
  badge <$> players gs = [(mkPlayerId 0, 0); (mkPlayerId 1, 0)] ->
  level_inv (load_level1 gs).
Proof.
  intros Hid. unfold level_inv.
  rewrite load_level1_level1_grid.
  rewrite (proj1 (load_level1_frame gs)).
  split; [done |]. split; [apply kind_level1_grid |].
  unfold level1_grid. apply Forall_fmap, Forall_forall. intros n _.
  unfold compose, level1_cell, synced. repeat case_match; simpl; auto.
  discriminate.
Qed.

Lemma level_inv_update_albert_ai gs :
  level_inv gs -> level_inv (update_albert_ai gs 1).
Proof.
  intros H. destruct (level_inv_length _ _ H) as [Lp Lg].
  assert (Hi : (1 < length (players gs))%nat) by lia.
  destruct (update_albert_ai_schedule gs 1 Hi) as (_ & Hid & Hfr & Hc).
  assert (H0 : players (update_albert_ai gs 1) !!! 0%nat
               = players gs !!! 0%nat).
  { rewrite !list_lookup_total_alt. by rewrite Hfr. }
  assert (Hid1 : id (players gs !!! 1%nat) = mkPlayerId 1).
  { destruct H as (Hids & _).
    destruct (players gs) as [| p0 [| p1 ps]]; try discriminate Hids.
    injection Hids; intros; assumption. }
  unfold level_inv.
  destruct Hc as [(Hcur & _ & _ & _ & ->) | (Hcur & _ & _ & _ & ->)].
  - apply (level_inv_players (players gs)); [done | by rewrite H0 | done | done].
  - rewrite Hid1. change (v (mkPlayerId 1)) with (Z.of_nat 1).
    apply (level_inv_players
             (alter (set_current (next_piece (current (players gs !!! 1%nat))))
                1%nat (players gs))).
    + rewrite Hid. by rewrite fmap_alter_frame.
    + rewrite H0. symmetry. rewrite list_lookup_total_alter.
      by case_decide as E; [destruct E |].
    + rewrite Hcur. rewrite list_lookup_total_alter.
      rewrite decide_True by (split; [done | lia]). done.
    + apply level_inv_rotate; [lia | exact H | done | done].
Qed.

Lemma level_inv_reset_stage gs :
  level_inv gs -> level_inv (reset_stage (tick_stage gs)).
Proof.
  intros H. unfold level_inv.
  cbn [players grid reset_stage tick_stage set_players set_tick].
  destruct (level_inv_length _ _ H) as [Lp _].
  apply (level_inv_players (players gs)); [| | | exact H].
  - by apply fmap_fmap_frame.
  - by rewrite (list_lookup_total_fmap (set_tick_losses 0)) by lia.
  - by rewrite (list_lookup_total_fmap (set_tick_losses 0)) by lia.
Qed.

Lemma level_inv_after_combat gs : level_inv gs -> level_inv (after_combat gs).
Proof.
  intros H. by apply level_inv_resolve_pairs, level_inv_reset_stage.
Qed.

Lemma level_inv_step_fixed gs : level_inv gs -> level_inv (step_fixed gs).
Proof.
  intros H. unfold step_fixed.
  destruct (phase gs); [exact H | | exact H | exact H | exact H].
  rewrite ai_loop.
  fold (tick_stage gs). fold (reset_stage (tick_stage gs)).
  fold (combat_stage (reset_stage (tick_stage gs))).
  fold (after_combat gs).
  pose proof (level_inv_after_combat gs H) as H1.
  set (s := after_combat gs) in *. clearbody s.
  assert (H2 : forall s', grid s' = grid s -> players s' = players s ->
                 level_inv (ai_stage s')).
  { intros s' Eg Ep. unfold ai_stage.
    assert (level_inv s') by (unfold level_inv; by rewrite Eg, Ep).
    case_match; [by apply level_inv_update_albert_ai | done]. }
  repeat case_match; by apply H2.
Qed.

Lemma level_inv_key_space gs : level_inv gs -> level_inv (key_space gs).
Proof.
  intros H. unfold key_space.
  destruct (phase gs); [exact H | | | | exact H].
  - unfold level_inv.
    cbn [players grid set_grid set_players]. change 0 with (Z.of_nat 0).
    apply level_inv_rotate; [lia | exact H | done | done].
  - apply level_inv_load_level1.
    cbn [players set_players set_tick set_phase].
    rewrite fmap_fmap_frame, !fmap_alter_frame by done. apply H.
  - apply level_inv_load_level1.
    cbn [players set_players set_tick set_phase].
    rewrite fmap_fmap_frame, !fmap_alter_frame by done. apply H.
Qed.

Lemma level_inv_timer gs n :
  level_inv gs ->
  level_inv_on (alter (set_rot_period n) 1%nat (players gs)) (grid gs).
Proof.
  intros H. apply (level_inv_players (players gs)); [| | | exact H].
  - by apply fmap_alter_frame.
  - by apply field_alter.
  - by apply field_alter.
Qed.

Lemma level_inv_run_command gs c :
  level_inv gs -> level_inv (run_command gs c).
Proof.
  intros H.
  destruct c; cbn [run_command];
    [by apply level_inv_step_fixed | by apply level_inv_key_space | | |
     | exact H | exact H | exact H | exact H | exact H | exact H].
  - unfold force_albert_rotation. case_match; [| exact H].
    unfold level_inv. cbn [players grid set_grid set_players].
    change 1 with (Z.of_nat 1).
    apply level_inv_rotate; [lia | exact H | done | done].
  - unfold reset_albert_timer. case_match; [| exact H].
    by apply level_inv_timer.
  - unfold reset_albert_config. case_match; [| exact H].
    by apply level_inv_timer.
Qed.

Lemma level_inv_initial_state : level_inv initial_state.
Proof. by apply level_inv_load_level1. Qed.

Lemma level_inv_run_commands cs : forall gs,
  level_inv gs -> level_inv (run_commands gs cs).
Proof.
  induction cs as [| c cs IH]; intros gs H; [done |].
  apply IH. by apply level_inv_run_command.
Qed.

Lemma territory_sum ps g :
  Forall (synced ps) g -> territory g 0 + territory g 1 = census Symbol g.
Proof.
  induction 1 as [| c g Hc _ IH]; [done |].
  rewrite !territory_cons. unfold census in *. rewrite filter_cons.
  unfold synced in Hc.
  destruct (decide (kind c = Symbol)) as [Hk | Hk].
  - destruct (Hc Hk) as [[-> _] | [-> _]]; repeat case_bool_decide;
      simpl in *; try lia; exfalso; intuition (discriminate || congruence).
  - repeat case_bool_decide; simpl in *; try lia; exfalso; tauto.
Qed.

(** X10.  In every state of a game (the initial state of [main] followed
    by any ticks, key presses and tuning commands) the kinds of the cells
    are those of the level as loaded: no cell is ever Empty, the 836
    Symbol cells are shared between player 0 and player 1, so a cell lost
    by one of them is a cell won by the other, and the players are still
    the two of the start (their ids and the unused [accel_ctr] are never
    written). *)
Theorem territory_zero_sum cs :
  let s := run_commands initial_state cs in
  kind <$> grid s = kind <$> grid initial_state
  /\ census Wall (grid s) = 124
  /\ census Empty (grid s) = 0
  /\ territory (grid s) 0 + territory (grid s) 1 = 836
  /\ id <$> players s = [mkPlayerId 0; mkPlayerId 1]
  /\ accel_ctr <$> players s = [0; 0].
Proof.
  intros s.
  destruct (level_inv_run_commands cs _ level_inv_initial_state)
    as (Hid & Hk & Hs).
  fold s in Hid, Hk, Hs.
  destruct level1_kinds_census as (_ & Cw & Cs & Ce).
  assert (Hk0 : kind <$> grid initial_state = level1_kinds).
  { unfold initial_state. rewrite load_level1_level1_grid.
    apply kind_level1_grid. }
  split; [rewrite Hk0; exact Hk |].
  rewrite (territory_sum _ _ Hs).
  unfold level1_kinds in Hk.
  rewrite (census_kinds Wall _ _ Hk), (census_kinds Empty _ _ Hk),
    (census_kinds Symbol _ _ Hk).
  split; [exact Cw |]. split; [exact Ce |]. split; [exact Cs |].
  split.
  - apply (f_equal (fmap fst)) in Hid. rewrite <- list_fmap_compose in Hid.
    exact Hid.
  - apply (f_equal (fmap snd)) in Hid. rewrite <- list_fmap_compose in Hid.
    exact Hid.
Qed.

(** X11.  In every state of a game each Symbol cell belongs to player 0 or
    player 1 and shows the current piece of its owner: rotations repaint
    all the cells of the player, and combat only copies cells. *)
Theorem pieces_follow_owner cs x y :
  let s := run_commands initial_state cs in
  let c := cell_at (grid s) x y in
  kind c = Symbol ->
  (owner c = mkPlayerId 0 /\ piece c = current (players s !!! 0%nat))
  \/ (owner c = mkPlayerId 1 /\ piece c = current (players s !!! 1%nat)).
Proof.
  intros s c.
  destruct (level_inv_run_commands cs _ level_inv_initial_state)
    as (_ & _ & Hs).
  by apply synced_lookup_total.
Qed.

(** ** Battles and losses *)

Lemma count_pair_battles gs x y nx ny stats :
  battles_count (count_pair (grid gs) x y nx ny stats)
  = battles_count stats
    + match duel_loser gs x y nx ny with Some _ => 1 | None => 0 end.
Proof.
  unfold count_pair, duel_loser.
  destruct (in_bounds nx ny); simpl; [| lia].
  set (a := cell_at (grid gs) x y). set (b := cell_at (grid gs) nx ny).
  destruct (kind a), (kind b); simpl; try lia.
  destruct (v (owner a) =? v (owner b)); simpl; [lia |].
  destruct (bool_decide (piece a = piece b));
    [destruct (negb _) | destruct (beats _ _)]; lia.
Qed.

Lemma iter_pair_attempt_battles n : forall gs stats,
  battles_count (Nat.iter n pair_attempt (gs, stats)).2
  = battles_count stats + Z.of_nat (length (losers n gs)).
Proof.
  induction n as [| n IH]; intros gs stats; [simpl; lia |].
  rewrite Nat.iter_succ_r. simpl losers. unfold pair_attempt at 2.
  destruct (pick_pair gs) as [[[[x y] nx] ny] gs1].
  rewrite IH, count_pair_battles, length_app.
  destruct (duel_loser gs1 x y nx ny); simpl; lia.
Qed.

Lemma resolve_pairs_battles gs n :
  last_battles (resolve_pairs gs n)
  = Z.of_nat (length (losers (Z.to_nat n) gs)).
Proof.
  unfold resolve_pairs.
  pose proof (iter_pair_attempt_battles (Z.to_nat n) gs (mkPairStats 0 0 0))
    as H.
  destruct (Nat.iter _ _ _) as [gs1 stats]. simpl in *. lia.
Qed.

Lemma duel_loser_cells gs x y nx ny l :
  let a := cell_at (grid gs) x y in
  let b := cell_at (grid gs) nx ny in
  duel_loser gs x y nx ny = Some l ->
  in_bounds nx ny = true /\ kind a = Symbol /\ kind b = Symbol
  /\ v (owner a) <> v (owner b) /\ (l = owner a \/ l = owner b).
Proof.
  intros a b. unfold duel_loser. fold a b.
  destruct (in_bounds nx ny); simpl; [| done].
  repeat (case_bool_decide; simpl); try done;
    destruct (Z.eqb_spec (v (owner a)) (v (owner b))); try done;
    repeat case_match; intros [= <-]; split_and!; auto.
Qed.

Lemma duel_loser_level gs x y nx ny l :
  level_inv gs -> duel_loser gs x y nx ny = Some l -> v l = 0 \/ v l = 1.
Proof.
  intros (_ & _ & Hs) H.
  destruct (duel_loser_cells _ _ _ _ _ _ H) as (_ & Ha & Hb & _ & Hl).
  pose proof (synced_lookup_total _ _ (Z.to_nat (idx x y)) Hs Ha) as Sa.
  pose proof (synced_lookup_total _ _ (Z.to_nat (idx nx ny)) Hs Hb) as Sb.
  unfold cell_at in Hl.
  destruct Hl as [-> | ->]; [destruct Sa as [[-> _] | [-> _]]
                            | destruct Sb as [[-> _] | [-> _]]]; auto.
Qed.

Lemma losers_level n : forall gs,
  level_inv gs -> Forall (fun l => v l = 0 \/ v l = 1) (losers n gs).
Proof.
  induction n as [| n IH]; intros gs H; simpl; [constructor |].
  destruct (pick_pair gs) as [[[[x y] nx] ny] gs1] eqn:Hp.
  apply pick_pair_frame in Hp as (_ & Hg & Hpl & _).
  assert (H1 : level_inv gs1) by (unfold level_inv; by rewrite Hg, Hpl).
  apply Forall_app. split.
  - destruct (duel_loser gs1 x y nx ny) as [l |] eqn:E; [| constructor].
    constructor; [| constructor]. by eapply duel_loser_level.
  - apply IH. by apply level_inv_resolve_pair.
Qed.

Lemma true_losses_split ls :
  Forall (fun l => v l = 0 \/ v l = 1) ls ->
  true_losses 0 ls + true_losses 1 ls = Z.of_nat (length ls).
Proof.
  induction 1 as [| l ls Hl _ IH]; [done |].
  rewrite !true_losses_cons. simpl length.
  repeat case_bool_decide; lia.
Qed.

(** The counter of player [k] at the end of a Playing tick. *)
Lemma tick_losses_step_fixed gs (k : nat) :
  phase gs = Playing -> wf_grid (grid gs) -> (k < length (players gs))%nat ->
  tick_losses (players (step_fixed gs) !!! k)
  = u8 (true_losses (Z.of_nat k)
          (losers (Z.to_nat (pairs_per_tick (cfg gs)))
             (reset_stage (tick_stage gs)))).
Proof.
  intros Hph Hwf Hk.
  destruct (step_fixed_playing gs Hph Hwf) as (_ & _ & _ & _ & _ & _ & Hl & Ht).
  rewrite <- (list_lookup_total_fmap tick_losses (players (step_fixed gs)) k)
    by lia.
  rewrite Ht.
  unfold after_combat, combat_stage.
  rewrite resolve_pairs_players, iter_pair_attempt_players.
  change (cfg (reset_stage (tick_stage gs))) with (cfg gs).
  assert (Hlen : (k < length (players (reset_stage (tick_stage gs))))%nat).
  { simpl. by rewrite length_fmap. }
  assert (Hz : tick_losses (players (reset_stage (tick_stage gs)) !!! k) = 0).
  { simpl. by rewrite (list_lookup_total_fmap (set_tick_losses 0)). }
  match goal with |- context [foldl lose ?ps ?ls] =>
    rewrite (list_lookup_total_fmap tick_losses (foldl lose ps ls) k)
      by (by rewrite length_foldl_lose)
  end.
  rewrite foldl_lose_tick_losses; [| | done | lia].
  - by rewrite Hz.
  - apply losers_ok. simpl. apply Hwf.
Qed.

Lemma last_battles_step_fixed gs :
  phase gs = Playing -> wf_grid (grid gs) ->
  last_battles (step_fixed gs)
  = Z.of_nat (length (losers (Z.to_nat (pairs_per_tick (cfg gs)))
                        (reset_stage (tick_stage gs)))).
Proof.
  intros Hph Hwf.
  destruct (step_fixed_playing gs Hph Hwf) as (-> & _).
  pose proof (ai_stage_stats (before_ai gs)) as Hs.
  apply (f_equal (fun s => s.1.1.1)) in Hs. simpl in Hs. rewrite Hs.
  unfold before_ai.
  destruct (verdict_stage_frame (combat_stage (reset_stage (tick_stage gs))))
    as (_ & _ & _ & _ & _ & _ & -> & _).
  unfold combat_stage. by rewrite resolve_pairs_battles.
Qed.

Lemma reached_walled cs : walled (run_commands initial_state cs).
Proof. apply run_commands_walled, load_level1_walled. Qed.

Lemma reached_level_inv cs : level_inv (run_commands initial_state cs).
Proof. apply level_inv_run_commands, level_inv_initial_state. Qed.

(** X12.  In every Playing tick of a game the number of battles shown by
    the debug window is the number of duels fought, each of which costs
    player 0 or player 1 one loss; so the two loss counters add up to the
    battles of the tick, modulo 256 each, and exactly when fewer than 256
    battles took place. *)
Theorem battles_are_losses cs :
  let s := run_commands initial_state cs in
  let s' := step_fixed s in
  let ls :=
    losers (Z.to_nat (pairs_per_tick (cfg s))) (reset_stage (tick_stage s)) in
  phase s = Playing ->
  last_battles s' = Z.of_nat (length ls)
  /\ last_battles s' = true_losses 0 ls + true_losses 1 ls
  /\ tick_losses (players s' !!! 0%nat) = u8 (true_losses 0 ls)
  /\ tick_losses (players s' !!! 1%nat) = u8 (true_losses 1 ls)
  /\ (last_battles s' < 256 ->
      tick_losses (players s' !!! 0%nat) + tick_losses (players s' !!! 1%nat)
      = last_battles s').
Proof.
  intros s s' ls Hph.
  destruct (reached_walled cs) as [Hwf _]. fold s in Hwf.
  pose proof (reached_level_inv cs) as Hinv. fold s in Hinv.
  destruct (level_inv_length _ _ Hinv) as [Lp _].
  assert (Hb : last_battles s' = Z.of_nat (length ls))
    by (by apply last_battles_step_fixed).
  assert (Hsum : true_losses 0 ls + true_losses 1 ls = Z.of_nat (length ls)).
  { by apply true_losses_split, losers_level, level_inv_reset_stage. }
  assert (H0 : tick_losses (players s' !!! 0%nat) = u8 (true_losses 0 ls)).
  { apply (tick_losses_step_fixed s 0); [done | done | lia]. }
  assert (H1 : tick_losses (players s' !!! 1%nat) = u8 (true_losses 1 ls)).
  { apply (tick_losses_step_fixed s 1); [done | done | lia]. }
  split; [exact Hb |]. split; [lia |]. split; [exact H0 |].
  split; [exact H1 |]. intros Hlt.
  pose proof (true_losses_nonneg 0 ls). pose proof (true_losses_nonneg 1 ls).
  rewrite H0, H1, !u8_small by lia. lia.
Qed.

(** ** A tick played with the dominant piece *)

Lemma territory_set_at k g x y c :
  (Z.to_nat (idx x y) < length g)%nat ->
  territory (set_at g x y c) k
  + (if decide (kind (cell_at g x y) = Symbol /\ v (owner (cell_at g x y)) = k)
     then 1 else 0)
  = territory g k
    + (if decide (kind c = Symbol /\ v (owner c) = k) then 1 else 0).
Proof.
  intros Hi. unfold territory, set_at, cell_at.
  pose proof (filter_length_insert
                (fun c => kind c = Symbol /\ v (owner c) = k) g _ c _
                (list_lookup_lookup_total_lt g _ Hi)) as H.
  cbv beta in H. repeat case_decide; lia.
Qed.

Lemma resolve_pair_duel_grid gs x y nx ny l :
  let a := cell_at (grid gs) x y in
  let b := cell_at (grid gs) nx ny in
  duel_loser gs x y nx ny = Some l ->
  (l = owner b /\ grid (resolve_pair gs x y nx ny) = set_at (grid gs) nx ny a)
  \/ (l = owner a
      /\ grid (resolve_pair gs x y nx ny) = set_at (grid gs) x y b).
Proof.
  intros a b. unfold resolve_pair, duel_loser. fold a b.
  destruct (in_bounds nx ny); simpl; [| done].
  destruct (rngu_frame gs) as (Hg & _).
  destruct (rngu gs) as [r gs1]; simpl in Hg |- *.
  rewrite a_wins_beats.
  destruct (kind a), (kind b); simpl; try done.
  destruct (v (owner a) =? v (owner b)); [done |].
  destruct (bool_decide (piece a = piece b));
    [destruct (negb _) | destruct (beats _ _)];
    intros [= <-]; rewrite record_loss_grid; simpl; rewrite ?Hg; auto.
Qed.

Lemma resolve_pair_calm gs x y nx ny :
  level_inv gs -> in_bounds x y = true ->
  duel_loser gs x y nx ny = None ->
  grid (resolve_pair gs x y nx ny) = grid gs.
Proof.
  intros H Hxy. destruct (level_inv_length _ _ H) as [_ Lg].
  destruct H as (_ & Hk & _).
  unfold resolve_pair, duel_loser.
  destruct (in_bounds nx ny) eqn:Hn; simpl; [| done].
  pose proof (kind_no_empty _ (Z.to_nat (idx x y)) Hk) as Ea.
  pose proof (kind_no_empty _ (Z.to_nat (idx nx ny)) Hk) as Eb.
  rewrite Lg in Ea, Eb.
  specialize (Ea (idx_lt _ _ Hxy)). specialize (Eb (idx_lt _ _ Hn)).
  unfold cell_at.
  destruct (kind (grid gs !!! Z.to_nat (idx x y))),
    (kind (grid gs !!! Z.to_nat (idx nx ny))); simpl; try done.
  destruct (_ =? _); [done |].
  destruct (bool_decide _); [destruct (negb _) | destruct (beats _ _)]; done.
Qed.

(** Player [k] shows the piece that beats the piece of the other player. *)
Lemma duel_loser_dominated (k : nat) gs x y nx ny l :
  level_inv gs -> (k < 2)%nat ->
  beats (current (players gs !!! k)) (current (players gs !!! (1 - k)%nat))
  = true ->
  duel_loser gs x y nx ny = Some l ->
  v l = Z.of_nat (1 - k)
  /\ forall c, c = cell_at (grid gs) x y \/ c = cell_at (grid gs) nx ny ->
       (v (owner c) = Z.of_nat k \/ v (owner c) = Z.of_nat (1 - k))
       /\ (l = owner c -> v (owner c) = Z.of_nat (1 - k)).
Proof.
  intros (_ & _ & Hs) Hk Hb H.
  destruct (duel_loser_cells _ _ _ _ _ _ H) as (Hn & Ka & Kb & Hne & _).
  pose proof (synced_lookup_total _ _ (Z.to_nat (idx x y)) Hs Ka) as Sa.
  pose proof (synced_lookup_total _ _ (Z.to_nat (idx nx ny)) Hs Kb) as Sb.
  revert H. unfold duel_loser. rewrite Hn. unfold cell_at in *.
  set (a := grid gs !!! Z.to_nat (idx x y)) in *.
  set (b := grid gs !!! Z.to_nat (idx nx ny)) in *.
  rewrite Ka, Kb. simpl.
  destruct (Z.eqb_spec (v (owner a)) (v (owner b))) as [? | _]; [done |].
  set (c0 := current (players gs !!! 0%nat)) in *.
  set (c1 := current (players gs !!! 1%nat)) in *.
  assert (Hc : forall c, c = a \/ c = b ->
            v (owner c) = 0 \/ v (owner c) = 1).
  { intros c [-> | ->]; [destruct Sa as [[-> _] | [-> _]]
                        | destruct Sb as [[-> _] | [-> _]]]; auto. }
  destruct k as [| [| k]]; [| | lia]; simpl in Hb; fold c0 c1 in Hb;
    destruct Sa as [[Oa Pa] | [Oa Pa]], Sb as [[Ob Pb] | [Ob Pb]];
    rewrite Oa, Ob in Hne; try done; rewrite Pa, Pb;
    destruct c0, c1; try discriminate Hb; simpl;
    intros [= <-]; rewrite ?Oa, ?Ob; simpl;
    (split; [done |]); intros c Hc'; specialize (Hc c Hc');
    (split; [lia |]); destruct Hc' as [-> | ->]; rewrite ?Oa, ?Ob;
    try done; intros E; rewrite <- E; by rewrite ?Oa, ?Ob.
Qed.

Lemma resolve_pair_dominated (k : nat) gs x y nx ny :
  level_inv gs -> (k < 2)%nat -> in_bounds x y = true ->
  beats (current (players gs !!! k)) (current (players gs !!! (1 - k)%nat))
  = true ->
  territory (grid (resolve_pair gs x y nx ny)) (Z.of_nat k)
  = territory (grid gs) (Z.of_nat k)
    + match duel_loser gs x y nx ny with Some _ => 1 | None => 0 end.
Proof.
  intros H Hk Hxy Hb. destruct (level_inv_length _ _ H) as [_ Lg].
  destruct (duel_loser gs x y nx ny) as [l |] eqn:E;
    [| rewrite resolve_pair_calm by done; lia].
  destruct (duel_loser_cells _ _ _ _ _ _ E) as (Hn & Ka & Kb & Hne & _).
  destruct (duel_loser_dominated k _ _ _ _ _ _ H Hk Hb E) as (Hl & Hc).
  destruct (Hc _ (or_introl eq_refl)) as [Oa La].
  destruct (Hc _ (or_intror eq_refl)) as [Ob Lb].
  pose proof (idx_lt _ _ Hxy) as Ix. pose proof (idx_lt _ _ Hn) as In.
  rewrite <- Lg in Ix, In.
  destruct (resolve_pair_duel_grid _ _ _ _ _ _ E) as [[El ->] | [El ->]].
  - specialize (Lb El).
    pose proof (territory_set_at (Z.of_nat k) (grid gs) nx ny
                  (cell_at (grid gs) x y) In) as T.
    repeat case_decide; try lia; exfalso; intuition lia.
  - specialize (La El).
    pose proof (territory_set_at (Z.of_nat k) (grid gs) x y
                  (cell_at (grid gs) nx ny) Ix) as T.
    repeat case_decide; try lia; exfalso; intuition lia.
Qed.

Lemma current_resolve_pair gs x y nx ny j :
  current (players (resolve_pair gs x y nx ny) !!! j)
  = current (players gs !!! j).
Proof.
  rewrite resolve_pair_players. case_match; [apply current_lose | done].
Qed.

Lemma losers_dominated (k : nat) n : forall gs,
  level_inv gs -> (k < 2)%nat ->
  beats (current (players gs !!! k)) (current (players gs !!! (1 - k)%nat))
  = true ->
  Forall (fun l => v l = Z.of_nat (1 - k)) (losers n gs)
  /\ forall stats,
       territory (grid (Nat.iter n pair_attempt (gs, stats)).1) (Z.of_nat k)
       = territory (grid gs) (Z.of_nat k) + Z.of_nat (length (losers n gs)).
Proof.
  induction n as [| n IH]; intros gs H Hk Hb.
  { split; [constructor | intros; simpl; lia]. }
  simpl losers.
  destruct (pick_pair gs) as [[[[x y] nx] ny] gs1] eqn:Hp.
  destruct (pick_pair_frame _ _ _ _ _ _ Hp) as (Hxy & Hg & Hpl & _).
  assert (H1 : level_inv gs1) by (unfold level_inv; by rewrite Hg, Hpl).
  assert (Hb1 : beats (current (players gs1 !!! k))
                  (current (players gs1 !!! (1 - k)%nat)) = true)
    by (by rewrite Hpl).
  pose proof (resolve_pair_dominated k gs1 x y nx ny H1 Hk Hxy Hb1) as T.
  destruct (IH (resolve_pair gs1 x y nx ny)) as [F I].
  { by apply level_inv_resolve_pair. }
  { done. }
  { by rewrite !current_resolve_pair. }
  split.
  - apply Forall_app. split; [| exact F].
    destruct (duel_loser gs1 x y nx ny) as [l |] eqn:E; [| constructor].
    constructor; [| constructor].
    by destruct (duel_loser_dominated k _ _ _ _ _ _ H1 Hk Hb1 E).
  - intros stats. rewrite Nat.iter_succ_r. unfold pair_attempt at 2.
    rewrite Hp, I, T, Hg, length_app.
    destruct (duel_loser gs1 x y nx ny); simpl; lia.
Qed.

Lemma territory_repaint g pid cur k :
  territory (repaint_cell pid cur <$> g) k = territory g k.
Proof.
  unfold territory. f_equal.
  pose proof (filter_length_fmap (repaint_cell pid cur)
                (fun c => kind c = Symbol /\ v (owner c) = k) g) as H.
  cbv beta in H. rewrite H. f_equal. apply list_filter_iff.
  intros c. by rewrite repaint_cell_kind, repaint_cell_owner.
Qed.

Lemma territory_ai_stage gs k :
  length (grid gs) = 960%nat ->
  territory (grid (ai_stage gs)) k = territory (grid gs) k.
Proof.
  intros L. unfold ai_stage. case_match; [| done].
  destruct (update_albert_ai_grid gs 1 L) as [-> | ->];
    [done | apply territory_repaint].
Qed.

Lemma true_losses_none k ls :
  Forall (fun l => v l <> k) ls -> true_losses k ls = 0.
Proof.
  induction 1 as [| l ls Hl _ IH]; [done |].
  rewrite true_losses_cons, IH. by rewrite bool_decide_eq_false_2.
Qed.

(** X13.  A Playing tick of a game in which the current piece of one
    player beats the current piece of the other: the player with the
    winning piece loses no duel, so its loss counter ends the tick at 0,
    and every battle of the tick moves one cell from the other player to
    it. *)
Theorem dominant_piece_wins_every_battle cs (k : nat) :
  let s := run_commands initial_state cs in
  let s' := step_fixed s in
  phase s = Playing -> (k < 2)%nat ->
  beats (current (players s !!! k)) (current (players s !!! (1 - k)%nat))
  = true ->
  tick_losses (players s' !!! k) = 0
  /\ tick_losses (players s' !!! (1 - k)%nat) = u8 (last_battles s')
  /\ territory (grid s') (Z.of_nat k)
     = territory (grid s) (Z.of_nat k) + last_battles s'
  /\ territory (grid s') (Z.of_nat (1 - k))
     = territory (grid s) (Z.of_nat (1 - k)) - last_battles s'.
Proof.
  intros s s' Hph Hk Hb. subst s'.
  destruct (reached_walled cs) as [Hwf _]. fold s in Hwf.
  pose proof (reached_level_inv cs) as Hinv. fold s in Hinv.
  destruct (level_inv_length _ _ Hinv) as [Lp Lg].
  pose proof (level_inv_reset_stage s Hinv) as Hinv0.
  set (s0 := reset_stage (tick_stage s)) in *.
  set (n := Z.to_nat (pairs_per_tick (cfg s))).
  assert (Hb0 : beats (current (players s0 !!! k))
                  (current (players s0 !!! (1 - k)%nat)) = true).
  { subst s0. cbn [players reset_stage tick_stage set_players set_tick].
    by rewrite !(list_lookup_total_fmap (set_tick_losses 0)) by lia. }
  destruct (losers_dominated k n s0 Hinv0 Hk Hb0) as [F T].
  assert (Hlb : last_battles (step_fixed s) = Z.of_nat (length (losers n s0)))
    by (by apply last_battles_step_fixed).
  assert (Hsum : true_losses 0 (losers n s0) + true_losses 1 (losers n s0)
                 = Z.of_nat (length (losers n s0))).
  { by apply true_losses_split, losers_level. }
  assert (Hz : true_losses (Z.of_nat k) (losers n s0) = 0).
  { apply true_losses_none. revert F. apply List.Forall_impl. lia. }
  assert (Hk' : tick_losses (players (step_fixed s) !!! k) = 0).
  { rewrite (tick_losses_step_fixed s k) by (done || lia).
    fold s0 n. by rewrite Hz. }
  assert (Ho : tick_losses (players (step_fixed s) !!! (1 - k)%nat) = u8 (last_battles (step_fixed s))).
  { rewrite (tick_losses_step_fixed s (1 - k)) by (done || lia).
    fold s0 n. f_equal. rewrite Hlb.
    destruct k as [| [| k]]; [| | lia].
    - change (Z.of_nat (1 - 0)) with 1. change (Z.of_nat 0) with 0 in Hz. lia.
    - change (Z.of_nat (1 - 1)) with 0. change (Z.of_nat 1) with 1 in Hz. lia. }
  assert (Ht : territory (grid (step_fixed s)) (Z.of_nat k)
               = territory (grid s) (Z.of_nat k) + last_battles (step_fixed s)).
  { rewrite Hlb.
    destruct (step_fixed_playing s Hph Hwf) as (E & _). rewrite E.
    destruct (level_inv_length _ _ (level_inv_after_combat s Hinv))
      as [_ Lg'].
    assert (Eg : grid (before_ai s) = grid (after_combat s))
      by apply (proj1 (verdict_stage_frame (after_combat s))).
    rewrite territory_ai_stage by (rewrite Eg; exact Lg').
    rewrite Eg. unfold after_combat, combat_stage.
    rewrite resolve_pairs_grid.
    change (cfg (reset_stage (tick_stage s))) with (cfg s).
    fold s0 n. by rewrite T. }
  split; [exact Hk' |]. split; [exact Ho |]. split; [exact Ht |].
  assert (Z1 : territory (grid s) 0 + territory (grid s) 1 = 836).
  { destruct Hinv as (_ & Hkd & Hs). rewrite (territory_sum _ _ Hs).
    unfold level1_kinds in Hkd. rewrite (census_kinds Symbol _ _ Hkd).
    apply level1_kinds_census. }
  assert (Z2 : territory (grid (step_fixed s)) 0 + territory (grid (step_fixed s)) 1 = 836).
  { destruct (level_inv_step_fixed s Hinv) as (_ & Hkd & Hs).
    rewrite (territory_sum _ _ Hs).
    unfold level1_kinds in Hkd. rewrite (census_kinds Symbol _ _ Hkd).
    apply level1_kinds_census. }
  destruct k as [| [| k]]; [| | lia].
  - change (Z.of_nat (1 - 0)) with 1 in *. change (Z.of_nat 0) with 0 in *.
    lia.
  - change (Z.of_nat (1 - 1)) with 0 in *. change (Z.of_nat 1) with 1 in *.
    lia.
Qed.

(** ** The human rotation *)

Lemma next_piece_cycle p :
  next_piece (next_piece (next_piece p)) = p /\ next_piece p <> p.
Proof. by destruct p. Qed.

Lemma key_space_rotation gs :
  let cur := next_piece (current (players gs !!! 0%nat)) in
  let gs' := key_space gs in
  phase gs = Playing -> length (grid gs) = 960%nat ->
  (0 < length (players gs))%nat ->
  phase gs' = Playing /\ tick gs' = tick gs /\ rng16 gs' = rng16 gs
  /\ grid gs' = repaint_cell 0 cur <$> grid gs
  /\ current (players gs' !!! 0%nat) = cur
  /\ last_rot_tick (players gs' !!! 0%nat) = tick gs
  /\ (forall k, k <> 0%nat -> players gs' !! k = players gs !! k)
  /\ length (players gs') = length (players gs).
Proof.
  intros cur gs' Hph L Lp. subst gs'. unfold key_space. rewrite Hph.
  cbn [phase tick rng16 grid players set_grid set_players].
  fold cur. rewrite repaint_fmap by exact L.
  rewrite list_lookup_total_alter, decide_True by (split; [done | lia]).
  rewrite length_alter.
  split_and!; try reflexivity; [exact Hph |].
  intros k Hk. by apply list_lookup_alter_ne.
Qed.

Lemma repaint_cell_thrice c p :
  (kind c = Symbol -> v (owner c) = 0 -> piece c = p) ->
  repaint_cell 0 p
    (repaint_cell 0 (next_piece (next_piece p))
       (repaint_cell 0 (next_piece p) c)) = c.
Proof.
  intros H. destruct c as [k o q]. unfold repaint_cell. simpl in *.
  destruct k; simpl; try done.
  destruct (v o =? 0) eqn:E; simpl; rewrite ?E; simpl; rewrite ?E; simpl;
    [| done].
  rewrite H; [done | done | by apply Z.eqb_eq].
Qed.

(** X14.  Three presses of SPACE during play bring the game back where it
    was: the piece of player 0 has gone round Rock, Paper, Scissors, the
    grid is cell for cell the grid before the first press, player 1 and the
    generator were never touched.  One press does change the piece. *)
Theorem three_rotations_restore cs :
  let s := run_commands initial_state cs in
  let s1 := key_space s in
  let s3 := key_space (key_space s1) in
  phase s = Playing ->
  phase s3 = Playing /\ grid s3 = grid s
  /\ current (players s3 !!! 0%nat) = current (players s !!! 0%nat)
  /\ current (players s1 !!! 0%nat) <> current (players s !!! 0%nat)
  /\ last_rot_tick (players s3 !!! 0%nat) = tick s
  /\ players s3 !! 1%nat = players s !! 1%nat
  /\ rng16 s3 = rng16 s /\ tick s3 = tick s.
Proof.
  intros s s1 s3 Hph. subst s1 s3.
  pose proof (reached_level_inv cs) as Hinv. fold s in Hinv.
  destruct (level_inv_length _ _ Hinv) as [Lp Lg].
  destruct Hinv as (_ & _ & Hs).
  set (c0 := current (players s !!! 0%nat)) in *.
  destruct (key_space_rotation s Hph Lg)
    as (P1 & T1 & R1 & G1 & C1 & _ & F1 & L1); [lia |].
  set (s1 := key_space s) in *.
  destruct (key_space_rotation s1 P1)
    as (P2 & T2 & R2 & G2 & C2 & _ & F2 & L2);
    [by rewrite G1, length_fmap | lia |].
  set (s2 := key_space s1) in *.
  destruct (key_space_rotation s2 P2)
    as (P3 & T3 & R3 & G3 & C3 & Lr & F3 & L3);
    [by rewrite G2, length_fmap, G1, length_fmap | lia |].
  set (s3 := key_space s2) in *.
  fold c0 in C1, G1. rewrite C1 in C2, G2. rewrite C2 in C3, G3.
  destruct (next_piece_cycle c0) as [Hc Hn]. rewrite Hc in C3, G3.
  split; [exact P3 |]. split; [| split; [exact C3 |]].
  - rewrite G3, G2, G1, <- !list_fmap_compose.
    rewrite <- (list_fmap_id (grid s)) at 2.
    apply list_fmap_ext. intros i c Hi. unfold compose, Datatypes.id.
    apply repaint_cell_thrice. intros Hk Ho.
    destruct (proj1 (Forall_lookup _ _) Hs i c Hi Hk) as [[_ E] | [E _]];
      [exact E |].
    rewrite E in Ho. discriminate Ho.
  - split; [by rewrite C1 |]. split; [congruence |].
    split; [by rewrite F3, F2, F1 |]. split; congruence.
Qed.

(** ** Restarting a finished level *)

Lemma initial_state_eq :
  grid initial_state = level1_grid Rock Scissors
  /\ players initial_state
     = [mkPlayerState (mkPlayerId 0) Rock 0 0 0 0;
        mkPlayerState (mkPlayerId 1) Scissors 0 0 0 0]
  /\ phase initial_state = Ready /\ tick initial_state = 0
  /\ rng16 initial_state = 44257.
Proof.
  unfold initial_state. rewrite load_level1_level1_grid.
  split; [reflexivity |].
  by destruct (load_level1_frame
                 (mkGameState clear (mkGameConfig 240 15) 0 44257
                    [mkPlayerState (mkPlayerId 0) Rock 0 0 0 0;
                     mkPlayerState (mkPlayerId 1) Scissors 0 0 0 0]
                    1 Ready 0 false 0%nat 0 0 0 (mkAlbertConfig 58 43)))
    as (-> & -> & -> & -> & _).
Qed.

(** X15.  SPACE on a finished level (Won or Lost) of the two players of
    [main] puts the grid and the players back exactly as [main] had them
    at the start, in phase Ready at tick 0, where ticks do nothing until
    SPACE is pressed again.  The generator is not reseeded and the tuning
    is kept, so the next round is not a replay of the first. *)
Theorem restart_reloads_level gs :
  let r := key_space gs in
  phase gs = Won \/ phase gs = Lost ->
  id <$> players gs = [mkPlayerId 0; mkPlayerId 1] ->
  accel_ctr <$> players gs = [0; 0] ->
  phase r = Ready /\ tick r = 0
  /\ grid r = grid initial_state /\ players r = players initial_state
  /\ rng16 r = rng16 gs /\ gen_calls r = gen_calls gs
  /\ cfg r = cfg gs /\ albert_config r = albert_config gs
  /\ use_system_rng r = use_system_rng gs
  /\ step_fixed r = r /\ phase (key_space r) = Playing.
Proof.
  intros r Hph Hid Hac. subst r.
  destruct initial_state_eq as (Gi & Pi & _).
  rewrite Gi, Pi.
  set (F := fun p => set_rot_period 0 (set_last_rot_tick 0 (set_tick_losses 0 p))).
  set (s0 := set_players
               (F <$> alter (set_current Scissors) 1%nat
                        (alter (set_current Rock) 0%nat (players gs)))
               (set_tick 0 (set_phase Ready gs))).
  assert (E : key_space gs = load_level1 s0).
  { unfold key_space. by destruct Hph as [-> | ->]. }
  rewrite E.
  destruct (load_level1_frame s0) as (Fp & Fph & Ft & Fr & Fg & Fc & Fa & Fu & _).
  assert (Hp : players s0
               = [mkPlayerState (mkPlayerId 0) Rock 0 0 0 0;
                  mkPlayerState (mkPlayerId 1) Scissors 0 0 0 0]).
  { subst s0. cbn [players set_players].
    destruct (players gs) as [| [i0 c0 l0 t0 r0 a0] [| [i1 c1 l1 t1 r1 a1] ps]];
      try discriminate Hid.
    destruct ps; [| discriminate Hid].
    injection Hid as -> ->. injection Hac as -> ->. reflexivity. }
  assert (Hr : phase (load_level1 s0) = Ready) by (by rewrite Fph).
  split; [exact Hr |]. split; [by rewrite Ft |]. split.
  { rewrite load_level1_level1_grid, Hp. reflexivity. }
  split; [by rewrite Fp |]. split; [by rewrite Fr |].
  split; [by rewrite Fg |]. split; [by rewrite Fc |].
  split; [by rewrite Fa |]. split; [by rewrite Fu |]. split.
  - unfold step_fixed. by rewrite Hr.
  - unfold key_space. by rewrite Hr.
Qed.

(** ** The phases *)

Lemma phase_update_albert_ai gs i : phase (update_albert_ai gs i) = phase gs.
Proof.
  unfold update_albert_ai.
  set (gs1 := if rot_period (players gs !!! i) =? 0
              then draw_rot_period gs i else gs).
  assert (H1 : phase gs1 = phase gs).
  { subst gs1. case_match; [| done].
    by destruct (draw_rot_period_inv gs i) as (_ & (-> & _) & _). }
  case_match; [| exact H1].
  match goal with |- context [draw_rot_period ?s i] =>
    destruct (draw_rot_period_inv s i) as (_ & (-> & _) & _)
  end.
  exact H1.
Qed.

Lemma phase_step_fixed gs :
  phase (step_fixed gs) = phase gs
  \/ (phase gs = Playing
      /\ (phase (step_fixed gs) = Won \/ phase (step_fixed gs) = Lost)).
Proof.
  unfold step_fixed. destruct (phase gs) eqn:Hph; try (by left).
  rewrite ai_loop.
  assert (Ha : forall s, phase (ai_stage s) = phase s).
  { intros s. unfold ai_stage. case_match; [| done].
    apply phase_update_albert_ai. }
  rewrite Ha.
  fold (tick_stage gs). fold (reset_stage (tick_stage gs)).
  fold (combat_stage (reset_stage (tick_stage gs))).
  fold (after_combat gs).
  destruct (after_combat_inv gs) as (_ & Hp & _). rewrite Hph in Hp.
  repeat case_match; cbn [phase set_phase]; rewrite ?Hp; auto.
Qed.

(** X16.  The phase machine.  A command changes the phase in three ways
    only: SPACE starts a Ready level, SPACE sends a finished level (Won or
    Lost) back to Ready, and a tick ends a level that is being played.
    Outside Playing a tick returns the state unchanged, and no game ever
    reaches the phase GameWon. *)
Theorem phase_machine gs c :
  let p := phase gs in
  let p' := phase (run_command gs c) in
  (p' = p
   \/ (c = KeySpace /\ p = Ready /\ p' = Playing)
   \/ (c = KeySpace /\ (p = Won \/ p = Lost) /\ p' = Ready)
   \/ (c = Tick /\ p = Playing /\ (p' = Won \/ p' = Lost)))
  /\ (p <> Playing -> step_fixed gs = gs)
  /\ (forall cs, phase (run_commands initial_state cs) <> GameWon).
Proof.
  intros p p'.
  assert (H : forall gs c,
            phase (run_command gs c) = phase gs
            \/ (c = KeySpace /\ phase gs = Ready
                /\ phase (run_command gs c) = Playing)
            \/ (c = KeySpace /\ (phase gs = Won \/ phase gs = Lost)
                /\ phase (run_command gs c) = Ready)
            \/ (c = Tick /\ phase gs = Playing
                /\ (phase (run_command gs c) = Won
                    \/ phase (run_command gs c) = Lost))).
  { clear. intros gs c. destruct c; cbn [run_command];
      try (by left).
    - destruct (phase_step_fixed gs) as [E | E]; [by left |].
      right. right. right. by split.
    - unfold key_space. destruct (phase gs) eqn:Hph.
      + right. left. by split_and!.
      + by left.
      + right. right. left. split_and!; [done | by right |].
        match goal with |- phase (load_level1 ?s) = _ =>
          by rewrite (proj1 (proj2 (load_level1_frame s))) end.
      + right. right. left. split_and!; [done | by left |].
        match goal with |- phase (load_level1 ?s) = _ =>
          by rewrite (proj1 (proj2 (load_level1_frame s))) end.
      + by left.
    - unfold force_albert_rotation. case_match; left; reflexivity.
    - unfold reset_albert_timer. case_match; left; reflexivity.
    - unfold reset_albert_config. case_match; left; reflexivity. }
  split; [apply H |]. split.
  - intros Hp. subst p. unfold step_fixed. by destruct (phase gs).
  - intros cs.
    assert (G : forall gs, phase gs <> GameWon ->
              phase (run_commands gs cs) <> GameWon).
    { induction cs as [| c' cs IH]; intros gs0 H0; [done |].
      apply IH. destruct (H gs0 c') as [E | [E | [E | E]]];
        [congruence | | |]; destruct E as (_ & _ & E);
        [congruence | congruence | destruct E; congruence]. }
    apply G. by rewrite (proj1 (proj2 (proj2 initial_state_eq))).
Qed.

(** ** The LFSR is a bijection of the 16-bit states *)

Lemma testbit_1 n : Z.testbit 1 n = (n =? 0).
Proof. by destruct n. Qed.

Lemma testbit_lfsr16_step s n :
  Z.testbit s 16 = false -> 0 <= n ->
  Z.testbit (lfsr16_step s) n =
    if n <? 15 then Z.testbit s (n + 1)
    else if n =? 15
         then xorb (xorb (xorb (Z.testbit s 0) (Z.testbit s 2))
                      (Z.testbit s 3)) (Z.testbit s 5)
         else false.
Proof.
  intros Hs Hn. unfold lfsr16_step, u16. change 65536 with (2 ^ 16).
  rewrite Z.testbit_mod_pow2, Z.lor_spec, Z.shiftr_spec, Z.shiftl_spec,
    Z.land_spec, testbit_1 by lia.
  destruct (Z.ltb_spec n 15) as [H | H].
  - rewrite (proj2 (Z.ltb_lt n 16)) by lia.
    rewrite (proj2 (Z.eqb_neq (n - 15) 0)) by lia.
    by rewrite andb_false_r, orb_false_r.
  - destruct (Z.eqb_spec n 15) as [-> | H'].
    + change (15 + 1) with 16. rewrite Hs.
      change (15 - 15) with 0. change (0 =? 0) with true.
      change (15 <? 16) with true. cbn [andb orb].
      rewrite !Z.lxor_spec, !Z.shiftr_spec by lia.
      by rewrite andb_true_r.
    + by rewrite (proj2 (Z.ltb_ge n 16)) by lia.
Qed.

Lemma testbit_lfsr16_unstep s n :
  0 <= n ->
  Z.testbit (lfsr16_unstep s) n =
    if n =? 0
    then xorb (xorb (xorb (Z.testbit s 15) (Z.testbit s 1))
                 (Z.testbit s 2)) (Z.testbit s 4)
    else if n <? 16 then Z.testbit s (n - 1) else false.
Proof.
  intros Hn. unfold lfsr16_unstep, u16. change 65536 with (2 ^ 16).
  rewrite Z.lor_spec, Z.testbit_mod_pow2, Z.shiftl_spec, Z.land_spec,
    testbit_1 by lia.
  destruct (Z.eqb_spec n 0) as [-> | H].
  - change (0 =? 0) with true. change (0 <? 16) with true. cbn [andb].
    rewrite (Z.testbit_neg_r s (0 - 1)) by lia. cbn [orb].
    rewrite !Z.lxor_spec, !Z.shiftr_spec by lia.
    by rewrite andb_true_r.
  - rewrite andb_false_r, orb_false_r. by destruct (n <? 16).
Qed.

Lemma testbit_high s n : 0 <= s < 65536 -> 16 <= n -> Z.testbit s n = false.
Proof.
  intros Hs Hn. rewrite <- (Z.mod_small s (2 ^ 16)) by (change (2 ^ 16) with 65536; lia).
  apply Z.mod_pow2_bits_high. lia.
Qed.

Lemma lfsr16_unstep_range s : 0 <= lfsr16_unstep s < 65536.
Proof.
  assert (E : lfsr16_unstep s = lfsr16_unstep s mod 2 ^ 16).
  { apply Z.bits_inj'. intros n Hn.
    rewrite Z.testbit_mod_pow2, testbit_lfsr16_unstep by lia.
    destruct (Z.eqb_spec n 0) as [-> | H]; [done |].
    by destruct (n <? 16). }
  rewrite E. apply Z.mod_pos_bound. lia.
Qed.

Lemma lfsr16_unstep_step s : 0 <= s < 65536 -> lfsr16_unstep (lfsr16_step s) = s.
Proof.
  intros Hs. pose proof (testbit_high s 16 Hs ltac:(lia)) as H16.
  apply Z.bits_inj'. intros n Hn. rewrite testbit_lfsr16_unstep by done.
  destruct (Z.eqb_spec n 0) as [-> | H0].
  - rewrite !testbit_lfsr16_step by (done || lia).
    change (15 <? 15) with false. change (1 <? 15) with true.
    change (2 <? 15) with true. change (4 <? 15) with true.
    change (15 =? 15) with true. cbv iota.
    change (1 + 1) with 2. change (2 + 1) with 3. change (4 + 1) with 5.
    by destruct (Z.testbit s 0), (Z.testbit s 2), (Z.testbit s 3),
      (Z.testbit s 5).
  - destruct (Z.ltb_spec n 16) as [H | H].
    + rewrite testbit_lfsr16_step by (done || lia).
      rewrite (proj2 (Z.ltb_lt (n - 1) 15)) by lia. f_equal. lia.
    + symmetry. by apply testbit_high.
Qed.

Lemma lfsr16_step_unstep s : 0 <= s < 65536 -> lfsr16_step (lfsr16_unstep s) = s.
Proof.
  intros Hs.
  assert (H16 : Z.testbit (lfsr16_unstep s) 16 = false)
    by (by rewrite testbit_lfsr16_unstep).
  apply Z.bits_inj'. intros n Hn. rewrite testbit_lfsr16_step by done.
  destruct (Z.ltb_spec n 15) as [H | H].
  - rewrite testbit_lfsr16_unstep by lia.
    rewrite (proj2 (Z.eqb_neq (n + 1) 0)) by lia.
    rewrite (proj2 (Z.ltb_lt (n + 1) 16)) by lia. f_equal. lia.
  - destruct (Z.eqb_spec n 15) as [-> | H'].
    + rewrite !testbit_lfsr16_unstep by lia.
      change (0 =? 0) with true. change (2 =? 0) with false.
      change (3 =? 0) with false. change (5 =? 0) with false.
      change (2 <? 16) with true. change (3 <? 16) with true.
      change (5 <? 16) with true. cbv iota.
      change (2 - 1) with 1. change (3 - 1) with 2. change (5 - 1) with 4.
      by destruct (Z.testbit s 15), (Z.testbit s 1), (Z.testbit s 2),
        (Z.testbit s 4).
    + symmetry. apply testbit_high; [done | lia].
Qed.

(** X18.  [lfsr16_step] is a bijection of the 16-bit states: shifting
    left and putting back the bit that was shifted out undoes it.  Two
    different states never have the same successor, so the sequence of
    draws never merges into a shorter loop. *)
Theorem lfsr16_step_bijective :
  (forall s, 0 <= s < 65536 -> lfsr16_unstep (lfsr16_step s) = s)
  /\ (forall s, 0 <= s < 65536 ->
        0 <= lfsr16_unstep s < 65536 /\ lfsr16_step (lfsr16_unstep s) = s)
  /\ (forall s t, 0 <= s < 65536 -> 0 <= t < 65536 ->
        lfsr16_step s = lfsr16_step t -> s = t)
  /\ (forall n s, 0 <= s < 65536 ->
        Nat.iter n lfsr16_unstep (Nat.iter n lfsr16_step s) = s).
Proof.
  split; [apply lfsr16_unstep_step |]. split; [| split].
  - intros s Hs. split; [apply lfsr16_unstep_range | by apply lfsr16_step_unstep].
  - intros s t Hs Ht E.
    rewrite <- (lfsr16_unstep_step s Hs), <- (lfsr16_unstep_step t Ht).
    by rewrite E.
  - induction n as [| n IH]; intros s Hs; [done |].
    rewrite Nat.iter_succ_r, Nat.iter_succ.
    rewrite lfsr16_unstep_step; [by apply IH |].
    destruct n as [| n]; [exact Hs |].
    rewrite Nat.iter_succ. unfold lfsr16_step. apply Z.mod_pos_bound. lia.
Qed.

(** ** The ring buffer of the tuning window *)

Lemma sum_list_app l k : sum_list (l ++ k) = sum_list l + sum_list k.
Proof. induction l as [| x l IH]; simpl; [done |]. rewrite IH. lia. Qed.

Lemma sum_seq_lookup (l : list Z) : forall (pre : list Z) (a : Z),
  foldl (fun t i => t + (pre ++ l) !!! i) a (seq (length pre) (length l))
  = a + sum_list l.
Proof.
  induction l as [| x l IH]; intros pre a; simpl; [lia |].
  rewrite list_lookup_total_middle by done.
  replace (pre ++ x :: l) with ((pre ++ [x]) ++ l)
    by (by rewrite <- app_assoc).
  replace (S (length pre)) with (length (pre ++ [x]))
    by (rewrite length_app; simpl; lia).
  rewrite IH. lia.
Qed.

Lemma rotate_insert (b : list Z) (i : nat) (v : Z) :
  (i < length b)%nat ->
  let i' := ((i + 1) mod length b)%nat in
  drop i' (<[i := v]> b) ++ take i' (<[i := v]> b)
  = drop 1 (drop i b ++ take i b) ++ [v].
Proof.
  intros Hi i'. subst i'.
  destruct (lookup_lt_is_Some_2 b i Hi) as [x Hx].
  rewrite (drop_S b x i Hx). simpl. rewrite drop_0.
  destruct (decide (i + 1 < length b)%nat) as [H | H].
  - rewrite Nat.mod_small by done. replace (i + 1)%nat with (S i) by lia.
    rewrite drop_insert_lt by lia.
    rewrite (take_S_r _ _ v)
      by (rewrite list_lookup_insert, decide_True by done; done).
    rewrite take_insert_ge by lia. by rewrite app_assoc.
  - replace (i + 1)%nat with (length b) by lia.
    rewrite Nat.Div0.mod_same. simpl. rewrite drop_0, app_nil_r.
    rewrite insert_take_drop by done.
    rewrite !(drop_ge b (S i)) by lia. done.
Qed.

Lemma last_values_snoc n vs v :
  (1 <= n)%nat ->
  last_values n (vs ++ [v]) = drop 1 (last_values n vs) ++ [v].
Proof.
  intros Hn. unfold last_values.
  rewrite length_app, app_assoc, drop_app_le
    by (rewrite length_app, length_replicate; simpl; lia).
  by rewrite drop_drop.
Qed.

Lemma history_inv (gss : list GameState) :
  let h := foldl update_history CombatHistory0 gss in
  let i := (length gss mod 15)%nat in
  length (combat_history h) = 15%nat
  /\ history_index h = Z.of_nat i
  /\ drop i (combat_history h) ++ take i (combat_history h)
     = last_values 15 (last_battles <$> gss).
Proof.
  induction gss as [| gs gss IH] using rev_ind; [by split_and! |].
  cbv zeta in *. rewrite foldl_snoc, fmap_app, length_app.
  change (length [gs]) with 1%nat.
  change (last_battles <$> [gs]) with [last_battles gs].
  destruct IH as (L & I & R).
  set (h := foldl update_history CombatHistory0 gss) in *.
  set (i := (length gss mod 15)%nat) in *.
  assert (Hi : (i < 15)%nat) by (apply Nat.mod_upper_bound; lia).
  assert (Hi' : ((length gss + 1) mod 15 = (i + 1) mod 15)%nat).
  { subst i. by rewrite Nat.Div0.add_mod_idemp_l. }
  unfold update_history. cbn [combat_history history_index].
  rewrite I, Nat2Z.id, Hi'.
  split; [by rewrite length_insert |]. split.
  - rewrite Z.rem_mod_nonneg by lia.
    by rewrite Nat2Z.inj_mod, Nat2Z.inj_add.
  - rewrite last_values_snoc by lia. rewrite <- R.
    rewrite <- L at 1 2. apply rotate_insert. lia.
Qed.

(** X17.  The ring buffer behind "Combats per second": after any number
    of calls of [draw_tuning_ui] the total shown is the sum of
    [last_battles] over the last 15 calls (zeros standing for the calls
    that have not happened yet), the write index is the number of calls
    modulo 15 and so never leaves the 15 slots of the buffer. *)
Theorem combat_history_window (gss : list GameState) :
  let h := foldl update_history CombatHistory0 gss in
  total_combats h = sum_list (last_values 15 (last_battles <$> gss))
  /\ history_index h = Z.of_nat (length gss mod 15)
  /\ 0 <= history_index h < 15
  /\ length (combat_history h) = 15%nat.
Proof.
  intros h. destruct (history_inv gss) as (L & I & R). fold h in L, I, R.
  assert (Hi : (length gss mod 15 < 15)%nat) by (apply Nat.mod_upper_bound; lia).
  split; [| split; [exact I | split; [lia | exact L]]].
  rewrite <- R, sum_list_app, Z.add_comm, <- sum_list_app, take_drop.
  unfold total_combats.
  pose proof (sum_seq_lookup (combat_history h) [] 0) as H.
  rewrite L in H. simpl in H. exact H.
Qed.

(** ** The two generators *)

Lemma rng_idle_rngu u r n gs : rng_idle u r n gs -> rng_idle u r n (rngu gs).2.
Proof.
  unfold rng_idle, rngu. intros (<- & H1 & H2).
  destruct (use_system_rng gs) eqn:E; simpl; rewrite ?E; split_and!; auto;
    done.
Qed.

Lemma rng_idle_record_loss u r n l gs :
  rng_idle u r n gs -> rng_idle u r n (record_loss l gs).
Proof. unfold record_loss. by case_match. Qed.

Lemma rng_idle_resolve_pair u r n gs x y nx ny :
  rng_idle u r n gs -> rng_idle u r n (resolve_pair gs x y nx ny).
Proof.
  intros H. pose proof (rng_idle_rngu _ _ _ gs H) as Hr.
  unfold resolve_pair. destruct (rngu gs) as [r' gs1]. simpl in Hr.
  repeat case_match; try exact H; apply rng_idle_record_loss;
    (exact H || exact Hr).
Qed.

Lemma rng_idle_pick_pair u r n gs x y nx ny gs1 :
  pick_pair gs = (x, y, nx, ny, gs1) -> rng_idle u r n gs -> rng_idle u r n gs1.
Proof.
  unfold pick_pair. intros Hp H.
  pose proof (rng_idle_rngu _ _ _ gs H) as H1.
  destruct (rngu gs) as [r1 g1]; simpl in H1.
  pose proof (rng_idle_rngu _ _ _ g1 H1) as H2.
  destruct (rngu g1) as [r2 g2]; simpl in H2.
  pose proof (rng_idle_rngu _ _ _ g2 H2) as H3.
  destruct (rngu g2) as [r3 g3]; simpl in H3.
  destruct (pick_neighbor _ _ _). by injection Hp as <- <- <- <- <-.
Qed.

Lemma rng_idle_pair_attempt u r n gs stats :
  rng_idle u r n gs -> rng_idle u r n (pair_attempt (gs, stats)).1.
Proof.
  intros H. unfold pair_attempt.
  destruct (pick_pair gs) as [[[[x y] nx] ny] gs1] eqn:Hp. simpl.
  apply rng_idle_resolve_pair. by eapply rng_idle_pick_pair.
Qed.

Lemma rng_idle_resolve_pairs u r n gs count :
  rng_idle u r n gs -> rng_idle u r n (resolve_pairs gs count).
Proof.
  intros H. unfold resolve_pairs.
  assert (Hi : forall k,
            rng_idle u r n
              (Nat.iter k pair_attempt (gs, mkPairStats 0 0 0)).1).
  { induction k as [| k IH]; simpl; [done |].
    destruct (Nat.iter k pair_attempt (gs, mkPairStats 0 0 0)) as [g1 s1].
    by apply rng_idle_pair_attempt. }
  specialize (Hi (Z.to_nat count)).
  by destruct (Nat.iter (Z.to_nat count) pair_attempt _).
Qed.

Lemma rng_idle_draw_rot_period u r n gs i :
  rng_idle u r n gs -> rng_idle u r n (draw_rot_period gs i).
Proof.
  intros H. rewrite draw_rot_period_eq. by apply rng_idle_rngu in H.
Qed.

Lemma rng_idle_update_albert_ai u r n gs i :
  rng_idle u r n gs -> rng_idle u r n (update_albert_ai gs i).
Proof.
  intros H. unfold update_albert_ai.
  set (gs1 := if rot_period (players gs !!! i) =? 0
              then draw_rot_period gs i else gs).
  assert (H1 : rng_idle u r n gs1).
  { subst gs1. case_match; [by apply rng_idle_draw_rot_period | done]. }
  case_match; [| done]. by apply rng_idle_draw_rot_period.
Qed.

Lemma rng_idle_step_fixed u r n gs :
  rng_idle u r n gs -> rng_idle u r n (step_fixed gs).
Proof.
  intros H. unfold step_fixed.
  destruct (phase gs); [exact H | | exact H | exact H | exact H].
  apply foldl_inv.
  - intros a i Ha. case_match; [by apply rng_idle_update_albert_ai | done].
  - match goal with |- context [resolve_pairs ?s ?c] =>
      pose proof (rng_idle_resolve_pairs u r n s c H) as Hr;
      generalize dependent (resolve_pairs s c) end.
    intros s Hr. repeat case_match; exact Hr.
Qed.

Lemma rng_idle_load_level1 u r n gs :
  rng_idle u r n gs -> rng_idle u r n (load_level1 gs).
Proof.
  unfold rng_idle.
  destruct (load_level1_frame gs) as (_ & _ & _ & -> & -> & _ & _ & -> & _).
  done.
Qed.

Lemma rng_idle_run_command u r n gs c :
  rng_idle u r n gs ->
  (forall b, c <> SetUseSystemRng b) ->
  rng_idle u r n (run_command gs c).
Proof.
  intros H Hc.
  destruct c; cbn [run_command];
    [by apply rng_idle_step_fixed | | | | | exact H | exact H | exact H
     | exact H | exact H | by destruct (Hc b)].
  - unfold key_space.
    destruct (phase gs);
      [exact H | exact H | by apply rng_idle_load_level1
       | by apply rng_idle_load_level1 | exact H].
  - unfold force_albert_rotation. case_match; exact H.
  - unfold reset_albert_timer. case_match; exact H.
  - unfold reset_albert_config. case_match; exact H.
Qed.

(** X19.  The two generators never mix.  Every draw is a 16-bit value, so
    the conversions to [uint16_t] at the call sites lose nothing.  While
    the system generator is switched on, no command moves the LFSR
    state, which resumes where it stopped when the checkbox is cleared;
    while the LFSR is in use the system generator is never asked.  The
    checkbox itself touches neither. *)
Theorem generators_do_not_mix gs c :
  0 <= (rngu gs).1 < 65536
  /\ u16 (rngu gs).1 = (rngu gs).1
  /\ (use_system_rng gs = false -> (rngu gs).1 = lfsr16_step (rng16 gs))
  /\ (use_system_rng gs = true -> rng16 (run_command gs c) = rng16 gs)
  /\ (use_system_rng gs = false ->
      gen_calls (run_command gs c) = gen_calls gs).
Proof.
  assert (Hr : 0 <= (rngu gs).1 < 65536).
  { unfold rngu. destruct (use_system_rng gs); simpl.
    - change 65535 with (Z.ones 16). rewrite Z.land_ones by lia.
      apply Z.mod_pos_bound. lia.
    - apply lfsr16_step_range. }
  split; [exact Hr |]. split; [by apply u16_small |]. split.
  { intros Hu. unfold rngu. by rewrite Hu. }
  assert (H : rng_idle (use_system_rng gs) (rng16 gs) (gen_calls gs) gs)
    by (by split_and!).
  assert (Hc : (exists b, c = SetUseSystemRng b)
               \/ forall b, c <> SetUseSystemRng b).
  { destruct c; try (by right). left. by eexists. }
  destruct Hc as [[b ->] | Hn]; [by split |].
  destruct (rng_idle_run_command _ _ _ gs c H Hn) as (_ & H1 & H2).
  split; intros Hu; [by apply H1 | by apply H2].
Qed.

(** ** A level with one player left *)

Lemma sole_owner_lookup_total k g i :
  sole_owner k g -> kind (g !!! i) = Symbol -> v (owner (g !!! i)) = k.
Proof.
  intros H. destruct (decide (i < length g)%nat) as [Hi | Hi].
  - apply (Forall_lookup_total_1 _ _ i H Hi).
  - rewrite list_lookup_total_alt, lookup_ge_None_2 by lia.
    intros Hk. discriminate Hk.
Qed.

Lemma sole_owner_resolve_pair k gs x y nx ny :
  sole_owner k (grid gs) ->
  sole_owner k (grid (resolve_pair gs x y nx ny))
  /\ duel_loser gs x y nx ny = None.
Proof.
  intros H. split.
  - destruct (resolve_pair_grid_cases gs x y nx ny)
      as [E | [(_ & _ & _ & _ & E) | (_ & _ & _ & _ & E)]]; rewrite E.
    + exact H.
    + apply Forall_insert; [exact H |]. by apply sole_owner_lookup_total.
    + apply Forall_insert; [exact H |]. by apply sole_owner_lookup_total.
  - destruct (duel_loser gs x y nx ny) as [l |] eqn:E; [| done].
    destruct (duel_loser_cells _ _ _ _ _ _ E) as (_ & Ka & Kb & Hne & _).
    exfalso. apply Hne. unfold cell_at in *.
    by rewrite (sole_owner_lookup_total k _ _ H Ka),
      (sole_owner_lookup_total k _ _ H Kb).
Qed.

Lemma sole_owner_iter k n : forall gs stats,
  sole_owner k (grid gs) ->
  sole_owner k (grid (Nat.iter n pair_attempt (gs, stats)).1)
  /\ losers n gs = [].
Proof.
  induction n as [| n IH]; intros gs stats H; [done |].
  rewrite Nat.iter_succ_r. simpl losers. unfold pair_attempt at 2.
  destruct (pick_pair gs) as [[[[x y] nx] ny] gs1] eqn:Hp.
  apply pick_pair_frame in Hp as (_ & Hg & _). rewrite <- Hg in H.
  destruct (sole_owner_resolve_pair k gs1 x y nx ny H) as [H1 ->].
  destruct (IH (resolve_pair gs1 x y nx ny)
              (count_pair (grid gs1) x y nx ny stats) H1) as [H2 ->].
  done.
Qed.

Lemma sole_owner_territory k g :
  sole_owner k g ->
  territory g k = census Symbol g
  /\ forall j, j <> k -> territory g j = 0.
Proof.
  induction 1 as [| c g Hc _ [IH1 IH2]]; [done |]. split.
  - rewrite territory_cons, IH1. unfold census. rewrite filter_cons.
    destruct (decide (kind c = Symbol)) as [Hk | Hk];
      case_bool_decide as Hd; simpl length; try lia; exfalso; tauto.
  - intros j Hj. rewrite territory_cons, (IH2 j Hj).
    case_bool_decide as Hd; [| done]. destruct Hd as [Hk Ho].
    specialize (Hc Hk). congruence.
Qed.

Lemma sole_owner_ai_stage k gs :
  length (grid gs) = 960%nat ->
  sole_owner k (grid gs) -> sole_owner k (grid (ai_stage gs)).
Proof.
  intros L H. unfold ai_stage. case_match; [| done].
  destruct (update_albert_ai_grid gs 1 L) as [-> | ->]; [done |].
  apply Forall_fmap. revert H. apply List.Forall_impl.
  intros c Hc. unfold compose.
  by rewrite repaint_cell_kind, repaint_cell_owner.
Qed.

(** X20.  A Playing tick on a level where every Symbol cell belongs to
    one player, who holds at least one: no duel is fought, the territory
    of that player does not shrink, and the tick ends the level, Won when
    the player is player 0 and Lost when it is player 1. *)
Theorem last_player_standing gs (k : nat) :
  phase gs = Playing -> wf_grid (grid gs) -> (k < 2)%nat ->
  sole_owner (Z.of_nat k) (grid gs) ->
  0 < territory (grid gs) (Z.of_nat k) ->
  phase (step_fixed gs) = (if decide (k = 0%nat) then Won else Lost)
  /\ last_battles (step_fixed gs) = 0
  /\ sole_owner (Z.of_nat k) (grid (step_fixed gs))
  /\ territory (grid gs) (Z.of_nat k)
     <= territory (grid (step_fixed gs)) (Z.of_nat k).
Proof.
  intros Hph Hwf Hk Hs Ht.
  set (s0 := reset_stage (tick_stage gs)).
  set (n := Z.to_nat (pairs_per_tick (cfg gs))).
  destruct (sole_owner_iter (Z.of_nat k) n s0 (mkPairStats 0 0 0) Hs)
    as [Hs1 Hl].
  assert (Hg : grid (after_combat gs)
               = grid (Nat.iter n pair_attempt (s0, mkPairStats 0 0 0)).1).
  { unfold after_combat, combat_stage. by rewrite resolve_pairs_grid. }
  rewrite <- Hg in Hs1.
  assert (Hc : census Symbol (grid gs) <= census Symbol (grid (after_combat gs))).
  { rewrite Hg.
    pose proof (iter_pair_attempt_census n s0 (mkPairStats 0 0 0)) as H.
    cbv zeta in H. change (grid s0) with (grid gs) in H. lia. }
  destruct (sole_owner_territory _ _ Hs) as [T1 _].
  destruct (sole_owner_territory _ _ Hs1) as [T2 Z2].
  destruct (after_combat_inv gs) as (He & Hp & _).
  assert (L : length (grid (after_combat gs)) = 960%nat).
  { destruct He as (-> & _). apply Hwf. }
  destruct (step_fixed_playing gs Hph Hwf) as (E & Hph' & _).
  assert (Eg : grid (before_ai gs) = grid (after_combat gs))
    by apply (proj1 (verdict_stage_frame (after_combat gs))).
  split; [| split; [| split]].
  - rewrite Hph'. unfold before_ai. fold (after_combat gs).
    rewrite verdict_stage_phase by congruence.
    unfold lost_fires, won_fires.
    destruct k as [| [| k]]; [| | lia].
    + change (Z.of_nat 0) with 0 in *. rewrite (Z2 1) by done.
      rewrite (proj2 (Z.eqb_neq _ 0)) by lia. simpl.
      by rewrite (proj2 (Z.gtb_gt _ 0)) by lia.
    + change (Z.of_nat 1) with 1 in *. rewrite (Z2 0) by done.
      simpl. by rewrite (proj2 (Z.gtb_gt _ 0)) by lia.
  - rewrite last_battles_step_fixed by done. fold s0 n. by rewrite Hl.
  - rewrite E. apply sole_owner_ai_stage; rewrite Eg; done.
  - rewrite E, territory_ai_stage by (by rewrite Eg). rewrite Eg. lia.
Qed.

(** ** Albert and the wrap-around of the tick counter *)

Lemma update_albert_ai_waits gs i :
  let p := players gs !!! i in
  rot_period p <> 0 -> tick gs - last_rot_tick p < rot_period p ->
  update_albert_ai gs i = gs.
Proof.
  intros p Hr Hd. unfold update_albert_ai. fold p.
  rewrite (proj2 (Z.eqb_neq _ _) Hr). fold p.
  destruct (Z.geb_spec (tick gs - last_rot_tick p) (rot_period p)); [lia |].
  done.
Qed.

Lemma field_lose {B} (F : PlayerState -> B) ps l k :
  (forall n p, F (set_tick_losses n p) = F p) ->
  F (lose ps l !!! k) = F (ps !!! k).
Proof.
  intros H. unfold lose. case_match; [| done]. apply field_alter.
  intros p. apply H.
Qed.

Lemma field_foldl_lose {B} (F : PlayerState -> B) ls : forall ps k,
  (forall n p, F (set_tick_losses n p) = F p) ->
  F (foldl lose ps ls !!! k) = F (ps !!! k).
Proof.
  induction ls as [| l ls IH]; intros ps k H; simpl; [done |].
  by rewrite IH, field_lose.
Qed.

Lemma field_after_combat {B} (F : PlayerState -> B) gs k :
  (forall n p, F (set_tick_losses n p) = F p) ->
  (k < length (players gs))%nat ->
  F (players (after_combat gs) !!! k) = F (players gs !!! k).
Proof.
  intros H Hk. unfold after_combat, combat_stage.
  rewrite resolve_pairs_players, iter_pair_attempt_players.
  rewrite field_foldl_lose by done.
  cbn [players reset_stage tick_stage set_players set_tick].
  rewrite (list_lookup_total_fmap (set_tick_losses 0)) by done. apply H.
Qed.

(** The schedule of player 1 points past the end of the 16-bit tick
    counter. *)
Lemma step_fixed_frozen gs :
  let p := players gs !!! 1%nat in
  let p' := players (step_fixed gs) !!! 1%nat in
  (1 < length (players gs))%nat -> 0 <= tick gs < 65536 ->
  rot_period p <> 0 -> 65535 < last_rot_tick p + rot_period p ->
  (1 < length (players (step_fixed gs)))%nat
  /\ 0 <= tick (step_fixed gs) < 65536
  /\ current p' = current p /\ last_rot_tick p' = last_rot_tick p
  /\ rot_period p' = rot_period p.
Proof.
  intros p p' Hl Ht Hr Hw. subst p'. unfold step_fixed.
  destruct (phase gs); try (split_and!; (done || lia)).
  rewrite ai_loop.
  fold (tick_stage gs). fold (reset_stage (tick_stage gs)).
  fold (combat_stage (reset_stage (tick_stage gs))).
  fold (after_combat gs).
  destruct (after_combat_inv gs) as (_ & _ & Htk & _ & _ & Hlen).
  pose proof (u16_range (tick gs + 1)) as Hu.
  pose proof (field_after_combat current gs 1 ltac:(done) Hl) as Fc.
  pose proof (field_after_combat last_rot_tick gs 1 ltac:(done) Hl) as Fl.
  pose proof (field_after_combat rot_period gs 1 ltac:(done) Hl) as Fr.
  fold p in Fc, Fl, Fr.
  set (s := after_combat gs) in *. clearbody s.
  assert (H : forall s', players s' = players s -> tick s' = tick s ->
            ai_stage s' = s').
  { intros s' Ep Et. unfold ai_stage. case_match; [| done].
    apply update_albert_ai_waits; rewrite Ep, ?Et; [congruence | lia]. }
  repeat case_match; rewrite H by done;
    cbn [players tick set_phase]; split_and!; (congruence || lia).
Qed.

(** X21.  [update_albert_ai] compares [gs.tick - player.last_rot_tick]
    with the interval as integers, and the tick counter is 16 bits wide.
    When the rotation of player 1 is scheduled past tick 65535, the next
    ticks leave it waiting however many they are: the counter wraps back
    to 0 before the difference reaches the interval, and player 1 keeps
    its piece, its rotation tick and its interval. *)
Theorem albert_frozen_by_tick_wrap gs (n : nat) :
  let p := players gs !!! 1%nat in
  let p' := players (run_commands gs (repeat Tick n)) !!! 1%nat in
  (1 < length (players gs))%nat -> 0 <= tick gs < 65536 ->
  rot_period p <> 0 -> 65535 < last_rot_tick p + rot_period p ->
  current p' = current p /\ last_rot_tick p' = last_rot_tick p
  /\ rot_period p' = rot_period p.
Proof.
  intros p p'. subst p p'. revert gs.
  induction n as [| n IH]; intros gs Hl Ht Hr Hw; [done |].
  change (run_commands gs (repeat Tick (S n)))
    with (run_commands (step_fixed gs) (repeat Tick n)).
  destruct (step_fixed_frozen gs Hl Ht Hr Hw) as (Hl' & Ht' & Ec & El & Er).
  destruct (IH (step_fixed gs) Hl' Ht') as (Ec' & El' & Er').
  - by rewrite Er.
  - by rewrite El, Er.
  - split_and!; congruence.
Qed.

(** ** The period of the LFSR *)

Lemma watch_fst n p : (Nat.iter n watch p).1 = Nat.iter n lfsr16_step p.1.
Proof. induction n as [| n IH]; [done |]. simpl. by rewrite IH. Qed.

Lemma watch_mono n p : p.2 <= (Nat.iter n watch p).2.
Proof.
  induction n as [| n IH]; simpl; [lia |]. case_match; lia.
Qed.

Lemma watch_hit n p :
  Nat.iter (S n) lfsr16_step p.1 = 44257 ->
  p.2 + 1 <= (Nat.iter (S n) watch p).2.
Proof.
  intros H. pose proof (watch_mono n p). simpl in *.
  rewrite watch_fst, H. simpl. lia.
Qed.

Lemma watch_period : Nat.iter (Pos.to_nat 65535) watch (44257, 0) = (44257, 1).
Proof.
  unfold Nat.iter. rewrite <- Pos2Nat.inj_iter. vm_compute. reflexivity.
Qed.

Lemma lfsr16_iter_range n s :
  0 <= s < 65536 -> 0 <= Nat.iter n lfsr16_step s < 65536.
Proof.
  intros Hs. destruct n as [| n]; [exact Hs |]. simpl.
  unfold lfsr16_step, u16. apply Z.mod_pos_bound. lia.
Qed.

Lemma lfsr16_iter_inj n : forall s t,
  0 <= s < 65536 -> 0 <= t < 65536 ->
  Nat.iter n lfsr16_step s = Nat.iter n lfsr16_step t -> s = t.
Proof.
  induction n as [| n IH]; intros s t Hs Ht E; [exact E |].
  apply IH; [done | done |]. simpl in E.
  rewrite <- (lfsr16_unstep_step (Nat.iter n lfsr16_step s)),
    <- (lfsr16_unstep_step (Nat.iter n lfsr16_step t))
    by (by apply lfsr16_iter_range).
  by rewrite E.
Qed.

Lemma lfsr16_first_return (n : nat) :
  (0 < n)%nat -> Z.of_nat n < 65535 ->
  Nat.iter n lfsr16_step 44257 <> 44257.
Proof.
  intros Hn Hlt E.
  assert (Em : exists m, Pos.to_nat 65535 = (S m + n)%nat).
  { exists (Pos.to_nat 65535 - n - 1)%nat. lia. }
  destruct Em as [m Em].
  pose proof watch_period as P. rewrite Em, Nat.iter_add in P.
  set (q := Nat.iter n watch (44257, 0)) in *.
  assert (Hq1 : q.1 = 44257) by (subst q; by rewrite watch_fst).
  assert (Hq2 : 1 <= q.2).
  { subst q. destruct n as [| n]; [lia |].
    apply (watch_hit n (44257, 0)). exact E. }
  assert (Hr : Nat.iter (S m) lfsr16_step q.1 = 44257).
  { rewrite Hq1. rewrite <- E at 1. rewrite <- Nat.iter_add, <- Em.
    rewrite <- (watch_fst _ (44257, 0)). by rewrite watch_period. }
  pose proof (watch_hit m q Hr) as H. rewrite P in H. simpl in H. lia.
Qed.

(** X22.  The LFSR has the full period: started at the seed 0xACE1 it
    comes back to the seed after 65535 steps and not before, and the 65535
    draws of a period are pairwise different. *)
Theorem lfsr16_full_period :
  Nat.iter (Pos.to_nat 65535) lfsr16_step 44257 = 44257
  /\ (forall n : nat, (0 < n)%nat -> Z.of_nat n < 65535 ->
        Nat.iter n lfsr16_step 44257 <> 44257)
  /\ (forall i j : nat, Z.of_nat i < 65535 -> Z.of_nat j < 65535 ->
        Nat.iter i lfsr16_step 44257 = Nat.iter j lfsr16_step 44257 ->
        i = j).
Proof.
  split; [| split; [apply lfsr16_first_return |]].
  - rewrite <- (watch_fst _ (44257, 0)). by rewrite watch_period.
  - assert (H : forall i d : nat, Z.of_nat (i + d) < 65535 ->
              Nat.iter i lfsr16_step 44257
              = Nat.iter (i + d) lfsr16_step 44257 -> d = 0%nat).
    { intros i d Hlt E. rewrite Nat.iter_add in E.
      apply lfsr16_iter_inj in E;
        [| lia | apply lfsr16_iter_range; lia].
      destruct d as [| d]; [done |]. exfalso.
      apply (lfsr16_first_return (S d)); [lia | lia | done]. }
    intros i j Hi Hj E. destruct (Nat.le_ge_cases i j) as [L | L].
    + specialize (H i (j - i)%nat). replace (i + (j - i))%nat with j in H by lia.
      specialize (H Hj E). lia.
    + specialize (H j (i - j)%nat). replace (j + (i - j))%nat with i in H by lia.
      specialize (H Hi (eq_sym E)). lia.
Qed.

(** ** The phase and the board *)

Lemma level_inv_zero_sum gs :
  level_inv gs -> territory (grid gs) 0 + territory (grid gs) 1 = 836.
Proof.
  intros (_ & Hk & Hs). rewrite (territory_sum _ _ Hs).
  unfold level1_kinds in Hk. rewrite (census_kinds Symbol _ _ Hk).
  apply level1_kinds_census.
Qed.

Lemma territory_other ps g j :
  Forall (synced ps) g -> j <> 0 -> j <> 1 -> territory g j = 0.
Proof.
  intros H H0 H1. induction H as [| c g Hc _ IH]; [done |].
  rewrite territory_cons, IH. case_bool_decide as Hd; [| done].
  destruct Hd as [Hk Ho].
  destruct (Hc Hk) as [[E _] | [E _]]; rewrite E in Ho; simpl in Ho; lia.
Qed.

Lemma territory_repaint_grid g pid cur k :
  length g = 960%nat -> territory (repaint g pid cur) k = territory g k.
Proof. intros L. rewrite repaint_fmap by done. apply territory_repaint. Qed.

Lemma verdict_ok_step_fixed gs :
  walled gs -> level_inv gs -> verdict_ok gs -> verdict_ok (step_fixed gs).
Proof.
  intros [Hwf _] Hinv Hv.
  destruct (decide (phase gs = Playing)) as [Hph | Hph];
    [| replace (step_fixed gs) with gs;
       [exact Hv | unfold step_fixed; by destruct (phase gs)]].
  destruct (step_fixed_playing gs Hph Hwf) as (E & Hp & _).
  pose proof (level_inv_after_combat gs Hinv) as Hinv'.
  pose proof (level_inv_zero_sum _ Hinv') as Hz.
  destruct (level_inv_length _ _ Hinv') as [_ L].
  assert (Eg : grid (before_ai gs) = grid (after_combat gs))
    by apply (proj1 (verdict_stage_frame (after_combat gs))).
  assert (Ht : forall k, territory (grid (step_fixed gs)) k
                         = territory (grid (after_combat gs)) k).
  { intros k. rewrite E, territory_ai_stage by (by rewrite Eg).
    by rewrite Eg. }
  destruct (after_combat_inv gs) as (_ & Hpa & _). rewrite Hph in Hpa.
  unfold verdict_ok. rewrite !Ht, Hp. unfold before_ai.
  fold (after_combat gs). rewrite verdict_stage_phase by done.
  pose proof (territory_nonneg (grid (after_combat gs)) 0).
  pose proof (territory_nonneg (grid (after_combat gs)) 1).
  unfold lost_fires, won_fires.
  destruct (Z.eqb_spec (territory (grid (after_combat gs)) 0) 0) as [E0 | E0];
    destruct (Z.eqb_spec (territory (grid (after_combat gs)) 1) 0)
      as [E1 | E1];
    destruct (Z.gtb_spec (territory (grid (after_combat gs)) 0) 0);
    destruct (Z.gtb_spec (territory (grid (after_combat gs)) 1) 0);
    simpl; lia.
Qed.

Lemma verdict_ok_run_command gs c :
  walled gs -> level_inv gs -> verdict_ok gs -> verdict_ok (run_command gs c).
Proof.
  intros Hw Hinv Hv. destruct (level_inv_length _ _ Hinv) as [_ L].
  destruct c; cbn [run_command];
    [by apply verdict_ok_step_fixed | | | | | exact Hv | exact Hv | exact Hv
     | exact Hv | exact Hv | exact Hv].
  - unfold key_space, verdict_ok in *.
    destruct (phase gs) eqn:Hph.
    + cbn [phase grid set_phase]. exact Hv.
    + cbn [phase grid set_grid set_players]. rewrite Hph.
      by rewrite !territory_repaint_grid.
    + match goal with |- context [load_level1 ?s] =>
        destruct (load_level1_frame s) as (_ & -> & _);
        rewrite (load_level1_level1_grid s) end.
      cbn [phase set_players set_tick set_phase].
      match goal with |- context [level1_grid ?p ?q] =>
        destruct (territory_level1_grid p q) as [-> ->] end.
      lia.
    + match goal with |- context [load_level1 ?s] =>
        destruct (load_level1_frame s) as (_ & -> & _);
        rewrite (load_level1_level1_grid s) end.
      cbn [phase set_players set_tick set_phase].
      match goal with |- context [level1_grid ?p ?q] =>
        destruct (territory_level1_grid p q) as [-> ->] end.
      lia.
    + destruct Hv.
  - unfold force_albert_rotation. case_match; [| exact Hv].
    unfold verdict_ok in *. cbn [phase grid set_grid set_players].
    rewrite !territory_repaint_grid by done. exact Hv.
  - unfold reset_albert_timer. case_match; exact Hv.
  - unfold reset_albert_config. case_match; exact Hv.
Qed.

Lemma reached_verdict_ok cs :
  verdict_ok (run_commands initial_state cs).
Proof.
  assert (H : forall gs, walled gs -> level_inv gs -> verdict_ok gs ->
            verdict_ok (run_commands gs cs)).
  { induction cs as [| c cs IH]; intros gs Hw Hi Hv; [exact Hv |].
    apply IH; [by apply run_command_walled | by apply level_inv_run_command
              | by apply verdict_ok_run_command]. }
  apply H; [apply load_level1_walled | apply level_inv_initial_state |].
  unfold verdict_ok.
  destruct initial_state_eq as (-> & _ & -> & _).
  destruct (territory_level1_grid Rock Scissors) as [-> ->]. lia.
Qed.

(** X23.  In every state of a game the phase agrees with the board.  A
    level that is Won has no cell of player 1 left and all 836 belong to
    player 0; a level that is Lost has none of player 0; and as long as the
    level is Ready or being played each player holds at least one cell. *)
Theorem phase_agrees_with_board cs :
  let s := run_commands initial_state cs in
  let t0 := territory (grid s) 0 in
  let t1 := territory (grid s) 1 in
  (phase s = Won -> t1 = 0 /\ t0 = 836)
  /\ (phase s = Lost -> t0 = 0 /\ t1 = 836)
  /\ (phase s = Ready \/ phase s = Playing -> 0 < t0 /\ 0 < t1).
Proof.
  intros s t0 t1. subst t0 t1.
  pose proof (reached_verdict_ok cs) as Hv. fold s in Hv.
  pose proof (level_inv_zero_sum _ (reached_level_inv cs)) as Hz.
  fold s in Hz. unfold verdict_ok in Hv.
  destruct (phase s); split_and!; try done; try lia;
    intros [? | ?]; done.
Qed.

(** X24.  The symbol counts of the debug window, and of the win/loss
    scan of [step_fixed], in every state of a game: the counts of player 0
    and player 1 are their territories and add up to 836, the other two
    slots of the array stay 0, and the loop over the players reads inside
    the four slots. *)
Theorem symbol_counts_in_game cs :
  let s := run_commands initial_state cs in
  let counts := count_symbols (grid s) in
  counts = [territory (grid s) 0; territory (grid s) 1; 0; 0]
  /\ counts !!! 0%nat + counts !!! 1%nat = 836
  /\ (length (players s) <= length counts)%nat.
Proof.
  intros s counts. subst counts.
  destruct (reached_walled cs) as [Hwf _]. fold s in Hwf.
  pose proof (reached_level_inv cs) as Hinv. fold s in Hinv.
  destruct (level_inv_length _ _ Hinv) as [Lp _].
  pose proof (level_inv_zero_sum _ Hinv) as Hz.
  destruct Hinv as (_ & _ & Hs).
  assert (Hl : length (count_symbols (grid s)) = 4%nat).
  { rewrite count_symbols_foldl by apply Hwf.
    apply (foldl_inv (fun l => length l = 4%nat)); [| done].
    intros l c Hl. by rewrite count_cell_length. }
  pose proof (count_symbols_territory (grid s) 0 Hwf ltac:(lia)) as C0.
  pose proof (count_symbols_territory (grid s) 1 Hwf ltac:(lia)) as C1.
  pose proof (count_symbols_territory (grid s) 2 Hwf ltac:(lia)) as C2.
  pose proof (count_symbols_territory (grid s) 3 Hwf ltac:(lia)) as C3.
  rewrite (territory_other _ _ _ Hs) in C2 by lia.
  rewrite (territory_other _ _ _ Hs) in C3 by lia.
  change (Z.of_nat 0) with 0 in C0. change (Z.of_nat 1) with 1 in C1.
  destruct (count_symbols (grid s)) as [| a [| b [| c [| d [| e l]]]]];
    try discriminate Hl.
  simpl in C0, C1, C2, C3. subst a b c d.
  split; [done |]. split; [exact Hz | simpl; lia].
Qed.

End Simulation.

(** * The theorems at work on the sample states *)

(** [playing_state] is the initial state of [main] once SPACE has started
    the game. *)
Lemma playing_state_started :
  playing_state = run_commands no_system_draws initial_state [KeySpace].
Proof.
  unfold initial_state.
  match goal with |- context [load_level1 ?s] =>
    replace (load_level1 s) with (set_grid (grid (load_level1 s)) s)
      by reflexivity
  end.
  rewrite load_level1_level1_grid. reflexivity.
Qed.

(** C9 at the seed. *)
Lemma lfsr16_never_zero_witness :
  0 < 44257 < 65536 /\ 0 < lfsr16_step 44257 < 65536.
Proof.
  split; [lia |]. apply (proj1 (lfsr16_never_zero no_system_draws)). lia.
Defined.

(** C8 on the first attempt of a game whose generator picks the corner cell
    and its northern neighbour. *)
Lemma out_of_grid_attempt_discarded_witness :
  pick_pair no_system_draws system_rng_state
  = (0, 0, 0, -1, set_gen_calls 3 system_rng_state)
  /\ in_bounds 0 (-1) = false
  /\ pair_attempt no_system_draws (system_rng_state, mkPairStats 0 0 0)
     = (set_gen_calls 3 system_rng_state, mkPairStats 0 0 0).
Proof.
  assert (Hp : pick_pair no_system_draws system_rng_state
               = (0, 0, 0, -1, set_gen_calls 3 system_rng_state))
    by (vm_compute; reflexivity).
  assert (Ho : in_bounds 0 (-1) = false) by reflexivity.
  split; [exact Hp |]. split; [exact Ho |].
  exact (proj1 (proj2 (out_of_grid_attempt_discarded no_system_draws
                         system_rng_state (mkPairStats 0 0 0)
                         0 0 0 (-1) _ Hp Ho))).
Defined.

(** C7 on the front line of the fresh level: Rock at (19,1) meets Scissors
    at (20,1). *)
Lemma rock_paper_scissors_duel_witness :
  exists winner loser,
    beats (piece winner) (piece loser) = true
    /\ cell_at (grid (resolve_pair no_system_draws playing_state 19 1 20 1))
         19 1 = winner
    /\ cell_at (grid (resolve_pair no_system_draws playing_state 19 1 20 1))
         20 1 = winner
    /\ tick_losses
         (players (resolve_pair no_system_draws playing_state 19 1 20 1)
            !!! Z.to_nat (v (owner loser)))
       = u8 (tick_losses
               (players playing_state !!! Z.to_nat (v (owner loser))) + 1).
Proof.
  assert (H1 : length (grid playing_state) = 960%nat)
    by (vm_compute; reflexivity).
  assert (H4 : kind (cell_at (grid playing_state) 19 1) = Symbol)
    by (vm_compute; reflexivity).
  assert (H5 : kind (cell_at (grid playing_state) 20 1) = Symbol)
    by (vm_compute; reflexivity).
  assert (H6 : v (owner (cell_at (grid playing_state) 19 1))
               <> v (owner (cell_at (grid playing_state) 20 1)))
    by (vm_compute; discriminate).
  assert (H7 : piece (cell_at (grid playing_state) 19 1)
               <> piece (cell_at (grid playing_state) 20 1))
    by (vm_compute; discriminate).
  assert (H8 : 0 <= v (owner (cell_at (grid playing_state) 19 1))
               < Z.of_nat (length (players playing_state)))
    by (vm_compute; split; [discriminate | reflexivity]).
  assert (H9 : 0 <= v (owner (cell_at (grid playing_state) 20 1))
               < Z.of_nat (length (players playing_state)))
    by (vm_compute; split; [discriminate | reflexivity]).
  destruct (rock_paper_scissors_duel no_system_draws playing_state 19 1 20 1
              H1 eq_refl eq_refl H4 H5 H6 H7 H8 H9)
    as (w & l & _ & Hb & _ & Hx & Hn & _ & Ht & _).
  exists w, l. split; [exact Hb |]. split; [exact Hx |].
  split; [exact Hn | exact Ht].
Defined.

(** C5 on the same pair. *)
Lemma duel_conservation_witness :
  let g := grid playing_state in
  let g' := grid (resolve_pair no_system_draws playing_state 19 1 20 1) in
  (cell_at g' 19 1 = cell_at g 19 1 \/ cell_at g' 19 1 = cell_at g 20 1)
  /\ (cell_at g' 20 1 = cell_at g 19 1 \/ cell_at g' 20 1 = cell_at g 20 1)
  /\ length g' = length g.
Proof.
  intros g g'.
  assert (H1 : length (grid playing_state) = 960%nat)
    by (vm_compute; reflexivity).
  destruct (duel_conservation no_system_draws playing_state 19 1 20 1
              H1 eq_refl)
    as (_ & Ha & Hb & _ & L).
  split; [exact Ha |]. split; [exact Hb | exact L].
Defined.

(** C6 on the deserted board. *)
Lemma double_zero_stays_playing_witness :
  territory (grid (after_combat no_system_draws deserted_state)) 0 = 0
  /\ territory (grid (after_combat no_system_draws deserted_state)) 1 = 0
  /\ phase (step_fixed no_system_draws deserted_state) = Playing.
Proof.
  assert (Hw : wf_grid (grid deserted_state))
    by (apply wf_grid_check; vm_compute; reflexivity).
  assert (H0 : territory (grid (after_combat no_system_draws deserted_state)) 0
               = 0) by (vm_compute; reflexivity).
  assert (H1 : territory (grid (after_combat no_system_draws deserted_state)) 1
               = 0) by (vm_compute; reflexivity).
  split; [exact H0 |]. split; [exact H1 |].
  exact (proj1 (double_zero_stays_playing no_system_draws deserted_state
                  eq_refl Hw) H0 H1).
Defined.

(** C1 on the conquered board: the tick that ends in Won. *)
Lemma playing_tick_order_witness :
  step_fixed no_system_draws conquered_state
  = ai_stage no_system_draws
      (verdict_stage
         (combat_stage no_system_draws
            (reset_stage (tick_stage conquered_state))))
  /\ phase (step_fixed no_system_draws conquered_state)
     = phase (before_ai no_system_draws conquered_state).
Proof.
  assert (Hw : wf_grid (grid conquered_state))
    by (apply wf_grid_check; vm_compute; reflexivity).
  destruct (playing_tick_order no_system_draws conquered_state eq_refl Hw)
    as (H1 & H2 & _).
  split; [exact H1 | exact H2].
Defined.

(** C1, the claim as worded, fails on the conquered board: Won fires and
    the AI Controller still runs (it draws Albert's first interval). *)
Lemma ai_runs_though_won :
  phase conquered_state = Playing
  /\ won_fires (grid (after_combat no_system_draws conquered_state)) = true
  /\ step_fixed no_system_draws conquered_state
     <> tick_as_specified no_system_draws conquered_state.
Proof.
  split; [reflexivity |]. split; [vm_compute; reflexivity |].
  intros H.
  assert (H1 : rot_period
                 (players (step_fixed no_system_draws conquered_state)
                    !!! 1%nat) = 21) by (vm_compute; reflexivity).
  assert (H2 : rot_period
                 (players (tick_as_specified no_system_draws conquered_state)
                    !!! 1%nat) = 0) by (vm_compute; reflexivity).
  rewrite H, H2 in H1. discriminate H1.
Qed.

(** C3 on the idle state. *)
Lemma idle_combat_tick_witness :
  grid (before_ai no_system_draws idle_state) = grid idle_state
  /\ tick (step_fixed no_system_draws idle_state) = u16 (tick idle_state + 1)
  /\ stats_of (step_fixed no_system_draws idle_state) = (0, 0, 0, 0).
Proof.
  assert (Hw : wf_grid (grid idle_state))
    by (apply wf_grid_check; vm_compute; reflexivity).
  destruct (idle_combat_tick no_system_draws idle_state eq_refl Hw eq_refl)
    as (_ & H1 & _ & _ & _ & H2 & _ & H3 & _).
  split; [exact H1 |]. split; [exact H2 | exact H3].
Defined.

(** The idle state is reached from the start of the game. *)
Lemma idle_state_reached :
  idle_state
  = run_commands no_system_draws playing_state
      (SetPairsPerTick 0 :: SetRotationAverage 10
       :: SetRotationHalfInterval 5 :: repeat Tick 11).
Proof. vm_compute. reflexivity. Qed.

(** C3, the claim as worded, fails on the idle state: with no pair attempt
    at all, the tick repaints the cells of player 1, advances its piece and
    its schedule and consumes a draw. *)
Lemma idle_tick_changes_grid :
  pairs_per_tick (cfg idle_state) = 0 /\ phase idle_state = Playing
  /\ grid (step_fixed no_system_draws idle_state) <> grid idle_state
  /\ rng16 (step_fixed no_system_draws idle_state) <> rng16 idle_state
  /\ current (players (step_fixed no_system_draws idle_state) !!! 1%nat)
     <> current (players idle_state !!! 1%nat).
Proof.
  split; [reflexivity |]. split; [reflexivity |]. split; [| split].
  - intros H.
    assert (H1 : piece (cell_at (grid (step_fixed no_system_draws idle_state))
                          20 1) = Rock) by (vm_compute; reflexivity).
    assert (H2 : piece (cell_at (grid idle_state) 20 1) = Scissors)
      by (vm_compute; reflexivity).
    rewrite H, H2 in H1. discriminate H1.
  - vm_compute. discriminate.
  - vm_compute. discriminate.
Qed.

(** C4 on a border cell after two ticks and a rotation. *)
Lemma border_walls_forever_witness :
  in_bounds 0 5 = true /\ on_border 0 5 = true
  /\ kind (cell_at (grid (run_commands no_system_draws
                           (load_level1 playing_state)
                           [Tick; KeySpace; Tick])) 0 5) = Wall.
Proof.
  split; [reflexivity |]. split; [reflexivity |].
  exact (proj2 (proj2 (proj2 (border_walls_forever no_system_draws)))
           playing_state [Tick; KeySpace; Tick] 0 5 eq_refl eq_refl).
Defined.

(** C10 on the crowded board: player 0 loses 418 duels in one tick of 500
    attempts and its counter reads 162. *)
Lemma tick_losses_wrap_witness :
  pairs_per_tick (cfg crowded_state) = 500
  /\ true_losses 0
       (losers crowded_stream 500 (reset_stage (tick_stage crowded_state)))
     = 418
  /\ tick_losses (players (step_fixed crowded_stream crowded_state) !!! 0%nat)
     = 162.
Proof.
  assert (Hw : wf_grid (grid crowded_state))
    by (apply wf_grid_check; vm_compute; reflexivity).
  assert (Hk : (0 < length (players crowded_state))%nat)
    by (vm_compute; lia).
  assert (Hn : true_losses 0
                 (losers crowded_stream 500
                    (reset_stage (tick_stage crowded_state))) = 418)
    by (vm_compute; reflexivity).
  split; [reflexivity |]. split; [exact Hn |].
  destruct (tick_losses_wrap crowded_stream crowded_state 0 eq_refl Hw Hk)
    as (_ & Hc & _).
  etrans; [exact Hc |].
  change (Z.to_nat (pairs_per_tick (cfg crowded_state))) with 500%nat.
  change (Z.of_nat 0) with 0.
  rewrite Hn. reflexivity.
Defined.

(** C2: the stored interval leaves the range.  With both sliders at their
    upper end the range is 100..300; the draw 4805 gives 100 + 4805 mod 201
    = 282, and [rot_period] keeps 282 - 256 = 26.  The same happens in the
    first tick of a game started with these sliders and 62 pair attempts
    per tick. *)
Theorem rot_period_leaves_interval :
  min_interval (albert_config wide_state) = 100
  /\ max_interval (albert_config wide_state) = 300
  /\ (rngu no_system_draws wide_state).1 = 4805
  /\ rot_period (players (update_albert_ai no_system_draws wide_state 1)
                   !!! 1%nat) = 26
  /\ ~ (min_interval (albert_config wide_state)
        <= rot_period (players (update_albert_ai no_system_draws wide_state 1)
                         !!! 1%nat)
        <= max_interval (albert_config wide_state))
  /\ rot_period
       (players
          (run_commands no_system_draws playing_state
             [SetRotationAverage 200; SetRotationHalfInterval 100;
              SetPairsPerTick 62; Tick]) !!! 1%nat) = 26.
Proof.
  vm_compute. split_and!; try reflexivity. intros [H _]. by apply H.
Qed.

(** * The further properties at work on the sample states *)

(** X1 at the cell (27,13) with the draw 6. *)
Lemma pick_neighbor_adjacent_witness :
  in_bounds 27 13 = true /\ on_border 27 13 = false
  /\ in_bounds (pick_neighbor 27 13 6).1 (pick_neighbor 27 13 6).2 = true.
Proof.
  split; [reflexivity |]. split; [reflexivity |].
  exact (proj1 (proj2 (pick_neighbor_adjacent 27 13 6)) eq_refl eq_refl).
Defined.

(** X2 on the pair picked by the generator whose every output is 0. *)
Lemma pick_pair_adjacent_witness :
  pick_pair no_system_draws system_rng_state
  = (0, 0, 0, -1, set_gen_calls 3 system_rng_state)
  /\ Z.abs (0 - 0) + Z.abs (-1 - 0) = 1
  /\ gen_calls (set_gen_calls 3 system_rng_state)
     = S (S (S (gen_calls system_rng_state))).
Proof.
  assert (Hp : pick_pair no_system_draws system_rng_state
               = (0, 0, 0, -1, set_gen_calls 3 system_rng_state))
    by (vm_compute; reflexivity).
  destruct (pick_pair_adjacent no_system_draws system_rng_state 0 0 0 (-1) _ Hp)
    as (_ & Ha & _ & _ & _ & _ & Hs).
  split; [exact Hp |]. split; [exact Ha |]. exact (proj1 (Hs eq_refl)).
Defined.

(** X4 on the corner Wall and its eastern neighbour. *)
Lemma resolve_pair_no_effect_witness :
  kind (cell_at (grid playing_state) 0 0) = Wall
  /\ resolve_pair no_system_draws playing_state 0 0 1 0 = playing_state.
Proof.
  assert (H : kind (cell_at (grid playing_state) 0 0) = Wall)
    by (vm_compute; reflexivity).
  split; [exact H |].
  exact (proj1 (resolve_pair_no_effect no_system_draws playing_state 0 0 1 0
                  (mkPairStats 0 0 0) (or_intror (or_introl H)))).
Defined.

(** X5 on the emptied cell (5,5) and its eastern neighbour. *)
Lemma expansion_into_empty_witness :
  kind (cell_at (grid holed_state) 5 5) = Empty
  /\ kind (cell_at (grid holed_state) 6 5) = Symbol
  /\ players (resolve_pair no_system_draws holed_state 5 5 6 5)
     = players holed_state
  /\ rng16 (resolve_pair no_system_draws holed_state 5 5 6 5)
     = rng16 holed_state.
Proof.
  assert (L : length (grid holed_state) = 960%nat)
    by (vm_compute; reflexivity).
  assert (Ha : kind (cell_at (grid holed_state) 5 5) = Empty)
    by (vm_compute; reflexivity).
  assert (Hb : kind (cell_at (grid holed_state) 6 5) = Symbol)
    by (vm_compute; reflexivity).
  destruct (expansion_into_empty no_system_draws holed_state 5 5 6 5
              L eq_refl eq_refl (or_introl (conj Ha Hb)))
    as (_ & _ & _ & Hp & Hr & _).
  split; [exact Ha |]. split; [exact Hb |]. split; [exact Hp | exact Hr].
Defined.

(** X6 on the front line of a level where both players show Rock. *)
Lemma same_piece_coin_flip_witness :
  piece (cell_at (grid mirror_state) 19 1)
  = piece (cell_at (grid mirror_state) 20 1)
  /\ rng16 (resolve_pair no_system_draws mirror_state 19 1 20 1)
     = rng16 (rngu no_system_draws mirror_state).2.
Proof.
  assert (L : length (grid mirror_state) = 960%nat)
    by (vm_compute; reflexivity).
  assert (Ha : kind (cell_at (grid mirror_state) 19 1) = Symbol)
    by (vm_compute; reflexivity).
  assert (Hb : kind (cell_at (grid mirror_state) 20 1) = Symbol)
    by (vm_compute; reflexivity).
  assert (Ho : v (owner (cell_at (grid mirror_state) 19 1))
               <> v (owner (cell_at (grid mirror_state) 20 1)))
    by (vm_compute; discriminate).
  assert (Hp : piece (cell_at (grid mirror_state) 19 1)
               = piece (cell_at (grid mirror_state) 20 1))
    by (vm_compute; reflexivity).
  destruct (same_piece_coin_flip no_system_draws mirror_state 19 1 20 1
              L eq_refl eq_refl Ha Hb Ho Hp)
    as (_ & _ & _ & _ & Hr & _).
  split; [exact Hp | exact Hr].
Defined.

(** X8 on the first update of a game. *)
Lemma albert_schedule_witness :
  (1 < length (players playing_state))%nat
  /\ 0 <= next_rotation_in (update_albert_ai no_system_draws playing_state 1).
Proof.
  assert (H : (1 < length (players playing_state))%nat)
    by (vm_compute; lia).
  split; [exact H |].
  exact (proj1 (proj2 (albert_schedule no_system_draws playing_state H))).
Defined.

(** X9 at the cell (5,5). *)
Lemma load_level1_layout_witness :
  in_bounds 5 5 = true
  /\ territory (grid (load_level1 playing_state)) 0 = 418.
Proof.
  split; [reflexivity |].
  destruct (load_level1_layout playing_state 5 5 eq_refl)
    as (_ & _ & _ & _ & _ & H & _).
  exact H.
Defined.

(** X11 at the cell (5,5) of the game just started. *)
Lemma pieces_follow_owner_witness :
  let s := run_commands no_system_draws initial_state [KeySpace] in
  kind (cell_at (grid s) 5 5) = Symbol
  /\ ((owner (cell_at (grid s) 5 5) = mkPlayerId 0
       /\ piece (cell_at (grid s) 5 5) = current (players s !!! 0%nat))
      \/ (owner (cell_at (grid s) 5 5) = mkPlayerId 1
          /\ piece (cell_at (grid s) 5 5) = current (players s !!! 1%nat))).
Proof.
  intros s.
  assert (H : kind (cell_at (grid s) 5 5) = Symbol).
  { subst s. rewrite <- playing_state_started. vm_compute. reflexivity. }
  split; [exact H |].
  exact (pieces_follow_owner no_system_draws [KeySpace] 5 5 H).
Defined.

(** X12 on the first tick of a game. *)
Lemma battles_are_losses_witness :
  let s := run_commands no_system_draws initial_state [KeySpace] in
  let ls :=
    losers no_system_draws (Z.to_nat (pairs_per_tick (cfg s)))
      (reset_stage (tick_stage s)) in
  phase s = Playing
  /\ last_battles (step_fixed no_system_draws s)
     = true_losses 0 ls + true_losses 1 ls.
Proof.
  intros s ls.
  assert (H : phase s = Playing).
  { subst s. rewrite <- playing_state_started. reflexivity. }
  split; [exact H |].
  exact (proj1 (proj2 (battles_are_losses no_system_draws [KeySpace] H))).
Defined.

(** X13 on the first tick of a game: Rock against Scissors. *)
Lemma dominant_piece_wins_every_battle_witness :
  let s := run_commands no_system_draws initial_state [KeySpace] in
  phase s = Playing
  /\ beats (current (players s !!! 0%nat)) (current (players s !!! 1%nat))
     = true
  /\ tick_losses (players (step_fixed no_system_draws s) !!! 0%nat) = 0.
Proof.
  intros s.
  assert (H : phase s = Playing).
  { subst s. rewrite <- playing_state_started. reflexivity. }
  assert (Hb : beats (current (players s !!! 0%nat))
                 (current (players s !!! (1 - 0)%nat)) = true).
  { subst s. rewrite <- playing_state_started. reflexivity. }
  split; [exact H |]. split; [exact Hb |].
  exact (proj1 (dominant_piece_wins_every_battle no_system_draws [KeySpace]
                  0 H (Nat.lt_0_succ 1) Hb)).
Defined.

(** X14 on the game just started. *)
Lemma three_rotations_restore_witness :
  let s := run_commands no_system_draws initial_state [KeySpace] in
  phase s = Playing
  /\ grid (key_space (key_space (key_space s))) = grid s.
Proof.
  intros s.
  assert (H : phase s = Playing).
  { subst s. rewrite <- playing_state_started. reflexivity. }
  split; [exact H |].
  exact (proj1 (proj2 (three_rotations_restore no_system_draws [KeySpace] H))).
Defined.

(** X15 on the conquered board. *)
Lemma restart_reloads_level_witness :
  phase won_state = Won
  /\ phase (key_space won_state) = Ready /\ tick (key_space won_state) = 0
  /\ players (key_space won_state) = players initial_state.
Proof.
  split; [reflexivity |].
  destruct (restart_reloads_level no_system_draws won_state
              (or_introl eq_refl) eq_refl eq_refl)
    as (H1 & H2 & _ & H3 & _).
  split; [exact H1 |]. split; [exact H2 | exact H3].
Defined.

(** X16: a tick on the conquered board once it is Won. *)
Lemma phase_machine_witness :
  phase won_state <> Playing
  /\ step_fixed no_system_draws won_state = won_state.
Proof.
  assert (H : phase won_state <> Playing) by discriminate.
  split; [exact H |].
  exact (proj1 (proj2 (phase_machine no_system_draws won_state Tick)) H).
Defined.

(** X18 at the seed. *)
Lemma lfsr16_step_bijective_witness :
  0 <= 44257 < 65536 /\ lfsr16_unstep (lfsr16_step 44257) = 44257.
Proof.
  assert (H : 0 <= 44257 < 65536) by lia.
  split; [exact H |]. exact (proj1 lfsr16_step_bijective 44257 H).
Defined.

(** X19 on a tick played with the LFSR. *)
Lemma generators_do_not_mix_witness :
  use_system_rng playing_state = false
  /\ gen_calls (run_command no_system_draws playing_state Tick)
     = gen_calls playing_state.
Proof.
  split; [reflexivity |].
  exact (proj2 (proj2 (proj2 (proj2 (generators_do_not_mix no_system_draws
                                       playing_state Tick)))) eq_refl).
Defined.

(** X20 on the conquered board. *)
Lemma last_player_standing_witness :
  sole_owner 0 (grid conquered_state)
  /\ 0 < territory (grid conquered_state) 0
  /\ phase (step_fixed no_system_draws conquered_state) = Won.
Proof.
  assert (Hw : wf_grid (grid conquered_state))
    by (apply wf_grid_check; vm_compute; reflexivity).
  assert (Hs : sole_owner (Z.of_nat 0) (grid conquered_state))
    by (unfold sole_owner; apply (bool_decide_unpack _); vm_compute;
        exact I).
  assert (Ht : 0 < territory (grid conquered_state) (Z.of_nat 0))
    by (vm_compute; reflexivity).
  split; [exact Hs |]. split; [exact Ht |].
  exact (proj1 (last_player_standing no_system_draws conquered_state 0
                  eq_refl Hw (Nat.lt_0_succ 1) Hs Ht)).
Defined.

(** X21 on the hundred ticks that follow tick 65530. *)
Lemma albert_frozen_by_tick_wrap_witness :
  65535 < last_rot_tick (players late_state !!! 1%nat)
          + rot_period (players late_state !!! 1%nat)
  /\ current (players (run_commands no_system_draws late_state
                         (repeat Tick 100)) !!! 1%nat)
     = current (players late_state !!! 1%nat).
Proof.
  assert (Hl : (1 < length (players late_state))%nat) by (vm_compute; lia).
  assert (Ht : 0 <= tick late_state < 65536) by (vm_compute; split; discriminate || reflexivity).
  assert (Hr : rot_period (players late_state !!! 1%nat) <> 0)
    by (vm_compute; discriminate).
  assert (Hw : 65535 < last_rot_tick (players late_state !!! 1%nat)
                       + rot_period (players late_state !!! 1%nat))
    by (vm_compute; reflexivity).
  split; [exact Hw |].
  exact (proj1 (albert_frozen_by_tick_wrap no_system_draws late_state 100
                  Hl Ht Hr Hw)).
Defined.

(** X22 at the third draw. *)
Lemma lfsr16_full_period_witness :
  (0 < 3)%nat /\ Z.of_nat 3 < 65535
  /\ Nat.iter 3 lfsr16_step 44257 <> 44257.
Proof.
  assert (H1 : (0 < 3)%nat) by lia.
  assert (H2 : Z.of_nat 3 < 65535) by reflexivity.
  split; [exact H1 |]. split; [exact H2 |].
  exact (proj1 (proj2 lfsr16_full_period) 3%nat H1 H2).
Defined.

(** X23 on the game just started. *)
Lemma phase_agrees_with_board_witness :
  let s := run_commands no_system_draws initial_state [KeySpace] in
  phase s = Playing
  /\ 0 < territory (grid s) 0 /\ 0 < territory (grid s) 1.
Proof.
  intros s.
  assert (H : phase s = Playing).
  { subst s. rewrite <- playing_state_started. reflexivity. }
  split; [exact H |].
  exact (proj2 (proj2 (phase_agrees_with_board no_system_draws [KeySpace]))
           (or_intror H)).
Defined.
